(** * p2pool-go: a shallow embedding of the consensus core

    The development follows the Go packages of the repository:
    [util] (byte primitives), [types] (share model), [work] (merkle
    branches), [pplns] (payout computation), [sharechain] (retargeting and
    validation) and [p2p] (wire messages and locator sync).  The embedding
    comes first, one module per package; the theorems about it follow in the
    second half of the file, one module of facts per subject. *)

From Stdlib Require Import ZArith List Ascii String Bool Lia Sorting.Permutation.
From stdpp Require Import base option list gmap strings pretty sorting.
From Equations Require Import Equations.

Local Open Scope Z_scope.

(** Go functions that return [(value, error)]. *)
Inductive result (A : Type) : Type :=
| Ok (a : A)
| Err (msg : string).
Arguments Ok {A} a.
Arguments Err {A} msg.

(** A Go [byte]; [[]byte] is [list byte] and a Go [string] is a [string]. *)
Abbreviation byte := ascii.

Definition byte_of_Z (z : Z) : byte := ascii_of_N (Z.to_N (z mod 256)).
Definition Z_of_byte (b : byte) : Z := Z.of_N (N_of_ascii b).

(** Fixed-width machine integers are carried as [Z]; conversions and
    arithmetic wrap explicitly. *)
Definition uint16 (z : Z) : Z := z mod 2 ^ 16.
Definition uint32 (z : Z) : Z := z mod 2 ^ 32.
Definition uint64 (z : Z) : Z := z mod 2 ^ 64.
Definition int64 (z : Z) : Z := (z + 2 ^ 63) mod 2 ^ 64 - 2 ^ 63.

Definition MaxInt64 : Z := 2 ^ 63 - 1.
Definition MinInt64 : Z := - 2 ^ 63.

(** [s[lo:hi]] on a slice that is long enough. *)
Definition slice {A} (l : list A) (lo hi : nat) : list A :=
  take (hi - lo) (drop lo l).

(** ** encoding/binary, little endian *)
Module binary.

Fixpoint le_bytes (n : nat) (v : Z) : list byte :=
  match n with
  | O => []
  | S n' => byte_of_Z v :: le_bytes n' (v ≫ 8)
  end.

Fixpoint le_value (b : list byte) : Z :=
  match b with
  | [] => 0
  | b0 :: r => Z.lor (Z_of_byte b0) (le_value r ≪ 8)
  end.

Definition PutUint16 (v : Z) : list byte := le_bytes 2 v.
Definition PutUint32 (v : Z) : list byte := le_bytes 4 v.
Definition PutUint64 (v : Z) : list byte := le_bytes 8 v.
Definition Uint16 (b : list byte) : Z := le_value (take 2 b).
Definition Uint32 (b : list byte) : Z := le_value (take 4 b).
Definition Uint64 (b : list byte) : Z := le_value (take 8 b).

End binary.

(** ** package util *)
Module util.

(** [WriteVarInt(val uint64) []byte] *)
Definition WriteVarInt (val : Z) : list byte :=
  if val <? 0xfd then [byte_of_Z val]
  else if val <=? 0xffff then byte_of_Z 0xfd :: binary.PutUint16 (uint16 val)
  else if val <=? 0xffffffff then byte_of_Z 0xfe :: binary.PutUint32 (uint32 val)
  else byte_of_Z 0xff :: binary.PutUint64 val.

(** [ReadVarInt(data []byte) (uint64, int, error)] *)
Definition ReadVarInt (data : list byte) : result (Z * Z) :=
  match data with
  | [] => Err "empty data"
  | d0 :: _ =>
      if Z_of_byte d0 <? 0xfd then Ok (uint64 (Z_of_byte d0), 1)
      else if Z_of_byte d0 =? 0xfd then
        if (length data <? 3)%nat then Err "insufficient data for uint16 varint"
        else Ok (uint64 (binary.Uint16 (slice data 1 3)), 3)
      else if Z_of_byte d0 =? 0xfe then
        if (length data <? 5)%nat then Err "insufficient data for uint32 varint"
        else Ok (uint64 (binary.Uint32 (slice data 1 5)), 5)
      else
        if (length data <? 9)%nat then Err "insufficient data for uint64 varint"
        else Ok (binary.Uint64 (slice data 1 9), 9)
  end.

(** [math/big]: [Int.Div] is Euclidean division (the remainder is never
    negative); it panics on a zero divisor, which every caller below rules
    out before dividing. *)
Definition big_Div (x y : Z) : Z :=
  if 0 <? y then x / y else - (x / - y).

(** [math/big]: [Int.Bytes] is the big-endian minimal byte string of the
    absolute value, and [Int.SetBytes] reads one back. *)
Definition byte_len (x : Z) : nat :=
  if x =? 0 then O else Z.to_nat (Z.log2 x / 8 + 1).
Definition big_Bytes (x : Z) : list byte :=
  rev (binary.le_bytes (byte_len (Z.abs x)) (Z.abs x)).
Definition big_SetBytes (b : list byte) : Z := binary.le_value (rev b).

(** [b[i]] as an integer. *)
Definition at_index (b : list byte) (i : nat) : Z := Z_of_byte (nth i b zero).

(** [ReverseBytes(b []byte) []byte] *)
Definition ReverseBytes (b : list byte) : list byte := rev b.

(** [CompactToTarget(compact uint32) *big.Int] *)
Definition CompactToTarget (compact : Z) : Z :=
  let exponent := compact ≫ 24 in
  let mantissa := Z.land compact 0x007fffff in
  let target :=
    if exponent <=? 3 then mantissa ≫ uint32 (8 * uint32 (3 - exponent))
    else mantissa ≪ uint32 (8 * uint32 (exponent - 3)) in
  if negb (Z.land compact 0x00800000 =? 0) then - target else target.

(** The loop of [TargetToCompact] for [size <= 3]:
    [mantissa |= uint32(v) << uint(8*(2-uint32(i)-(3-size)))]. *)
Fixpoint smallMantissa (size : Z) (i : nat) (b : list byte) (mantissa : Z) : Z :=
  match b with
  | [] => mantissa
  | v :: r =>
      let sh := uint32 (8 * uint32 (uint32 (2 - Z.of_nat i) - uint32 (3 - size))) in
      smallMantissa size (S i) r (Z.lor mantissa (uint32 (Z_of_byte v ≪ sh)))
  end.

(** [TargetToCompact(target *big.Int) uint32] *)
Definition TargetToCompact (target : Z) : Z :=
  if target =? 0 then 0 else
  let isNegative := target <? 0 in
  let absTarget := Z.abs target in
  let b := big_Bytes absTarget in
  let size := uint32 (Z.of_nat (length b)) in
  let mantissa :=
    if size <=? 3 then smallMantissa size 0 b 0
    else Z.lor (Z.lor (at_index b 0 ≪ 16) (at_index b 1 ≪ 8)) (at_index b 2) in
  let '(mantissa, size) :=
    if negb (Z.land mantissa 0x00800000 =? 0)
    then (mantissa ≫ 8, uint32 (size + 1)) else (mantissa, size) in
  let compact := Z.lor (uint32 (size ≪ 24)) (Z.land mantissa 0x007fffff) in
  if isNegative then Z.lor compact 0x00800000 else compact.

(** [HashMeetsTarget(hash [32]byte, target *big.Int) bool] *)
Definition HashMeetsTarget (hash : list byte) (target : Z) : bool :=
  let reversed := ReverseBytes hash in
  let hashInt := big_SetBytes reversed in
  hashInt <=? target.

(** [WriteScriptLen(length int) []byte]; [byte(length)], [uint16(length)]
    and [uint32(length)] truncate. *)
Definition WriteScriptLen (length : Z) : list byte :=
  if length <? 0x4c then [byte_of_Z length]
  else if length <=? 0xff then [byte_of_Z 0x4c; byte_of_Z length]
  else if length <=? 0xffff then byte_of_Z 0x4d :: binary.PutUint16 (uint16 length)
  else byte_of_Z 0x4e :: binary.PutUint32 (uint32 length).

Section sha.
(** [crypto/sha256.Sum256], from the Go standard library. *)
Variable Sum256 : list byte -> list byte.

(** [DoubleSHA256(data []byte) [32]byte] *)
Definition DoubleSHA256 (data : list byte) : list byte :=
  let first := Sum256 data in
  Sum256 first.
End sha.

End util.

Example CompactToTarget_testnet :
  util.CompactToTarget 0x1d00ffff = 0xffff0000000000000000000000000000000000000000000000000000.
Proof. reflexivity. Qed.
Example CompactToTarget_small : util.CompactToTarget 0x03123456 = 0x123456.
Proof. reflexivity. Qed.
Example CompactRoundTrip_tests :
  map (fun c => util.TargetToCompact (util.CompactToTarget c))
    [0x1d00ffff; 0x03123456; 0x04123456; 0x1b0404cb; 0x207fffff]
  = [0x1d00ffff; 0x03123456; 0x04123456; 0x1b0404cb; 0x207fffff].
Proof. vm_compute. reflexivity. Qed.

(** ** encoding/hex, from the Go standard library *)
Module hex.

Definition hextable : list byte :=
  list_ascii_of_string "0123456789abcdef".

Definition hexDigit (n : Z) : byte := nth (Z.to_nat n) hextable zero.

Fixpoint EncodeToString (src : list byte) : string :=
  match src with
  | [] => EmptyString
  | v :: r =>
      String (hexDigit (Z_of_byte v ≫ 4))
        (String (hexDigit (Z.land (Z_of_byte v) 0x0f)) (EncodeToString r))
  end.

Definition fromHexChar (c : byte) : option Z :=
  let n := Z_of_byte c in
  if (48 <=? n) && (n <=? 57) then Some (n - 48)
  else if (97 <=? n) && (n <=? 102) then Some (n - 97 + 10)
  else if (65 <=? n) && (n <=? 70) then Some (n - 65 + 10)
  else None.

Fixpoint DecodeString (s : string) : result (list byte) :=
  match s with
  | EmptyString => Ok []
  | String p EmptyString =>
      match fromHexChar p with
      | Some _ => Err "encoding/hex: odd length hex string"
      | None => Err "encoding/hex: invalid byte"
      end
  | String p (String q r) =>
      match fromHexChar p, fromHexChar q with
      | Some a, Some b =>
          match DecodeString r with
          | Ok tl => Ok (byte_of_Z (Z.lor (a ≪ 4) b) :: tl)
          | Err e => Err e
          end
      | _, _ => Err "encoding/hex: invalid byte"
      end
  end.

(** Beside its error, [DecodeString] returns the bytes it decoded before
    the error; callers that drop the error go on with them. *)
Fixpoint decodedPrefix (s : string) : list byte :=
  match s with
  | String p (String q r) =>
      match fromHexChar p, fromHexChar q with
      | Some a, Some b => byte_of_Z (Z.lor (a ≪ 4) b) :: decodedPrefix r
      | _, _ => []
      end
  | _ => []
  end.

Definition ErrLength : string := "encoding/hex: odd length hex string".

End hex.

(** ** package util, the functions that go through encoding/hex *)
Module util_hex.

(** [HashToHex(hash [32]byte) string] *)
Definition HashToHex (hash : list byte) : string :=
  hex.EncodeToString (util.ReverseBytes hash).

(** [HexToHash(s string) ([32]byte, error)] *)
Definition HexToHash (s : string) : result (list byte) :=
  match hex.DecodeString s with
  | Err e => Err e
  | Ok b =>
      if negb (length b =? 32)%nat then Err hex.ErrLength
      else Ok (util.ReverseBytes b)
  end.

End util_hex.

(** ** package types *)
Module types.

(** [ShareHeader]; the two [[32]byte] fields hold 32 bytes each. *)
Record ShareHeader := {
  Version : Z;
  PrevBlockHash : list byte;
  MerkleRoot : list byte;
  Timestamp : Z;
  Bits : Z;
  Nonce : Z
}.

(** [Share]; [ShareTarget] is a [*big.Int] and may be nil, [hash] is the
    unexported cache field [*[32]byte]. *)
Record Share := {
  Header : ShareHeader;
  ShareVersion : Z;
  PrevShareHash : list byte;
  ShareTarget : option Z;
  MinerAddress : string;
  CoinbaseTx : list byte;
  ShareChainNonce : Z;
  hash : option (list byte)
}.

Record PayoutEntry := {
  Address : string;
  Amount : Z
}.

(** [(h *ShareHeader) Serialize() []byte] *)
Definition Serialize (h : ShareHeader) : list byte :=
  binary.PutUint32 (uint32 (Version h))
  ++ PrevBlockHash h
  ++ MerkleRoot h
  ++ binary.PutUint32 (Timestamp h)
  ++ binary.PutUint32 (Bits h)
  ++ binary.PutUint32 (Nonce h).

(** Assignment to [s.Header] and to the cache field. *)
Definition set_Header (h : ShareHeader) (s : Share) : Share :=
  {| Header := h; ShareVersion := ShareVersion s;
     PrevShareHash := PrevShareHash s; ShareTarget := ShareTarget s;
     MinerAddress := MinerAddress s; CoinbaseTx := CoinbaseTx s;
     ShareChainNonce := ShareChainNonce s; hash := hash s |}.

Definition set_hash (c : option (list byte)) (s : Share) : Share :=
  {| Header := Header s; ShareVersion := ShareVersion s;
     PrevShareHash := PrevShareHash s; ShareTarget := ShareTarget s;
     MinerAddress := MinerAddress s; CoinbaseTx := CoinbaseTx s;
     ShareChainNonce := ShareChainNonce s; hash := c |}.

Section hashing.
Variable Sum256 : list byte -> list byte.

(** [(h *ShareHeader) Hash() [32]byte] *)
Definition ShareHeader_Hash (h : ShareHeader) : list byte :=
  util.DoubleSHA256 Sum256 (Serialize h).

(** [(s *Share) Hash() [32]byte]: the receiver is a pointer, so the call
    returns the hash together with the share as the call leaves it. *)
Definition Hash (s : Share) : list byte * Share :=
  match hash s with
  | Some cached => (cached, s)
  | None =>
      let h := ShareHeader_Hash (Header s) in
      (h, set_hash (Some h) s)
  end.

(** [(s *Share) MeetsTarget(target *big.Int) bool] *)
Definition MeetsTarget (s : Share) (target : Z) : bool * Share :=
  let '(hash, s') := Hash s in
  (util.HashMeetsTarget hash target, s').

(** [(s *Share) MeetsShareTarget() bool] *)
Definition MeetsShareTarget (s : Share) : bool * Share :=
  match ShareTarget s with
  | None => (false, s)
  | Some t => MeetsTarget s t
  end.

End hashing.

(** What the Go types say of a header: the two hashes are [[32]byte],
    [Version] is an [int32] and the other fields are [uint32]. *)
Definition headerInRange (h : ShareHeader) : Prop :=
  - 2 ^ 31 <= Version h < 2 ^ 31
  /\ length (PrevBlockHash h) = 32%nat
  /\ length (MerkleRoot h) = 32%nat
  /\ 0 <= Timestamp h < 2 ^ 32
  /\ 0 <= Bits h < 2 ^ 32
  /\ 0 <= Nonce h < 2 ^ 32.

(** What a client of the share does between two calls of [Hash]. *)
Inductive ShareOp :=
| CallHash
| AssignHeader (h : ShareHeader).

(** Run a client's operations on one share, in order, collecting what each
    call of [Hash] returned. *)
Fixpoint runOps (Sum256 : list byte -> list byte) (ops : list ShareOp) (s : Share) :
    list (list byte) * Share :=
  match ops with
  | [] => ([], s)
  | CallHash :: r =>
      let '(h, s1) := Hash Sum256 s in
      let '(hs, s2) := runOps Sum256 r s1 in
      (h :: hs, s2)
  | AssignHeader h :: r => runOps Sum256 r (set_Header h s)
  end.

End types.

(** ** package bitcoin *)
Module bitcoin.

(** [TemplateTransaction] *)
Record TemplateTransaction := {
  Data : string;
  TxID : string;
  Hash : string;
  Fee : Z;
  SigOps : Z;
  Weight : Z
}.

(** [BlockTemplate]; [CoinbaseAux] is a pointer to a struct with the one
    field [Flags]. *)
Record BlockTemplate := {
  Version : Z;
  PreviousBlockHash : string;
  Transactions : list TemplateTransaction;
  CoinbaseAux : option string;
  CoinbaseValue : Z;
  Target : string;
  MinTime : Z;
  Mutable : list string;
  NonceRange : string;
  SigOpLimit : Z;
  SizeLimit : Z;
  WeightLimit : Z;
  CurTime : Z;
  Bits : string;
  Height : Z;
  DefaultWitnessCommitment : string
}.

End bitcoin.

(** ** package work *)
Module work.

Section merkle.
Variable Sum256 : list byte -> list byte.

Local Abbreviation DoubleSHA256 := (util.DoubleSHA256 Sum256).

(** The decoding loop at the head of [ComputeMerkleBranches]; the error
    names the first index whose hex is invalid. *)
Fixpoint decodeHashes (i : nat) (txHashes : list string) : result (list (list byte)) :=
  match txHashes with
  | [] => Ok []
  | h :: r =>
      match hex.DecodeString h with
      | Err e => Err ("invalid tx hash at index " +:+ pretty i +:+ ": " +:+ e)
      | Ok b =>
          match decodeHashes (S i) r with
          | Ok tl => Ok (b :: tl)
          | Err e => Err e
          end
      end
  end.

(** The inner loop of [ComputeMerkleBranches] over [remaining], two at a
    time, the last element paired with itself when the count is odd. *)
Fixpoint pairRemaining (remaining : list (list byte)) : list (list byte) :=
  match remaining with
  | [] => []
  | [l] => [DoubleSHA256 (l ++ l)]
  | l :: r :: rest => DoubleSHA256 (l ++ r) :: pairRemaining rest
  end.

Lemma pairRemaining_length (l : list (list byte)) :
  (length (pairRemaining l) <= length l)%nat.
Proof.
  induction l as [l IH] using (induction_ltof1 _ (@length _)). unfold ltof in IH.
  destruct l as [|a [|b r]]; simpl; try lia.
  specialize (IH r). simpl in IH. lia.
Qed.

(** The outer loop [for len(hashes) > 0] of [ComputeMerkleBranches]. *)
Equations? branchLoop (hashes : list (list byte)) (branches : list string) :
  list string by wf (length hashes) lt :=
  branchLoop [] branches := branches;
  branchLoop [h] branches := branches ++ [hex.EncodeToString h];
  branchLoop (h :: remaining) branches :=
    branchLoop (pairRemaining remaining) (branches ++ [hex.EncodeToString h]).
Proof.
  change (length (pairRemaining remaining) < S (S (length l1)))%nat.
  pose proof (pairRemaining_length remaining) as Hlen.
  subst remaining. cbn [length] in Hlen. lia.
Qed.

(** [ComputeMerkleBranches(txHashes []string) ([]string, error)] *)
Definition ComputeMerkleBranches (txHashes : list string) : result (list string) :=
  if (length txHashes =? 0)%nat then Ok [] else
  match decodeHashes 0 txHashes with
  | Err e => Err e
  | Ok hashes => Ok (branchLoop hashes [])
  end.

(** [ComputeMerkleRoot(coinbaseHash []byte, branches []string) ([]byte, error)] *)
Fixpoint merkleFold (current : list byte) (branches : list string) : result (list byte) :=
  match branches with
  | [] => Ok current
  | branch :: r =>
      match hex.DecodeString branch with
      | Err e => Err ("invalid branch hash: " +:+ e)
      | Ok branchBytes => merkleFold (DoubleSHA256 (current ++ branchBytes)) r
      end
  end.

Definition ComputeMerkleRoot (coinbaseHash : list byte) (branches : list string) :
  result (list byte) :=
  merkleFold coinbaseHash branches.

(** One level of [ComputeFullMerkleRoot]: the last hash is appended once
    more when the count is odd, then neighbours are hashed together.  The
    read of [hashes[i+1]] is in range because the count is even by then; the
    one-element case of [pairLevel] is never reached through [nextLevel]. *)
Definition dupLast (hashes : list (list byte)) : list (list byte) :=
  if Nat.even (length hashes) then hashes
  else hashes ++ [List.last hashes []].

Fixpoint pairLevel (hashes : list (list byte)) : list (list byte) :=
  match hashes with
  | a :: b :: rest => DoubleSHA256 (a ++ b) :: pairLevel rest
  | _ => []
  end.

Definition nextLevel (hashes : list (list byte)) : list (list byte) :=
  pairLevel (dupLast hashes).

Lemma pairLevel_length (l : list (list byte)) :
  (2 * length (pairLevel l) <= length l)%nat.
Proof.
  induction l as [l IH] using (induction_ltof1 _ (@length _)). unfold ltof in IH.
  destruct l as [|a [|b r]]; simpl; try lia.
  specialize (IH r). simpl in IH. lia.
Qed.

Lemma nextLevel_length (a b : list byte) (r : list (list byte)) :
  (length (nextLevel (a :: b :: r)) < length (a :: b :: r))%nat.
Proof.
  unfold nextLevel, dupLast.
  pose proof (pairLevel_length (a :: b :: r)).
  pose proof (pairLevel_length ((a :: b :: r) ++ [List.last (a :: b :: r) []])).
  rewrite length_app in *. cbn [length] in *.
  destruct (Nat.even _); lia.
Qed.

(** The loop [for len(hashes) > 1] of [ComputeFullMerkleRoot]. *)
Equations? fullLoop (hashes : list (list byte)) : list byte
  by wf (length hashes) lt :=
  fullLoop [] := [];
  fullLoop [h] := h;
  fullLoop (a :: b :: r) := fullLoop (nextLevel (a :: b :: r)).
Proof.
  apply nextLevel_length.
Qed.

(** [ComputeFullMerkleRoot(txids [][]byte) []byte]; a nil result is the
    empty list. *)
Definition ComputeFullMerkleRoot (txids : list (list byte)) : list byte :=
  if (length txids =? 0)%nat then [] else fullLoop txids.

End merkle.

(** *** Jobs: template.go and generator.go *)

(** The errors of the package, one constructor per format string, with the
    arguments the format is given; [%w] wraps the text of a library error
    or another error of the package. *)
Inductive Error :=
| InvalidHexQ (hexStr err : string)            (* "invalid hex %q: %w" *)
| ExpectedBytes (expected got : Z)             (* "expected %d bytes, got %d" *)
| InvalidHex (err : string)                    (* "invalid hex: %w" *)
| DecodeCoinbaseHex (err : string)             (* "decode coinbase hex: %w" *)
| ComputeMerkleRootFailed (err : string)       (* "compute merkle root: %w" *)
| DecodeVersion (e : Error)                    (* "decode version: %w" *)
| DecodePrevhash (e : Error)                   (* "decode prevhash: %w" *)
| DecodeNtime (e : Error)                      (* "decode ntime: %w" *)
| DecodeNbits (e : Error)                      (* "decode nbits: %w" *)
| DecodeNonce (e : Error)                      (* "decode nonce: %w" *)
| DecodeTemplateTx (txid err : string)         (* "decode template tx %s: %w" *)
| HeaderTooShort (n : Z)                       (* "header too short: %d bytes" *)
| InvalidTxid (i : Z) (err : string)           (* "invalid txid at index %d: %w" *)
| MerkleRootMismatch (header expected coinbase_txid : string) (tx_count : Z).

Inductive outcome (A : Type) : Type :=
| Good (a : A)
| Bad (e : Error).
Arguments Good {A} a.
Arguments Bad {A} e.

(** [SplitCoinbase(coinbaseTx []byte, extranonceOffset int, extranonceSize int)
    (string, string)].  A Go slice is its elements together with the spare
    capacity of its backing array: [coinbaseTx[:extranonceOffset]] may reach
    into [spare], [coinbaseTx[lo:]] may not.  A slice expression out of
    range panics: [None]. *)
Definition SplitCoinbase (coinbaseTx spare : list byte)
    (extranonceOffset extranonceSize : Z) : option (string * string) :=
  let lo := int64 (extranonceOffset + extranonceSize) in
  if (0 <=? extranonceOffset)
     && (extranonceOffset <=? Z.of_nat (length (coinbaseTx ++ spare)))
     && (0 <=? lo) && (lo <=? Z.of_nat (length coinbaseTx))
  then
    let coinbase1 :=
      hex.EncodeToString (take (Z.to_nat extranonceOffset) (coinbaseTx ++ spare)) in
    let coinbase2 := hex.EncodeToString (drop (Z.to_nat lo) coinbaseTx) in
    Some (coinbase1, coinbase2)
  else None.

(** [hexBEToLE(hexStr string, expectedLen int) ([]byte, error)] *)
Definition hexBEToLE (hexStr : string) (expectedLen : Z) : outcome (list byte) :=
  match hex.DecodeString hexStr with
  | Err err => Bad (InvalidHexQ hexStr err)
  | Ok b =>
      if negb (Z.of_nat (length b) =? expectedLen)
      then Bad (ExpectedBytes expectedLen (Z.of_nat (length b)))
      else Good (util.ReverseBytes b)
  end.

(** [swapWords4(b []byte)], in place: what [b] holds afterwards. *)
Fixpoint swapWords4 (b : list byte) : list byte :=
  match b with
  | b0 :: b1 :: b2 :: b3 :: r => b3 :: b2 :: b1 :: b0 :: swapWords4 r
  | _ => b
  end.

(** [displayToStratumPrevHash(displayHex string) (string, error)] *)
Definition displayToStratumPrevHash (displayHex : string) : outcome string :=
  match hex.DecodeString displayHex with
  | Err err => Bad (InvalidHex err)
  | Ok b =>
      if negb (length b =? 32)%nat then Bad (ExpectedBytes 32 (Z.of_nat (length b)))
      else
        let internal := util.ReverseBytes b in
        let internal := swapWords4 internal in
        Good (hex.EncodeToString internal)
  end.

(** [stratumPrevHashToInternal(stratumHex string) ([]byte, error)] *)
Definition stratumPrevHashToInternal (stratumHex : string) : outcome (list byte) :=
  match hex.DecodeString stratumHex with
  | Err err => Bad (InvalidHex err)
  | Ok b =>
      if negb (length b =? 32)%nat then Bad (ExpectedBytes 32 (Z.of_nat (length b)))
      else Good (swapWords4 b)
  end.

(** [JobData]; [Template] is a pointer. *)
Record JobData := {
  ID : string;
  Seq : Z;
  PrevBlockHash : string;
  Coinbase1 : string;
  Coinbase2 : string;
  CoinbaseTx : list byte;
  ExtranonceOffset : Z;
  MerkleBranches : list string;
  Version : string;
  NBits : string;
  NTime : string;
  Height : Z;
  CleanJobs : bool;
  Template : option bitcoin.BlockTemplate
}.

(** [copy(dst[lo:hi], src)] on a buffer [dst] of [hi] bytes or more: the
    number of bytes copied is the smaller of the two lengths. *)
Definition copyAt (dst : list byte) (lo hi : nat) (src : list byte) : list byte :=
  let n := Nat.min (hi - lo) (length src) in
  take lo dst ++ take n src ++ drop (lo + n) dst.

(** The decoding loop of [VerifyMerkleRoot]: the txids of the template in
    internal byte order, or the first index whose hex is invalid. *)
Fixpoint decodeTxIDs (i : nat) (txs : list bitcoin.TemplateTransaction) :
    outcome (list (list byte)) :=
  match txs with
  | [] => Good []
  | tx :: r =>
      match hex.DecodeString (bitcoin.TxID tx) with
      | Err err => Bad (InvalidTxid (Z.of_nat i) err)
      | Ok b =>
          match decodeTxIDs (S i) r with
          | Good tl => Good (util.ReverseBytes b :: tl)
          | Bad e => Bad e
          end
      end
  end.

(** The loop of [ReconstructBlock] over the template transactions: their
    bytes, written one after the other. *)
Fixpoint decodeTxData (txs : list bitcoin.TemplateTransaction) : outcome (list byte) :=
  match txs with
  | [] => Good []
  | tx :: r =>
      match hex.DecodeString (bitcoin.Data tx) with
      | Err err => Bad (DecodeTemplateTx (bitcoin.TxID tx) err)
      | Ok txBytes =>
          match decodeTxData r with
          | Good tl => Good (txBytes ++ tl)
          | Bad e => Bad e
          end
      end
  end.

(** [extractTxHashes(tmpl *bitcoin.BlockTemplate) []string]; the error of
    [hex.DecodeString] is dropped. *)
Definition extractTxHashes (tmpl : bitcoin.BlockTemplate) : list string :=
  map (fun tx => hex.EncodeToString (util.ReverseBytes (hex.decodedPrefix (bitcoin.TxID tx))))
      (bitcoin.Transactions tmpl).

Section job.
Variable Sum256 : list byte -> list byte.
(** [types.AddCoinbaseWitness], outside this file set. *)
Variable AddCoinbaseWitness : list byte -> list byte.

(** [ReconstructHeader(job *JobData, version, extranonce1, extranonce2, ntime,
    nonce string) ([]byte, []byte, error)] *)
Definition ReconstructHeader (job : JobData)
    (version extranonce1 extranonce2 ntime nonce : string) :
    outcome (list byte * list byte) :=
  let coinbaseHex := Coinbase1 job +:+ extranonce1 +:+ extranonce2 +:+ Coinbase2 job in
  match hex.DecodeString coinbaseHex with
  | Err err => Bad (DecodeCoinbaseHex err)
  | Ok coinbaseBytes =>
  let coinbaseHash := util.DoubleSHA256 Sum256 coinbaseBytes in
  match ComputeMerkleRoot Sum256 coinbaseHash (MerkleBranches job) with
  | Err err => Bad (ComputeMerkleRootFailed err)
  | Ok merkleRoot =>
  match hexBEToLE version 4 with
  | Bad e => Bad (DecodeVersion e)
  | Good versionBytes =>
  match stratumPrevHashToInternal (PrevBlockHash job) with
  | Bad e => Bad (DecodePrevhash e)
  | Good prevHashBytes =>
  match hexBEToLE ntime 4 with
  | Bad e => Bad (DecodeNtime e)
  | Good ntimeBytes =>
  match hexBEToLE (NBits job) 4 with
  | Bad e => Bad (DecodeNbits e)
  | Good nbitsBytes =>
  match hexBEToLE nonce 4 with
  | Bad e => Bad (DecodeNonce e)
  | Good nonceBytes =>
      let header := replicate 80 zero in
      let header := copyAt header 0 4 versionBytes in
      let header := copyAt header 4 36 prevHashBytes in
      let header := copyAt header 36 68 merkleRoot in
      let header := copyAt header 68 72 ntimeBytes in
      let header := copyAt header 72 76 nbitsBytes in
      let header := copyAt header 76 80 nonceBytes in
      Good (header, coinbaseBytes)
  end end end end end end end.

(** [ReconstructBlock(header []byte, coinbase []byte, tmpl *bitcoin.BlockTemplate)
    (string, error)] *)
Definition ReconstructBlock (header coinbase : list byte) (tmpl : bitcoin.BlockTemplate) :
    outcome string :=
  let txCount := 1 + Z.of_nat (length (bitcoin.Transactions tmpl)) in
  let witnessCoinbase := AddCoinbaseWitness coinbase in
  match decodeTxData (bitcoin.Transactions tmpl) with
  | Bad e => Bad e
  | Good txs =>
      Good (hex.EncodeToString
              (header ++ util.WriteVarInt (uint64 txCount) ++ witnessCoinbase ++ txs))
  end.

(** [VerifyMerkleRoot(header []byte, coinbase []byte, tmpl *bitcoin.BlockTemplate)
    error]; [None] is a nil error. *)
Definition VerifyMerkleRoot (header coinbase : list byte) (tmpl : bitcoin.BlockTemplate) :
    option Error :=
  if (length header <? 68)%nat then Some (HeaderTooShort (Z.of_nat (length header))) else
  let headerMerkleRoot := slice header 36 68 in
  let cbHash := util.DoubleSHA256 Sum256 coinbase in
  match decodeTxIDs 0 (bitcoin.Transactions tmpl) with
  | Bad e => Some e
  | Good rest =>
      let txids := cbHash :: rest in
      let expectedRoot := ComputeFullMerkleRoot Sum256 txids in
      if negb (bool_decide (headerMerkleRoot = expectedRoot)) then
        Some (MerkleRootMismatch (hex.EncodeToString headerMerkleRoot)
                (hex.EncodeToString expectedRoot) (hex.EncodeToString cbHash)
                (Z.of_nat (length (bitcoin.Transactions tmpl))))
      else None
  end.

End job.

(** [time.Duration] values are nanoseconds. *)
Definition Second : Z := 10 ^ 9.
Definition PollInterval : Z := 5 * Second.
Definition maxStoredJobs : nat := 20.

(** The loop [for i := 1; i < failures; i++] of [backoffDuration], with
    [n] iterations left. *)
Fixpoint backoffLoop (n : nat) (d : Z) : Z :=
  match n with
  | O => d
  | S n' =>
      let d := int64 (d * 2) in
      if 60 * Second <? d then 60 * Second else backoffLoop n' d
  end.

(** [backoffDuration(failures int) time.Duration] *)
Definition backoffDuration (failures : Z) : Z :=
  if failures <=? 0 then PollInterval
  else backoffLoop (Z.to_nat (failures - 1)) PollInterval.

Section jobs.
(** The order in which [range] walks a map is not specified; [order] is
    the order of one walk, some arrangement of the entries of the map. *)
Variable order : gmap string JobData -> list (string * JobData).

(** The scan for the entry to evict: [oldestID] and [oldestSeq]. *)
Definition oldestStep (st : string * Z) (e : string * JobData) : string * Z :=
  let '(oldestID, oldestSeq) := st in
  let '(id, j) := e in
  if String.eqb oldestID "" || (Seq j <? oldestSeq) then (id, Seq j)
  else (oldestID, oldestSeq).

Definition oldestScan (jobs : gmap string JobData) : string :=
  fst (foldl oldestStep ("", 0) (order jobs)).

(** The loop [for len(g.jobs) > maxStoredJobs], with [fuel] bounding the
    number of evictions. *)
Fixpoint evictLoop (fuel : nat) (jobs : gmap string JobData) : gmap string JobData :=
  match fuel with
  | O => jobs
  | S fuel' =>
      if (maxStoredJobs <? size jobs)%nat
      then evictLoop fuel' (delete (oldestScan jobs) jobs)
      else jobs
  end.

(** [(g *Generator) storeJob(job *JobData)]: the map [g.jobs] afterwards.
    Every turn of the loop removes an entry, so the size of the map is
    fuel enough. *)
Definition storeJob (jobs : gmap string JobData) (job : JobData) : gmap string JobData :=
  let jobs := <[ID job := job]> jobs in
  evictLoop (size jobs) jobs.

(** [(g *Generator) GetJob(id string) *JobData]; nil is [None]. *)
Definition GetJob (jobs : gmap string JobData) (id : string) : option JobData :=
  jobs !! id.

End jobs.

End work.

(** ** package pplns *)
Module pplns.
Import types.

(** [Window]; [maxTarget] is the [*big.Int] handed to [NewWindow]. *)
Record Window := {
  shares : list Share;
  maxTarget : Z
}.

Definition NewWindow (shares : list Share) (maxTarget : Z) : Window :=
  {| shares := shares; maxTarget := maxTarget |}.

(** [(w *Window) ShareWeight(share *types.Share) *big.Int] *)
Definition ShareWeight (w : Window) (share : Share) : Z :=
  match ShareTarget share with
  | None => 1
  | Some t => if t =? 0 then 1 else util.big_Div (maxTarget w) t
  end.

(** [(w *Window) MinerWeights() map[string]*big.Int]; [weightStep] is the
    body of its loop. *)
Definition weightStep (w : Window) (weights : gmap string Z) (share : Share) :
    gmap string Z :=
  let weight := ShareWeight w share in
  let addr := MinerAddress share in
  match weights !! addr with
  | Some existing => <[addr := existing + weight]> weights
  | None => <[addr := weight]> weights
  end.

Definition MinerWeights (w : Window) : gmap string Z :=
  foldl (weightStep w) ∅ (shares w).

(** [(w *Window) TotalWeight() *big.Int] *)
Definition TotalWeight (w : Window) : Z :=
  foldl (fun total share => total + ShareWeight w share) 0 (shares w).

Definition ShareCount (w : Window) : nat := length (shares w).

Definition DefaultMaxTarget : Z := util.CompactToTarget 0x207fffff.

(** [Calculator].  The Go field [finderFeePercent] is a [float64] whose only
    use is the expression
    [int64(float64(totalReward) * c.finderFeePercent / 100.0)];
    [finderFeeOf] is that expression as a function of [totalReward]. *)
Record Calculator := {
  finderFeeOf : Z -> Z;
  dustThresholdSats : Z
}.

(** [sort.Strings]: ascending byte-wise order. *)
Definition string_le (a b : string) : Prop := String.leb a b = true.
#[global] Instance string_le_dec a b : Decision (string_le a b).
Proof. unfold string_le. apply _. Defined.

Definition sortStrings (l : list string) : list string := merge_sort string_le l.

(** [payouts[addr] += v] on a [map[string]int64]: a missing key reads as 0. *)
Definition addTo (payouts : gmap string Z) (addr : string) (v : Z) : gmap string Z :=
  <[addr := int64 (default 0 (payouts !! addr) + v)]> payouts.

(** [(x *big.Int) IsInt64() bool] *)
Definition IsInt64 (x : Z) : bool := (MinInt64 <=? x) && (x <=? MaxInt64).

(** The loop over [addresses] that fills [payouts] and [distributed]. *)
Definition proportionalStep (distributableReward totalWeight : Z)
    (minerWeights : gmap string Z) (st : gmap string Z * Z) (addr : string) :
    gmap string Z * Z :=
  let '(payouts, distributed) := st in
  let weight := default 0 (minerWeights !! addr) in
  let payout := distributableReward * weight in
  let payout := util.big_Div payout totalWeight in
  let payout := if IsInt64 payout then payout else distributableReward in
  let amount := payout in
  if 0 <? amount then (<[addr := amount]> payouts, int64 (distributed + amount))
  else (payouts, distributed).

(** The scan [for addr, amount := range payouts] that collects the dust
    entries: their running total and their addresses. *)
Definition dustStep (dustThreshold : Z) (finderAddress : string)
    (st : Z * list string) (e : string * Z) : Z * list string :=
  let '(dustTotal, dustAddresses) := st in
  let '(addr, amount) := e in
  if (amount <? dustThreshold) && negb (String.eqb addr finderAddress)
  then (int64 (dustTotal + amount), dustAddresses ++ [addr])
  else (dustTotal, dustAddresses).

Definition dustScan (c : Calculator) (payouts : gmap string Z) (finderAddress : string) :
    Z * list string :=
  foldl (dustStep (dustThresholdSats c) finderAddress) (0, []) (map_to_list payouts).

(** Lines 161-190 of [CalculatePayouts]: dust consolidation. *)
Definition consolidateDust (c : Calculator) (addresses : list string)
    (finderAddress : string) (payouts : gmap string Z) : gmap string Z :=
  let '(dustTotal, dustAddresses) := dustScan c payouts finderAddress in
  if (length dustAddresses <? size payouts)%nat then
    let payouts := foldl (fun m addr => delete addr m) payouts dustAddresses in
    if 0 <? dustTotal then
      if negb (String.eqb finderAddress "") then addTo payouts finderAddress dustTotal
      else
        match List.find (fun addr => bool_decide (is_Some (payouts !! addr))) addresses with
        | Some addr => addTo payouts addr dustTotal
        | None => payouts
        end
    else payouts
  else payouts.

(** The comparison handed to [sort.Slice]. *)
Definition payoutLess (x y : PayoutEntry) : bool :=
  if negb (Amount x =? Amount y) then Amount y <? Amount x
  else String.ltb (Address x) (Address y).

Definition payoutOrder (x y : PayoutEntry) : Prop := payoutLess y x = false.
#[global] Instance payoutOrder_dec x y : Decision (payoutOrder x y).
Proof. unfold payoutOrder. apply _. Defined.

Definition sortedResult (payouts : gmap string Z) : list PayoutEntry :=
  merge_sort payoutOrder
    (map (fun e : string * Z => {| Address := e.1; Amount := e.2 |}) (map_to_list payouts)).

(** Lines 104-159 of [CalculatePayouts]: the payouts map as it stands before
    dust consolidation, together with the sorted [addresses]. *)
Definition payoutsBeforeDust (c : Calculator) (window : Window) (totalReward : Z)
    (finderAddress : string) : gmap string Z * list string :=
  let finderFee := finderFeeOf c totalReward in
  let distributableReward := int64 (totalReward - finderFee) in
  let minerWeights := MinerWeights window in
  let totalWeight := TotalWeight window in
  let addresses := sortStrings (map_to_list minerWeights).*1 in
  let '(payouts, distributed) :=
    foldl (proportionalStep distributableReward totalWeight minerWeights) (∅, 0) addresses in
  let '(payouts, distributed) :=
    if negb (String.eqb finderAddress "") && (0 <? finderFee)
    then (addTo payouts finderAddress finderFee, int64 (distributed + finderFee))
    else (payouts, distributed) in
  let remainder := int64 (totalReward - distributed) in
  let payouts :=
    if 0 <? remainder then
      if negb (String.eqb finderAddress "") then addTo payouts finderAddress remainder
      else
        match addresses with
        | a0 :: _ => addTo payouts a0 remainder
        | [] => payouts
        end
    else payouts in
  (payouts, addresses).

(** [(c *Calculator) CalculatePayouts(window, totalReward, finderAddress)];
    a nil result is the empty list. *)
Definition CalculatePayouts (c : Calculator) (window : Window) (totalReward : Z)
    (finderAddress : string) : list PayoutEntry :=
  if (ShareCount window =? 0)%nat || (totalReward <=? 0) then [] else
  if TotalWeight window =? 0 then [] else
  let '(payouts, addresses) := payoutsBeforeDust c window totalReward finderAddress in
  let payouts := consolidateDust c addresses finderAddress payouts in
  sortedResult payouts.

Definition totalAmount (l : list PayoutEntry) : Z :=
  foldr Z.add 0 (map Amount l).

(** The sum of the amounts a payouts map holds. *)
Definition mapTotal (m : gmap string Z) : Z :=
  map_fold (fun _ v acc => v + acc) 0 m.

(** The words of the specification for dust consolidation: an entry is dust
    when its amount is below the threshold and its address is not the
    finder; the sum of the dust goes to the finder, or without a finder to
    the first address of the sorted list that is still paid. *)
Definition isDust (c : Calculator) (finderAddress : string) (e : string * Z) : Prop :=
  e.2 < dustThresholdSats c /\ e.1 <> finderAddress.
#[global] Instance isDust_dec c finderAddress e : Decision (isDust c finderAddress e).
Proof. unfold isDust. apply _. Defined.

Definition dustOf (c : Calculator) (finderAddress : string) (payouts : gmap string Z) :
    gmap string Z :=
  filter (isDust c finderAddress) payouts.

Definition keptOf (c : Calculator) (finderAddress : string) (payouts : gmap string Z) :
    gmap string Z :=
  filter (fun e => ~ isDust c finderAddress e) payouts.

Definition dustRecipient (addresses : list string) (finderAddress : string)
    (kept : gmap string Z) : option string :=
  if decide (finderAddress = "") then
    List.find (fun addr => bool_decide (is_Some (kept !! addr))) addresses
  else Some finderAddress.

Definition consolidated (c : Calculator) (addresses : list string) (finderAddress : string)
    (payouts : gmap string Z) : gmap string Z :=
  let dust := dustOf c finderAddress payouts in
  let kept := keptOf c finderAddress payouts in
  if decide (size dust < size payouts)%nat then
    match dustRecipient addresses finderAddress kept with
    | Some r =>
        if decide (dust = ∅) then kept
        else <[r := default 0 (kept !! r) + mapTotal dust]> kept
    | None => kept
    end
  else payouts.

(** The conditions under which the payout theorems are stated: a finder fee
    between 0 and the reward (a fee percentage between 0 and 100), no
    negative target, hence no negative share weight; and, of a payouts map,
    that every amount in it is positive. *)
Definition feeInRange (c : Calculator) (totalReward : Z) : Prop :=
  0 <= finderFeeOf c totalReward <= totalReward.

Definition targetsNonneg (w : Window) : Prop :=
  0 <= maxTarget w
  /\ Forall (fun s => forall t, ShareTarget s = Some t -> 0 <= t) (shares w).

Definition weightsNonneg (w : Window) : Prop :=
  Forall (fun s => 0 <= ShareWeight w s) (shares w).

Definition positive (m : gmap string Z) : Prop :=
  forall a v, m !! a = Some v -> 0 < v.

End pplns.

(** The tests of the package, run on the embedding. *)
Module pplns_tests.
Import types pplns.

Definition easyTarget : Z := 2 ^ 256 - 1.
Definition makeShare (addr : string) (target : Z) : Share :=
  {| Header := {| Version := 0; PrevBlockHash := []; MerkleRoot := [];
                  Timestamp := 0; Bits := 0; Nonce := 0 |};
     ShareVersion := 0; PrevShareHash := []; ShareTarget := Some target;
     MinerAddress := addr; CoinbaseTx := []; ShareChainNonce := 0; hash := None |}.

Definition noFee (dust : Z) : Calculator :=
  {| finderFeeOf := fun _ => 0; dustThresholdSats := dust |}.

Example TestCalculatePayouts_EqualShares :
  CalculatePayouts (noFee 546)
    (NewWindow [makeShare "miner1" (easyTarget / 2); makeShare "miner2" (easyTarget / 2);
                makeShare "miner1" (easyTarget / 2); makeShare "miner2" (easyTarget / 2)]
       easyTarget) 1000000 "miner1"
  = [ {| Address := "miner1"; Amount := 500000 |};
      {| Address := "miner2"; Amount := 500000 |} ].
Proof. vm_compute. reflexivity. Qed.

Example TestCalculatePayouts_DustConsolidation :
  CalculatePayouts (noFee 546)
    (NewWindow (replicate 999 (makeShare "bigminer" easyTarget)
                ++ [makeShare "tinyminer" easyTarget]) easyTarget) 1000 "bigminer"
  = [ {| Address := "bigminer"; Amount := 1000 |} ].
Proof. vm_compute. reflexivity. Qed.

(** A fee of 0.5 percent: on the rewards of the tests the float expression
    is exact and equals [totalReward / 200]. *)
Definition halfPercent (dust : Z) : Calculator :=
  {| finderFeeOf := fun totalReward => totalReward / 200; dustThresholdSats := dust |}.

Example TestCalculatePayouts_WithFinderFee :
  CalculatePayouts (halfPercent 546)
    (NewWindow [makeShare "miner1" easyTarget; makeShare "miner2" easyTarget] easyTarget)
    5000000000 "miner1"
  = [ {| Address := "miner1"; Amount := 2512500000 |};
      {| Address := "miner2"; Amount := 2487500000 |} ].
Proof. vm_compute. reflexivity. Qed.

Example TestCalculatePayouts_Empty :
  CalculatePayouts (halfPercent 546) (NewWindow [] easyTarget) 1000000 "miner1" = [].
Proof. reflexivity. Qed.

Example TestCalculatePayouts_SingleMiner :
  CalculatePayouts (halfPercent 546)
    (NewWindow [makeShare "solo" easyTarget; makeShare "solo" easyTarget;
                makeShare "solo" easyTarget] easyTarget)
    5000000000 "solo"
  = [ {| Address := "solo"; Amount := 5000000000 |} ].
Proof. vm_compute. reflexivity. Qed.

End pplns_tests.

(** ** package sharechain *)
Module sharechain.
Import types.

Definition DifficultyAdjustmentWindow : nat := 72.
Definition minShareTargetBits : Z := 0x1d00ffff.
Definition maxShareTargetBits : Z := 0x207fffff.
Definition MinShareTarget : Z := util.CompactToTarget minShareTargetBits.
Definition MaxShareTarget : Z := util.CompactToTarget maxShareTargetBits.

(** [DifficultyCalculator].  [targetTime] is a [time.Duration] whose only use
    is [int64(dc.targetTime.Seconds())]; [targetTimeSeconds] is that value. *)
Record DifficultyCalculator := {
  targetTimeSeconds : Z
}.

(** The trimming loop of [NextTarget], from index 1 on: the shares kept
    after the newest one. *)
Fixpoint comparableShares (upper lower : Z) (rest : list Share) : list Share :=
  match rest with
  | [] => []
  | s :: r =>
      match ShareTarget s with
      | None => []
      | Some st =>
          if (st =? 0) || (upper <? st) || (st <? lower) then []
          else s :: comparableShares upper lower r
      end
  end.

(** [(dc *DifficultyCalculator) NextTarget(shares []*types.Share) *big.Int] *)
Definition NextTarget (dc : DifficultyCalculator) (shares : list Share) : Z :=
  if (length shares <? 2)%nat then MaxShareTarget else
  let window :=
    if (DifficultyAdjustmentWindow <? length shares)%nat
    then take DifficultyAdjustmentWindow shares else shares in
  match window with
  | [] => MaxShareTarget
  | newest :: rest =>
      match ShareTarget newest with
      | None => MaxShareTarget
      | Some currentTarget =>
          if currentTarget =? 0 then MaxShareTarget else
          let upper := currentTarget * 4 in
          let lower := util.big_Div currentTarget 4 in
          let window := newest :: comparableShares upper lower rest in
          if (length window <? 2)%nat
          then util.CompactToTarget (util.TargetToCompact currentTarget)
          else
            let oldest := List.last window newest in
            let actualTime :=
              int64 (Timestamp (Header newest)) - int64 (Timestamp (Header oldest)) in
            let actualTime := if actualTime <=? 0 then 1 else actualTime in
            let expectedTime :=
              int64 (targetTimeSeconds dc * int64 (Z.of_nat (length window) - 1)) in
            let expectedTime := if expectedTime <=? 0 then 1 else expectedTime in
            let newTarget := currentTarget * actualTime in
            let newTarget := util.big_Div newTarget expectedTime in
            let maxAdjust := currentTarget * 4 in
            let minAdjust := util.big_Div currentTarget 4 in
            let newTarget := if maxAdjust <? newTarget then maxAdjust else newTarget in
            let newTarget := if newTarget <? minAdjust then minAdjust else newTarget in
            let newTarget := if MaxShareTarget <? newTarget then MaxShareTarget else newTarget in
            util.CompactToTarget (util.TargetToCompact newTarget)
      end
  end.

(** *** validation.go *)

Definition MaxTimeFuture : Z := 2 * 60 * 10 ^ 9.
Definition MaxTimePast : Z := 10 * 60 * 10 ^ 9.
Definition maxCoinbaseTxSize : Z := 100 * 1024.
Definition maxMinerAddressLen : Z := 128.

(** [len] of a slice and of a string. *)
Definition len {A} (l : list A) : Z := Z.of_nat (length l).
Definition strlen (s : string) : Z := Z.of_nat (String.length s).

(** [ValidationError]: one constructor per [Reason] format string of
    [ValidateShare], in the order the function can return them. *)
Inductive ValidationError :=
| UnsupportedShareVersion (v : Z)
| MinerAddressTooLong (n : Z)
| CoinbaseTxTooLarge (n : Z)
| MissingMinerAddress
| InvalidMinerAddress (err : string)
| ParentShareNotFound (prefix : list byte)
| TimestampTooFarInFuture (shareTime : Z)
| TimestampTooFarBehindParent
| TargetNotMet
| ShareTargetMismatch (declaredBits expectedBits : Z)
| CommitmentExtractionFailed (err : string)
| CommitmentMismatch (committed prev : list byte)
| OutputParsingFailed (err : string)
| MinerNotInOutputs (err : string)
| MissingCoinbaseTx.

(** What a call of [ValidateShare] does: return nil, return a
    [*ValidationError], or dereference a nil [*big.Int] ([ShareTarget] is
    read by [util.TargetToCompact] without a nil check). *)
Inductive Verdict :=
| Accepted
| Rejected (e : ValidationError)
| NilDereference.

(** [time.Unix(sec, 0)] and the other [time.Time] values, in nanoseconds. *)
Definition Unix (sec : Z) : Z := sec * 10 ^ 9.

(** [(s *Share) Time() time.Time] *)
Definition Share_Time (s : Share) : Z := Unix (int64 (Timestamp (Header s))).

Definition zeroHash : list byte := replicate 32 zero.

Section validation.
Variable Sum256 : list byte -> list byte.

(** The collaborators of the validator that live outside this file set:
    the share store, the retargeting callback, the clock, and the coinbase
    helpers of package [types]. *)
Variable Outputs : Type.
Variable store_Has : list byte -> bool.
Variable store_Get : list byte -> option Share.
Variable targetFunc : list byte -> Z.
Variable network : string.
Variable now : Z.
Variable ValidateAddress : string -> string -> option string.
Variable ExtractShareCommitment : list byte -> result (list byte).
Variable ParseCoinbaseOutputs : list byte -> result Outputs.
Variable ValidateMinerInOutputs : Outputs -> string -> string -> option string.

Definition hashEq (a b : list byte) : bool := bool_decide (a = b).

(** [(v *Validator) ValidateShare(share *types.Share) error] *)
Definition ValidateShare (share : Share) : Verdict :=
  if negb (ShareVersion share =? 1) then
    Rejected (UnsupportedShareVersion (ShareVersion share))
  else if maxMinerAddressLen <? strlen (MinerAddress share) then
    Rejected (MinerAddressTooLong (strlen (MinerAddress share)))
  else if maxCoinbaseTxSize <? len (CoinbaseTx share) then
    Rejected (CoinbaseTxTooLarge (len (CoinbaseTx share)))
  else if String.eqb (MinerAddress share) "" then
    Rejected MissingMinerAddress
  else
  match ValidateAddress (MinerAddress share) network with
  | Some err => Rejected (InvalidMinerAddress err)
  | None =>
  if negb (hashEq (PrevShareHash share) zeroHash) && negb (store_Has (PrevShareHash share))
  then Rejected (ParentShareNotFound (take 8 (PrevShareHash share)))
  else
  let shareTime := Share_Time share in
  if now + MaxTimeFuture <? shareTime then
    Rejected (TimestampTooFarInFuture shareTime)
  else
  if negb (hashEq (PrevShareHash share) zeroHash)
     && match store_Get (PrevShareHash share) with
        | Some parent => shareTime <? Share_Time parent - MaxTimePast
        | None => false
        end
  then Rejected TimestampTooFarBehindParent
  else
  let expectedTarget := targetFunc (PrevShareHash share) in
  if negb (fst (MeetsTarget Sum256 share expectedTarget)) then Rejected TargetNotMet
  else
  match ShareTarget share with
  | None => NilDereference
  | Some declared =>
  let declaredBits := util.TargetToCompact declared in
  let expectedBits := util.TargetToCompact expectedTarget in
  if negb (declaredBits =? expectedBits) then
    Rejected (ShareTargetMismatch declaredBits expectedBits)
  else
  if 0 <? len (CoinbaseTx share) then
    match ExtractShareCommitment (CoinbaseTx share) with
    | Err err => Rejected (CommitmentExtractionFailed err)
    | Ok committedHash =>
        if negb (hashEq committedHash (PrevShareHash share)) then
          Rejected (CommitmentMismatch (take 8 committedHash) (take 8 (PrevShareHash share)))
        else
        match ParseCoinbaseOutputs (CoinbaseTx share) with
        | Err err => Rejected (OutputParsingFailed err)
        | Ok outputs =>
            match ValidateMinerInOutputs outputs (MinerAddress share) network with
            | Some err => Rejected (MinerNotInOutputs err)
            | None => Accepted
            end
        end
    end
  else Rejected MissingCoinbaseTx
  end
  end.

(** The nine checks of the specification, in its order; each is [true]
    when the share passes it. *)
Definition parentKnown (share : Share) : option Share :=
  if hashEq (PrevShareHash share) zeroHash then None
  else store_Get (PrevShareHash share).

Definition specChecks (share : Share) : list bool :=
  [ (* 1 *) ShareVersion share =? 1;
    (* 2 *) (strlen (MinerAddress share) <=? 128)
            && (len (CoinbaseTx share) <=? 100 * 1024);
    (* 3 *) negb (String.eqb (MinerAddress share) "")
            && bool_decide (ValidateAddress (MinerAddress share) network = None);
    (* 4 *) hashEq (PrevShareHash share) zeroHash || store_Has (PrevShareHash share);
    (* 5 *) (Share_Time share <=? now + MaxTimeFuture)
            && match parentKnown share with
               | Some parent => Share_Time parent - MaxTimePast <=? Share_Time share
               | None => true
               end;
    (* 6 *) util.HashMeetsTarget (fst (Hash Sum256 share)) (targetFunc (PrevShareHash share));
    (* 7 *) match ShareTarget share with
            | Some declared =>
                util.TargetToCompact declared
                =? util.TargetToCompact (targetFunc (PrevShareHash share))
            | None => false
            end;
    (* 8 *) match CoinbaseTx share with
            | [] => false
            | _ => match ExtractShareCommitment (CoinbaseTx share) with
                   | Ok committed => hashEq committed (PrevShareHash share)
                   | Err _ => false
                   end
            end;
    (* 9 *) match ParseCoinbaseOutputs (CoinbaseTx share) with
            | Ok outputs =>
                bool_decide
                  (ValidateMinerInOutputs outputs (MinerAddress share) network = None)
            | Err _ => false
            end ].

End validation.

(** The number (from 1) of the first check that fails. *)
Fixpoint firstViolated (k : nat) (checks : list bool) : option nat :=
  match checks with
  | [] => None
  | true :: r => firstViolated (S k) r
  | false :: _ => Some k
  end.

(** The check of the specification that each error reports. *)
Definition checkOf (e : ValidationError) : nat :=
  match e with
  | UnsupportedShareVersion _ => 1
  | MinerAddressTooLong _ | CoinbaseTxTooLarge _ => 2
  | MissingMinerAddress | InvalidMinerAddress _ => 3
  | ParentShareNotFound _ => 4
  | TimestampTooFarInFuture _ | TimestampTooFarBehindParent => 5
  | TargetNotMet => 6
  | ShareTargetMismatch _ _ => 7
  | CommitmentExtractionFailed _ | CommitmentMismatch _ _ | MissingCoinbaseTx => 8
  | OutputParsingFailed _ | MinerNotInOutputs _ => 9
  end%nat.

(** What [ValidateShare] answers when the first failing check is [v]. *)
Definition agrees (verdict : Verdict) (v : option nat) : Prop :=
  match v with
  | None => verdict = Accepted
  | Some k => exists e, verdict = Rejected e /\ checkOf e = k
  end.

End sharechain.

(** ** package p2p *)
Module p2p.

Definition maxP2PCoinbaseTxSize : Z := 100 * 1024.
Definition maxP2PMinerAddressLen : Z := 128.

Definition MsgTypeLocatorResp : Z := 6.

Record ShareMsg := {
  Type_ : Z;
  Version : Z;
  PrevBlockHash : list byte;
  MerkleRoot : list byte;
  Timestamp : Z;
  Bits : Z;
  Nonce : Z;
  ShareVersion : Z;
  PrevShareHash : list byte;
  ShareTargetBits : Z;
  MinerAddress : string;
  CoinbaseTx : list byte
}.

Record ShareLocatorReq := {
  ReqType : Z;
  Locators : list (list byte);
  MaxCount : Z
}.

Record ShareLocatorResp := {
  RespType : Z;
  Shares : list ShareMsg;
  More : bool
}.

Definition maxSyncBatchSize : Z := 100.
Definition maxSyncMsgSize : Z := 1024 * 1024.
Definition maxLocatorCount : nat := 64.

(** [SyncHandler]: the installed callback; a nil response is [None]. *)
Definition SyncHandler := ShareLocatorReq -> option ShareLocatorResp.

(** What one run of the stream handler did: the request the installed
    handler was called with, if it was called, and the bytes written back. *)
Record StreamRun := {
  observed : option ShareLocatorReq;
  written : option (list byte)
}.

Section codec.
(** [cbor.Unmarshal] and [cbor.Marshal] of [github.com/fxamacker/cbor/v2]. *)
Variable Unmarshal_ShareMsg : list byte -> result ShareMsg.
Variable Unmarshal_ShareLocatorReq : list byte -> result ShareLocatorReq.
Variable Marshal_ShareLocatorResp : ShareLocatorResp -> result (list byte).

(** [DecodeShareMsg(data []byte)], returning [*ShareMsg] and [error] *)
Definition DecodeShareMsg (data : list byte) : result ShareMsg :=
  match Unmarshal_ShareMsg data with
  | Err e => Err e
  | Ok msg =>
      if maxP2PCoinbaseTxSize <? sharechain.len (CoinbaseTx msg) then
        Err ("coinbase tx too large: " +:+ pretty (sharechain.len (CoinbaseTx msg)) +:+ " bytes")
      else if maxP2PMinerAddressLen <? sharechain.strlen (MinerAddress msg) then
        Err ("miner address too long: " +:+ pretty (sharechain.strlen (MinerAddress msg))
             +:+ " bytes")
      else Ok msg
  end.

(** [DecodeShareLocatorReq(data []byte)], returning [*ShareLocatorReq] and [error] *)
Definition DecodeShareLocatorReq (data : list byte) : result ShareLocatorReq :=
  match Unmarshal_ShareLocatorReq data with
  | Err e => Err e
  | Ok msg => Ok msg
  end.

(** The request the server side is specified to serve: [max_count] clamped
    to 100 and [locators] to its first 64 entries. *)
Definition clampedRequest (req : ShareLocatorReq) : ShareLocatorReq :=
  {| ReqType := ReqType req;
     Locators := take 64 (Locators req);
     MaxCount := Z.min (MaxCount req) 100 |}.

Definition Encode (resp : ShareLocatorResp) : result (list byte) :=
  Marshal_ShareLocatorResp resp.

(** [(s *Syncer) handleStream(stream network.Stream)]; [readAll] is the
    outcome of [io.ReadAll(io.LimitReader(stream, maxSyncMsgSize))]. *)
Definition handleStream (handler : SyncHandler) (readAll : result (list byte)) : StreamRun :=
  match readAll with
  | Err _ => {| observed := None; written := None |}
  | Ok data =>
      match DecodeShareLocatorReq data with
      | Err _ => {| observed := None; written := None |}
      | Ok req =>
          let req :=
            if maxSyncBatchSize <? MaxCount req
            then {| ReqType := ReqType req; Locators := Locators req;
                    MaxCount := maxSyncBatchSize |}
            else req in
          let req :=
            if (maxLocatorCount <? length (Locators req))%nat
            then {| ReqType := ReqType req;
                    Locators := take maxLocatorCount (Locators req);
                    MaxCount := MaxCount req |}
            else req in
          let resp :=
            match handler req with
            | Some r => r
            | None => {| RespType := MsgTypeLocatorResp; Shares := []; More := false |}
            end in
          match Encode resp with
          | Err _ => {| observed := Some req; written := None |}
          | Ok data => {| observed := Some req; written := Some data |}
          end
      end
  end.

End codec.

(** [BigIntToBytes(n *big.Int) []byte]; a nil [*big.Int] is [None], a nil
    slice is the empty list. *)
Definition BigIntToBytes (n : option Z) : list byte :=
  match n with
  | None => []
  | Some n => util.big_Bytes n
  end.

(** [BytesToBigInt(b []byte) *big.Int] *)
Definition BytesToBigInt (b : list byte) : Z :=
  if (length b =? 0)%nat then 0 else util.big_SetBytes b.

(** *** pubsub.go: the per-peer rate limiters *)
Section limiters.
(** [*rate.Limiter] of [golang.org/x/time/rate]; [peer.ID] is a string. *)
Variable Limiter : Type.
(** [range] over the map starts at some entry of it. *)
Variable firstKey : gmap string Limiter -> option string.

Definition maxPeerLimiters : nat := 500.

(** [(p *PubSub) getPeerLimiter(peerID peer.ID) *rate.Limiter]: the limiter
    returned and the map [p.peerLimiters] afterwards; [fresh] is what
    [rate.NewLimiter(10, 20)] returns in this call. *)
Definition getPeerLimiter (peerLimiters : gmap string Limiter) (fresh : Limiter)
    (peerID : string) : Limiter * gmap string Limiter :=
  match peerLimiters !! peerID with
  | Some lim => (lim, peerLimiters)
  | None =>
      let peerLimiters :=
        if (maxPeerLimiters <=? size peerLimiters)%nat then
          match firstKey peerLimiters with
          | Some id => delete id peerLimiters
          | None => peerLimiters
          end
        else peerLimiters in
      let lim := fresh in
      (lim, <[peerID := lim]> peerLimiters)
  end.

End limiters.

End p2p.

(** * Theorems *)

Lemma Z_of_byte_range (b : byte) : 0 <= Z_of_byte b < 256.
Proof.
  unfold Z_of_byte. pose proof (N_ascii_bounded b). lia.
Qed.

Lemma Z_of_byte_of_Z (z : Z) : Z_of_byte (byte_of_Z z) = z mod 256.
Proof.
  unfold Z_of_byte, byte_of_Z.
  assert (0 <= z mod 256 < 256) by (apply Z.mod_pos_bound; lia).
  rewrite N_ascii_embedding by lia. lia.
Qed.

Lemma byte_of_Z_of_byte (b : byte) : byte_of_Z (Z_of_byte b) = b.
Proof.
  unfold byte_of_Z. pose proof (Z_of_byte_range b).
  rewrite Z.mod_small by lia. unfold Z_of_byte.
  rewrite N2Z.id. apply ascii_N_embedding.
Qed.

Module binary_facts.
Import binary.

Lemma le_bytes_length n v : length (le_bytes n v) = n.
Proof. revert v; induction n; intros; simpl; auto. Qed.

Lemma le_value_le_bytes n v :
  le_value (le_bytes n v) = v mod 2 ^ (8 * Z.of_nat n).
Proof.
  revert v. induction n as [|n IH]; intros v.
  - simpl. now rewrite Z.mod_1_r.
  - cbn [le_bytes le_value]. rewrite IH, Z_of_byte_of_Z.
    replace (8 * Z.of_nat (S n)) with (8 * Z.of_nat n + 8) by lia.
    apply Z.bits_inj'. intros i Hi.
    rewrite Z.lor_spec.
    change 256 with (2 ^ 8).
    destruct (Z.lt_ge_cases i 8) as [Hlt|Hge].
    + rewrite Z.mod_pow2_bits_low by lia.
      rewrite Z.shiftl_spec_low by lia.
      rewrite Z.mod_pow2_bits_low by lia.
      now rewrite orb_false_r.
    + rewrite Z.mod_pow2_bits_high by lia.
      rewrite Z.shiftl_spec by lia. simpl.
      destruct (Z.lt_ge_cases i (8 * Z.of_nat n + 8)) as [Hlt'|Hge'].
      * rewrite !Z.mod_pow2_bits_low by lia.
        rewrite Z.shiftr_spec by lia. f_equal. lia.
      * now rewrite !Z.mod_pow2_bits_high by lia.
Qed.

End binary_facts.

Module util_facts.
Import binary binary_facts util.

(** C8. For every [uint64] value [v], reading back what [WriteVarInt]
    wrote succeeds, returns [v], and consumes exactly the bytes written. *)
Theorem ReadVarInt_WriteVarInt (v : Z) :
  0 <= v < 2 ^ 64 ->
  ReadVarInt (WriteVarInt v) = Ok (v, Z.of_nat (length (WriteVarInt v))).
Proof.
  intros Hv. unfold WriteVarInt.
  destruct (Z.ltb_spec v 0xfd) as [H1|H1].
  { cbn [ReadVarInt length]. rewrite Z_of_byte_of_Z, (Z.mod_small v 256) by lia.
    destruct (Z.ltb_spec v 0xfd); [|lia].
    unfold uint64. now rewrite Z.mod_small by lia. }
  destruct (Z.leb_spec v 0xffff) as [H2|H2].
  { unfold ReadVarInt, Uint16, PutUint16, slice, uint16, uint64.
    rewrite Z_of_byte_of_Z. cbn [length le_bytes Nat.ltb Nat.leb drop take Nat.sub].
    change (0xfd mod 256 <? 0xfd) with false. change (0xfd mod 256 =? 0xfd) with true.
    cbv iota.
    change ([byte_of_Z (v mod 2 ^ 16); byte_of_Z ((v mod 2 ^ 16) ≫ 8)])
      with (le_bytes 2 (v mod 2 ^ 16)).
    rewrite le_value_le_bytes. change (8 * Z.of_nat 2) with 16.
    rewrite Z.mod_mod by lia. rewrite (Z.mod_small v (2 ^ 16)) by lia.
    now rewrite Z.mod_small by lia. }
  destruct (Z.leb_spec v 0xffffffff) as [H3|H3].
  { unfold ReadVarInt, Uint32, PutUint32, slice, uint32, uint64.
    rewrite Z_of_byte_of_Z. cbn [length le_bytes Nat.ltb Nat.leb drop take Nat.sub].
    change (0xfe mod 256 <? 0xfd) with false. change (0xfe mod 256 =? 0xfd) with false.
    change (0xfe mod 256 =? 0xfe) with true. cbv iota.
    match goal with |- Ok (le_value ?l mod _, _) = _ =>
      change l with (le_bytes 4 (v mod 2 ^ 32)) end.
    rewrite le_value_le_bytes. change (8 * Z.of_nat 4) with 32.
    rewrite Z.mod_mod by lia. rewrite (Z.mod_small v (2 ^ 32)) by lia.
    now rewrite Z.mod_small by lia. }
  unfold ReadVarInt, Uint64, PutUint64, slice.
  rewrite Z_of_byte_of_Z. cbn [length le_bytes Nat.ltb Nat.leb drop take Nat.sub].
  change (0xff mod 256 <? 0xfd) with false. change (0xff mod 256 =? 0xfd) with false.
  change (0xff mod 256 =? 0xfe) with false. cbv iota.
  match goal with |- Ok (le_value ?l, _) = _ =>
    change l with (le_bytes 8 v) end.
  rewrite le_value_le_bytes. change (8 * Z.of_nat 8) with 64.
  now rewrite Z.mod_small by lia.
Qed.

Lemma ReadVarInt_WriteVarInt_witness :
  Forall (fun v => ReadVarInt (WriteVarInt v) = Ok (v, Z.of_nat (length (WriteVarInt v))))
    [0xfc; 0xfd; 0xffff; 0x10000; 0xffffffff; 0x100000000; 2 ^ 64 - 1].
Proof.
  do 7 (constructor;
        [apply ReadVarInt_WriteVarInt; split; [discriminate|reflexivity]|]).
  constructor.
Defined.

End util_facts.

(** ** Compact targets *)
Module compact_facts.
Import binary binary_facts util.

Lemma testbit_high m k i : 0 <= m < 2 ^ k -> k <= i -> Z.testbit m i = false.
Proof.
  intros Hm Hk.
  assert (0 <= k) by (destruct (Z.lt_ge_cases k 0) as [Hn|]; [rewrite Z.pow_neg_r in Hm by lia; lia|lia]).
  apply Z.testbit_false; [lia|].
  rewrite Z.div_small; [reflexivity|].
  split; [lia|]. apply Z.lt_le_trans with (2 ^ k); [lia|].
  apply Z.pow_le_mono_r; lia.
Qed.

Lemma lor_disjoint x m k :
  0 <= k -> x mod 2 ^ k = 0 -> 0 <= m < 2 ^ k -> Z.lor x m = x + m.
Proof.
  intros Hk Hx Hm.
  assert (Z.land x m = 0) as Hland.
  { apply Z.bits_inj'. intros i Hi. rewrite Z.land_spec, Z.bits_0.
    destruct (Z.lt_ge_cases i k).
    - rewrite <- (Z.mod_pow2_bits_low x k i) by lia. rewrite Hx, Z.bits_0. reflexivity.
    - rewrite (testbit_high m k i) by lia. apply andb_false_r. }
  rewrite <- Z.lxor_lor by exact Hland. symmetry. now apply Z.add_nocarry_lxor.
Qed.

Lemma land_pow2_zero x k :
  0 <= k -> 0 <= x < 2 ^ (k + 1) -> (Z.land x (2 ^ k) =? 0) = (x <? 2 ^ k).
Proof.
  intros Hk Hx.
  assert (Z.land x (2 ^ k) = if Z.testbit x k then 2 ^ k else 0) as ->.
  { apply Z.bits_inj'. intros i Hi. rewrite Z.land_spec, Z.pow2_bits_eqb by lia.
    destruct (Z.eqb_spec k i) as [->|Hne].
    - rewrite andb_true_r. destruct (Z.testbit x i); [|now rewrite Z.bits_0].
      rewrite Z.pow2_bits_eqb by lia. now rewrite Z.eqb_refl.
    - rewrite andb_false_r. destruct (Z.testbit x k); [|now rewrite Z.bits_0].
      rewrite Z.pow2_bits_eqb by lia. symmetry. now apply Z.eqb_neq. }
  assert (0 < 2 ^ k) by (apply Z.pow_pos_nonneg; lia).
  rewrite Z.pow_add_r, Z.pow_1_r in Hx by lia.
  destruct (Z.testbit x k) eqn:Hb.
  - apply Z.testbit_true in Hb; [|lia].
    destruct (Z.ltb_spec x (2 ^ k)).
    + rewrite Z.div_small in Hb by lia. discriminate.
    + apply Z.eqb_neq. lia.
  - apply Z.testbit_false in Hb; [|lia].
    destruct (Z.ltb_spec x (2 ^ k)); [reflexivity|].
    exfalso. assert (x / 2 ^ k = 1) as Hq by (Z.div_mod_to_equations; nia).
    rewrite Hq in Hb. discriminate.
Qed.

Lemma le_bytes_app a b v :
  le_bytes (a + b) v = le_bytes a v ++ le_bytes b (v ≫ (8 * Z.of_nat a)).
Proof.
  revert v. induction a as [|a IH]; intros v.
  - cbn. now rewrite Z.shiftr_0_r.
  - cbn [Nat.add le_bytes app]. rewrite IH. do 2 f_equal.
    rewrite Z.shiftr_shiftr by lia.
    replace (8 + 8 * Z.of_nat a) with (8 * Z.of_nat (S a)) by lia. reflexivity.
Qed.

Lemma byte_len_spec v :
  0 < v ->
  1 <= Z.of_nat (byte_len v)
  /\ 2 ^ (8 * (Z.of_nat (byte_len v) - 1)) <= v < 2 ^ (8 * Z.of_nat (byte_len v)).
Proof.
  intros Hv. unfold byte_len.
  destruct (Z.eqb_spec v 0); [lia|].
  pose proof (Z.log2_nonneg v) as Hl.
  pose proof (Z.log2_spec v Hv) as [Hlo Hhi].
  assert (0 <= Z.log2 v / 8) by (apply Z.div_pos; lia).
  rewrite Z2Nat.id by lia.
  split; [lia|]. split.
  - apply Z.le_trans with (2 ^ Z.log2 v); [|lia].
    apply Z.pow_le_mono_r; [lia|]. Z.div_mod_to_equations. lia.
  - apply Z.lt_le_trans with (2 ^ Z.succ (Z.log2 v)); [lia|].
    apply Z.pow_le_mono_r; [lia|]. Z.div_mod_to_equations. lia.
Qed.

Lemma big_Bytes_length v : length (big_Bytes v) = byte_len (Z.abs v).
Proof. unfold big_Bytes. now rewrite length_rev, le_bytes_length. Qed.

Lemma land_pow2 x k :
  0 <= k -> Z.land x (2 ^ k) = if Z.testbit x k then 2 ^ k else 0.
Proof.
  intros Hk. apply Z.bits_inj'. intros i Hi.
  rewrite Z.land_spec, Z.pow2_bits_eqb by lia.
  destruct (Z.eqb_spec k i) as [->|Hne].
  - rewrite andb_true_r. destruct (Z.testbit x i); [|now rewrite Z.bits_0].
    rewrite Z.pow2_bits_eqb by lia. now rewrite Z.eqb_refl.
  - rewrite andb_false_r. destruct (Z.testbit x k); [|now rewrite Z.bits_0].
    rewrite Z.pow2_bits_eqb by lia. symmetry. now apply Z.eqb_neq.
Qed.

(** The value [CompactToTarget] decodes from exponent [S] and mantissa [m]. *)
Definition decoded (S m : Z) : Z :=
  if S <=? 3 then m / 2 ^ (8 * (3 - S)) else m * 2 ^ (8 * (S - 3)).

Lemma CompactToTarget_pack S m :
  0 <= S <= 255 -> 0 <= m < 2 ^ 23 ->
  CompactToTarget (S * 2 ^ 24 + m) = decoded S m.
Proof.
  intros HS Hm. unfold CompactToTarget, decoded.
  assert ((S * 2 ^ 24 + m) ≫ 24 = S) as ->.
  { rewrite Z.shiftr_div_pow2 by lia. Z.div_mod_to_equations. lia. }
  assert (Z.land (S * 2 ^ 24 + m) 0x007fffff = m) as ->.
  { change 0x007fffff with (Z.ones 23). rewrite Z.land_ones by lia.
    Z.div_mod_to_equations. lia. }
  assert (Z.land (S * 2 ^ 24 + m) 0x00800000 = 0) as ->.
  { change 0x00800000 with (2 ^ 23). rewrite land_pow2 by lia.
    rewrite <- (Z.mod_pow2_bits_low _ 24) by lia.
    replace ((S * 2 ^ 24 + m) mod 2 ^ 24) with m by (Z.div_mod_to_equations; lia).
    now rewrite (testbit_high m 23 23) by lia. }
  cbn [Z.eqb negb]. unfold uint32.
  destruct (Z.leb_spec S 3).
  - rewrite (Z.mod_small (3 - S)) by lia. rewrite Z.mod_small by lia.
    now rewrite Z.shiftr_div_pow2 by lia.
  - rewrite (Z.mod_small (S - 3)) by lia. rewrite Z.mod_small by lia.
    now rewrite Z.shiftl_mul_pow2 by lia.
Qed.

Lemma three_bytes w :
  0 <= w < 2 ^ 24 ->
  Z.lor (Z.lor ((((w ≫ 8) ≫ 8) mod 256) ≪ 16) (((w ≫ 8) mod 256) ≪ 8)) (w mod 256) = w.
Proof.
  intros Hw. rewrite !Z.shiftr_div_pow2, !Z.shiftl_mul_pow2 by lia.
  rewrite (lor_disjoint (_ * 2 ^ 16) _ 16); [|lia| |].
  - rewrite (lor_disjoint _ _ 8); [|lia| |].
    + Z.div_mod_to_equations. lia.
    + Z.div_mod_to_equations. lia.
    + apply Z.mod_pos_bound. lia.
  - Z.div_mod_to_equations. lia.
  - Z.div_mod_to_equations. lia.
Qed.

Lemma smallMantissa_value (n : nat) v :
  (1 <= n <= 3)%nat -> 0 <= v < 2 ^ (8 * Z.of_nat n) ->
  smallMantissa (Z.of_nat n) 0 (rev (le_bytes n v)) 0 = v.
Proof.
  intros Hn Hv.
  destruct n as [|[|[|[|n]]]]; try lia; cbn [le_bytes rev app smallMantissa];
    rewrite !Z_of_byte_of_Z, ?Z.lor_0_l.
  - change (uint32 (8 * uint32 (uint32 (2 - Z.of_nat 0) - uint32 (3 - Z.of_nat 1)))) with 0.
    rewrite Z.shiftl_0_r. unfold uint32. change (8 * Z.of_nat 1) with 8 in Hv.
    Z.div_mod_to_equations. lia.
  - change (uint32 (8 * uint32 (uint32 (2 - Z.of_nat 0) - uint32 (3 - Z.of_nat 2)))) with 8.
    change (uint32 (8 * uint32 (uint32 (2 - Z.of_nat 1) - uint32 (3 - Z.of_nat 2)))) with 0.
    change (8 * Z.of_nat 2) with 16 in Hv.
    rewrite Z.shiftl_0_r, Z.shiftr_div_pow2, Z.shiftl_mul_pow2 by lia. unfold uint32.
    rewrite (lor_disjoint _ _ 8); [|lia| |].
    + Z.div_mod_to_equations. lia.
    + Z.div_mod_to_equations. lia.
    + Z.div_mod_to_equations. lia.
  - change (uint32 (8 * uint32 (uint32 (2 - Z.of_nat 0) - uint32 (3 - Z.of_nat 3)))) with 16.
    change (uint32 (8 * uint32 (uint32 (2 - Z.of_nat 1) - uint32 (3 - Z.of_nat 3)))) with 8.
    change (uint32 (8 * uint32 (uint32 (2 - Z.of_nat 2) - uint32 (3 - Z.of_nat 3)))) with 0.
    change (8 * Z.of_nat 3) with 24 in Hv.
    rewrite Z.shiftl_0_r. unfold uint32.
    rewrite (Z.mod_small (_ ≪ 16)), (Z.mod_small (_ ≪ 8)), (Z.mod_small (v mod 256)).
    + apply three_bytes. lia.
    + Z.div_mod_to_equations. lia.
    + rewrite Z.shiftl_mul_pow2, Z.shiftr_div_pow2 by lia. Z.div_mod_to_equations. lia.
    + rewrite Z.shiftl_mul_pow2, !Z.shiftr_div_pow2 by lia. Z.div_mod_to_equations. lia.
Qed.

(** The leading bytes of a positive [v]: [v] itself when it has at most
    three bytes, its top three bytes otherwise. *)
Definition leading (v : Z) : Z :=
  if Z.of_nat (byte_len v) <=? 3 then v
  else v / 2 ^ (8 * (Z.of_nat (byte_len v) - 3)).

Lemma leading_range v : 0 < v -> 0 < leading v < 2 ^ 24.
Proof.
  intros Hv. unfold leading.
  destruct (byte_len_spec v Hv) as (HN & Hlo & Hhi).
  set (N := Z.of_nat (byte_len v)) in *.
  destruct (Z.leb_spec N 3).
  - split; [lia|]. apply Z.lt_le_trans with (2 ^ (8 * N)); [lia|].
    apply Z.pow_le_mono_r; lia.
  - replace (8 * N) with (8 * (N - 3) + 24) in Hhi by lia.
    replace (8 * (N - 1)) with (8 * (N - 3) + 16) in Hlo by lia.
    rewrite Z.pow_add_r in Hhi, Hlo by lia.
    assert (0 < 2 ^ (8 * (N - 3))) by (apply Z.pow_pos_nonneg; lia).
    split.
    + apply Z.div_str_pos. nia.
    + apply Z.div_lt_upper_bound; lia.
Qed.

Lemma mantissa_of_bytes v :
  0 < v -> Z.of_nat (byte_len v) < 2 ^ 32 ->
  (if Z.of_nat (byte_len v) <=? 3
   then smallMantissa (Z.of_nat (byte_len v)) 0 (big_Bytes v) 0
   else Z.lor (Z.lor (at_index (big_Bytes v) 0 ≪ 16) (at_index (big_Bytes v) 1 ≪ 8))
              (at_index (big_Bytes v) 2))
  = leading v.
Proof.
  intros Hv HN32. unfold leading, big_Bytes. rewrite Z.abs_eq by lia.
  destruct (byte_len_spec v Hv) as (HN & Hlo & Hhi).
  destruct (Z.leb_spec (Z.of_nat (byte_len v)) 3) as [Hle|Hgt].
  - apply smallMantissa_value; lia.
  - pose proof (leading_range v Hv) as Hw. unfold leading in Hw.
    destruct (Z.leb_spec (Z.of_nat (byte_len v)) 3); [lia|].
    remember (byte_len v) as n eqn:En.
    replace n with ((n - 3) + 3)%nat at 1 2 3 by lia.
    rewrite le_bytes_app, rev_app_distr. cbn [le_bytes rev app].
    unfold at_index. cbn [nth]. rewrite !Z_of_byte_of_Z.
    replace (8 * Z.of_nat (n - 3)) with (8 * (Z.of_nat n - 3)) by lia.
    rewrite (Z.shiftr_div_pow2 v) by lia.
    apply three_bytes. lia.
Qed.

Lemma TargetToCompact_pos v :
  0 < v -> Z.of_nat (byte_len v) <= 254 ->
  TargetToCompact v =
    if leading v <? 2 ^ 23 then Z.of_nat (byte_len v) * 2 ^ 24 + leading v
    else (Z.of_nat (byte_len v) + 1) * 2 ^ 24 + leading v / 256.
Proof.
  intros Hv HN. unfold TargetToCompact.
  destruct (Z.eqb_spec v 0); [lia|].
  destruct (Z.ltb_spec v 0); [lia|].
  rewrite (Z.abs_eq v) by lia. rewrite big_Bytes_length, (Z.abs_eq v) by lia.
  destruct (byte_len_spec v Hv) as (HN1 & _).
  assert (uint32 (Z.of_nat (byte_len v)) = Z.of_nat (byte_len v)) as ->
    by (unfold uint32; apply Z.mod_small; lia).
  rewrite mantissa_of_bytes by lia.
  pose proof (leading_range v Hv) as Hw.
  change 0x00800000 with (2 ^ 23). rewrite land_pow2_zero by lia.
  change 0x007fffff with (Z.ones 23).
  destruct (Z.ltb_spec (leading v) (2 ^ 23)) as [Hlt|Hge]; cbn [negb].
  - rewrite Z.land_ones by lia. rewrite (Z.mod_small (leading v)) by lia.
    rewrite Z.shiftl_mul_pow2 by lia. unfold uint32. rewrite Z.mod_small by lia.
    apply (lor_disjoint _ _ 24); [lia| |lia].
    Z.div_mod_to_equations. lia.
  - rewrite Z.shiftr_div_pow2 by lia. change (2 ^ 8) with 256.
    assert (0 <= leading v / 256 < 2 ^ 16) by (Z.div_mod_to_equations; lia).
    rewrite Z.land_ones by lia. rewrite (Z.mod_small (leading v / 256)) by lia.
    unfold uint32. rewrite (Z.mod_small (_ + 1)) by lia.
    rewrite Z.shiftl_mul_pow2 by lia. rewrite Z.mod_small by lia.
    apply (lor_disjoint _ _ 24); [lia| |lia].
    Z.div_mod_to_equations. lia.
Qed.

(** The normalisation [CompactToTarget (TargetToCompact v)] never raises a
    positive target. *)
Lemma normalize_le v :
  0 < v -> Z.of_nat (byte_len v) <= 254 ->
  0 <= CompactToTarget (TargetToCompact v) <= v.
Proof.
  intros Hv HN. rewrite TargetToCompact_pos by assumption.
  destruct (byte_len_spec v Hv) as (HN1 & Hlo & Hhi).
  pose proof (leading_range v Hv) as Hw.
  set (N := Z.of_nat (byte_len v)) in *.
  assert (leading v <= v /\ (3 < N -> leading v * 2 ^ (8 * (N - 3)) <= v)) as [Hwv Hwp].
  { unfold leading. fold N. destruct (Z.leb_spec N 3); [lia|].
    assert (0 < 2 ^ (8 * (N - 3))) by (apply Z.pow_pos_nonneg; lia).
    split; [|intros _]; Z.div_mod_to_equations; nia. }
  destruct (Z.ltb_spec (leading v) (2 ^ 23)) as [Hlt|Hge].
  - rewrite CompactToTarget_pack by lia. unfold decoded.
    destruct (Z.leb_spec N 3).
    + assert (0 < 2 ^ (8 * (3 - N))) by (apply Z.pow_pos_nonneg; lia).
      Z.div_mod_to_equations. nia.
    + assert (0 < 2 ^ (8 * (N - 3))) by (apply Z.pow_pos_nonneg; lia). nia.
  - rewrite CompactToTarget_pack by (Z.div_mod_to_equations; lia). unfold decoded.
    assert (3 <= N) as HN3.
    { destruct (Z.le_gt_cases 3 N); [assumption|]. exfalso.
      unfold leading in Hge. fold N in Hge.
      destruct (Z.leb_spec N 3); [|lia].
      assert (2 ^ (8 * N) <= 2 ^ 16) by (apply Z.pow_le_mono_r; lia). lia. }
    destruct (Z.leb_spec (N + 1) 3); [lia|].
    replace (8 * (N + 1 - 3)) with (8 * (N - 3) + 8) by lia.
    rewrite Z.pow_add_r by lia.
    assert (0 < 2 ^ (8 * (N - 3))) by (apply Z.pow_pos_nonneg; lia).
    destruct (Z.eq_dec N 3) as [E3|].
    + rewrite E3 in *. change (2 ^ (8 * (3 - 3))) with 1 in *.
      Z.div_mod_to_equations. lia.
    + assert (leading v * 2 ^ (8 * (N - 3)) <= v) by (apply Hwp; lia).
      assert (leading v / 256 * 2 ^ 8 <= leading v) by (Z.div_mod_to_equations; lia).
      split; [Z.div_mod_to_equations; nia|].
      apply Z.le_trans with (leading v * 2 ^ (8 * (N - 3))); [|lia].
      rewrite (Z.mul_comm (2 ^ (8 * (N - 3)))), Z.mul_assoc.
      apply Z.mul_le_mono_nonneg_r; lia.
Qed.

(** Above two bytes the normalisation loses less than one part in [2^15]. *)
Lemma normalize_close v :
  2 ^ 16 <= v -> Z.of_nat (byte_len v) <= 254 ->
  2 ^ 15 * (v - CompactToTarget (TargetToCompact v)) < v.
Proof.
  intros Hv16 HN. assert (0 < v) as Hv by lia.
  rewrite TargetToCompact_pos by assumption.
  destruct (byte_len_spec v Hv) as (HN1 & Hlo & Hhi).
  pose proof (leading_range v Hv) as Hw.
  set (N := Z.of_nat (byte_len v)) in *.
  assert (3 <= N) as HN3.
  { destruct (Z.le_gt_cases 3 N); [assumption|]. exfalso.
    assert (2 ^ (8 * N) <= 2 ^ 16) by (apply Z.pow_le_mono_r; lia). lia. }
  unfold leading in *. fold N in Hw |- *.
  destruct (Z.leb_spec N 3) as [Hle|Hgt].
  - assert (N = 3) as HN3' by lia. rewrite HN3' in *.
    destruct (Z.ltb_spec v (2 ^ 23)) as [Hlt|Hge].
    + rewrite CompactToTarget_pack by lia. unfold decoded.
      change (3 <=? 3) with true. cbv iota. change (2 ^ (8 * (3 - 3))) with 1.
      rewrite Z.div_1_r. lia.
    + rewrite CompactToTarget_pack by (Z.div_mod_to_equations; lia). unfold decoded.
      change (3 + 1 <=? 3) with false. cbv iota. change (2 ^ (8 * (3 + 1 - 3))) with 256.
      Z.div_mod_to_equations. lia.
  - set (P := 2 ^ (8 * (N - 3))) in *.
    assert (0 < P) by (apply Z.pow_pos_nonneg; lia).
    set (w := v / P) in *.
    assert (w * P <= v < w * P + P) as Hwv by (unfold w; Z.div_mod_to_equations; nia).
    replace (8 * (N - 1)) with (8 * (N - 3) + 16) in Hlo by lia.
    rewrite Z.pow_add_r in Hlo by lia. fold P in Hlo.
    assert (2 ^ 16 <= w) as Hw16 by nia.
    destruct (Z.ltb_spec w (2 ^ 23)) as [Hlt|Hge].
    + rewrite CompactToTarget_pack by lia. unfold decoded.
      destruct (Z.leb_spec N 3); [lia|]. fold P. nia.
    + rewrite CompactToTarget_pack by (Z.div_mod_to_equations; lia). unfold decoded.
      destruct (Z.leb_spec (N + 1) 3); [lia|].
      replace (8 * (N + 1 - 3)) with (8 * (N - 3) + 8) by lia.
      rewrite Z.pow_add_r by lia. fold P. change (2 ^ 8) with 256.
      assert (w - 255 <= w / 256 * 256) by (Z.div_mod_to_equations; lia).
      nia.
Qed.

Lemma normalize_zero : CompactToTarget (TargetToCompact 0) = 0.
Proof. reflexivity. Qed.

Lemma byte_len_unique v K :
  0 < v -> 2 ^ (8 * (K - 1)) <= v < 2 ^ (8 * K) -> Z.of_nat (byte_len v) = K.
Proof.
  intros Hv [Hlo Hhi]. destruct (byte_len_spec v Hv) as (HN & Hlo' & Hhi').
  set (N := Z.of_nat (byte_len v)) in *.
  assert (0 < K).
  { destruct (Z.lt_ge_cases 0 K); [assumption|].
    destruct (Z.eq_dec K 0) as [->|]; [change (2 ^ (8 * 0)) with 1 in Hhi; lia|].
    rewrite Z.pow_neg_r in Hhi by lia. lia. }
  destruct (Z.lt_trichotomy N K) as [Hlt|[Heq|Hgt]]; [|assumption|]; exfalso.
  - assert (2 ^ (8 * N) <= 2 ^ (8 * (K - 1))) by (apply Z.pow_le_mono_r; lia). lia.
  - assert (2 ^ (8 * K) <= 2 ^ (8 * (N - 1))) by (apply Z.pow_le_mono_r; lia). lia.
Qed.

Lemma byte_len_le v K :
  0 < v < 2 ^ (8 * K) -> Z.of_nat (byte_len v) <= K.
Proof.
  intros [Hv Hhi]. destruct (byte_len_spec v Hv) as (HN & Hlo' & Hhi').
  set (N := Z.of_nat (byte_len v)) in *.
  destruct (Z.le_gt_cases N K); [assumption|]. exfalso.
  assert (2 ^ (8 * K) <= 2 ^ (8 * (N - 1))) by (apply Z.pow_le_mono_r; lia). lia.
Qed.

(** The round trip on every canonical compact value whose target fills at
    least three bytes: exponent [e] from 4 to 254 with a mantissa between
    [0x008000] and [0x7fffff], or exponent 3 with a mantissa from
    [0x010000]. *)
Theorem compact_round_trip_wide (e m : Z) :
  (4 <= e <= 254 /\ 2 ^ 15 <= m < 2 ^ 23) \/ (e = 3 /\ 2 ^ 16 <= m < 2 ^ 23) ->
  TargetToCompact (CompactToTarget (e * 2 ^ 24 + m)) = e * 2 ^ 24 + m.
Proof.
  intros Hem.
  assert (3 <= e <= 254 /\ 2 ^ 15 <= m < 2 ^ 23 /\ (e = 3 -> 2 ^ 16 <= m)) as (He & Hm & H3)
    by lia.
  rewrite CompactToTarget_pack by lia. unfold decoded.
  assert (0 < 2 ^ (8 * (e - 3))) as Hp by (apply Z.pow_pos_nonneg; lia).
  assert ((if e <=? 3 then m / 2 ^ (8 * (3 - e)) else m * 2 ^ (8 * (e - 3)))
          = m * 2 ^ (8 * (e - 3))) as ->.
  { destruct (Z.leb_spec e 3); [|reflexivity].
    replace e with 3 by lia. change (2 ^ (8 * (3 - 3))) with 1.
    now rewrite Z.div_1_r, Z.mul_1_r. }
  set (v := m * 2 ^ (8 * (e - 3))).
  assert (0 < v) as Hv by (unfold v; nia).
  destruct (Z.lt_ge_cases m (2 ^ 16)) as [Hsmall|Hbig].
  - assert (4 <= e) by lia.
    assert (Z.of_nat (byte_len v) = e - 1) as HN.
    { apply byte_len_unique; [assumption|]. unfold v.
      replace (8 * (e - 1 - 1)) with (8 * (e - 3) + 8) by lia.
      replace (8 * (e - 1)) with (8 * (e - 3) + 16) by lia.
      rewrite !Z.pow_add_r by lia. nia. }
    assert (leading v = m * 256) as Hl.
    { unfold leading. rewrite HN. destruct (Z.leb_spec (e - 1) 3).
      - unfold v. replace e with 4 by lia. reflexivity.
      - unfold v. replace (8 * (e - 3)) with (8 * (e - 1 - 3) + 8) by lia.
        rewrite Z.pow_add_r by lia.
        assert (0 < 2 ^ (8 * (e - 1 - 3))) by (apply Z.pow_pos_nonneg; lia).
        rewrite (Z.mul_comm (2 ^ (8 * (e - 1 - 3)))), Z.mul_assoc.
        rewrite Z.div_mul by lia. reflexivity. }
    rewrite TargetToCompact_pos by lia. rewrite HN, Hl.
    destruct (Z.ltb_spec (m * 256) (2 ^ 23)); [lia|].
    rewrite Z.div_mul by lia. f_equal. lia.
  - assert (Z.of_nat (byte_len v) = e) as HN.
    { apply byte_len_unique; [assumption|]. unfold v.
      replace (8 * (e - 1)) with (8 * (e - 3) + 16) by lia.
      replace (8 * e) with (8 * (e - 3) + 24) by lia.
      rewrite !Z.pow_add_r by lia. nia. }
    assert (leading v = m) as Hl.
    { unfold leading. rewrite HN. destruct (Z.leb_spec e 3).
      - unfold v. replace e with 3 by lia. change (2 ^ (8 * (3 - 3))) with 1. lia.
      - unfold v. rewrite Z.div_mul by lia. reflexivity. }
    rewrite TargetToCompact_pos by lia. rewrite HN, Hl.
    destruct (Z.ltb_spec m (2 ^ 23)); [reflexivity|lia].
Qed.

Lemma compact_round_trip_wide_example :
  TargetToCompact (CompactToTarget 0x1d00ffff) = 0x1d00ffff.
Proof.
  apply (compact_round_trip_wide 0x1d 0x00ffff). left. lia.
Defined.

(** C7. The canonical compact value [0x0300ffff] (the target 65535) does
    not survive the round trip: [TargetToCompact] builds the mantissa of a
    target shorter than three bytes right-aligned, and returns
    [0x0200ffff]. *)
Theorem compact_round_trip_two_byte_target :
  CompactToTarget 0x0300ffff = 0xffff
  /\ TargetToCompact (CompactToTarget 0x0300ffff) = 0x0200ffff
  /\ CompactToTarget (TargetToCompact 0xffff) = 0xff.
Proof. repeat split. Qed.

End compact_facts.

(** ** Retargeting *)
Module difficulty_facts.
Import types util compact_facts sharechain.

Lemma MaxShareTarget_range : 0 < MaxShareTarget < 2 ^ (8 * 32).
Proof. split; reflexivity. Qed.

Lemma normalize_range v :
  0 <= v <= MaxShareTarget -> 0 <= CompactToTarget (TargetToCompact v) <= v.
Proof.
  intros Hv. pose proof MaxShareTarget_range.
  destruct (Z.eq_dec v 0) as [->|]; [rewrite normalize_zero; lia|].
  apply normalize_le; [lia|].
  pose proof (byte_len_le v 32). lia.
Qed.

Lemma normalize_near v :
  2 ^ 16 <= v <= MaxShareTarget ->
  (2 ^ 15 - 1) * v < 2 ^ 15 * CompactToTarget (TargetToCompact v).
Proof.
  intros Hv. pose proof MaxShareTarget_range.
  pose proof (normalize_close v ltac:(lia)) as Hc.
  pose proof (byte_len_le v 32). lia.
Qed.

(** C2. With fewer than two shares, or when the newest share
    has no target or a zero one, [NextTarget] is [MaxShareTarget].
    Otherwise, for a newest target [T] with [0 < T <= MaxShareTarget], the
    result is the compact normalisation of a value [v] with
    [T/4 <= v <= 4T] and [v <= MaxShareTarget]; normalisation only rounds
    down, so the result is at most [4T] and at most [MaxShareTarget], but it
    can fall below [T/4], by less than one part in [2^15] when [T] is at
    least [2^18]. *)
Theorem NextTarget_bounds (dc : DifficultyCalculator) (shares : list Share) :
  ((length shares < 2)%nat -> NextTarget dc shares = MaxShareTarget)
  /\ (forall newest rest,
        shares = newest :: rest ->
        ShareTarget newest = None \/ ShareTarget newest = Some 0 ->
        NextTarget dc shares = MaxShareTarget)
  /\ (forall newest rest T,
        shares = newest :: rest -> rest <> [] ->
        ShareTarget newest = Some T -> 0 < T <= MaxShareTarget ->
        exists v,
          NextTarget dc shares = CompactToTarget (TargetToCompact v)
          /\ T / 4 <= v <= T * 4 /\ v <= MaxShareTarget
          /\ 0 <= NextTarget dc shares <= v
          /\ (2 ^ 18 <= T -> (2 ^ 15 - 1) * (T / 4) < 2 ^ 15 * NextTarget dc shares)).
Proof.
  split; [|split].
  - intros Hlen. unfold NextTarget.
    destruct (Nat.ltb_spec (length shares) 2); [reflexivity|lia].
  - intros newest rest -> Hnil. unfold NextTarget.
    destruct (length (newest :: rest) <? 2)%nat; [reflexivity|].
    destruct (DifficultyAdjustmentWindow <? length (newest :: rest))%nat;
      cbn [take DifficultyAdjustmentWindow];
      destruct Hnil as [-> | ->]; reflexivity.
  - intros newest rest T -> Hrest HT HTr.
    assert (exists v, NextTarget dc (newest :: rest) = CompactToTarget (TargetToCompact v)
                      /\ T / 4 <= v <= T * 4 /\ v <= MaxShareTarget) as (v & Hv & Hq & Hm).
    { unfold NextTarget.
      destruct (Nat.ltb_spec (length (newest :: rest)) 2) as [Hl|_].
      { destruct rest; [contradiction|cbn [length] in Hl; lia]. }
      set (window := if (DifficultyAdjustmentWindow <? length (newest :: rest))%nat
                     then take DifficultyAdjustmentWindow (newest :: rest)
                     else newest :: rest).
      assert (exists rest', window = newest :: rest') as [rest' ->].
      { unfold window. destruct (_ <? _)%nat; cbn [take DifficultyAdjustmentWindow]; eauto. }
      rewrite HT. destruct (Z.eqb_spec T 0); [lia|].
      assert (big_Div T 4 = T / 4) as -> by reflexivity.
      assert (T / 4 <= T) by (Z.div_mod_to_equations; lia).
      destruct (length _ <? 2)%nat.
      - exists T. repeat split; lia.
      - eexists. split; [reflexivity|]. cbv zeta.
        set (raw := big_Div _ _).
        clearbody raw.
        set (v1 := if T * 4 <? raw then T * 4 else raw).
        assert (v1 <= T * 4) by (unfold v1; destruct (Z.ltb_spec (T * 4) raw); lia).
        clearbody v1.
        set (v2 := if v1 <? T / 4 then T / 4 else v1).
        assert (T / 4 <= v2 <= T * 4) by (unfold v2; destruct (Z.ltb_spec v1 (T / 4)); lia).
        clearbody v2.
        destruct (Z.ltb_spec MaxShareTarget v2); lia. }
    assert (0 <= v) by (Z.div_mod_to_equations; lia).
    pose proof (normalize_range v ltac:(lia)) as Hnr.
    exists v. rewrite Hv.
    split; [reflexivity|]. split; [assumption|]. split; [assumption|].
    split; [assumption|].
    intros HT18.
    assert (2 ^ 16 <= T / 4) by (Z.div_mod_to_equations; lia).
    pose proof (normalize_near v ltac:(lia)). nia.
Qed.

Definition coldShare : Share :=
  {| Header := {| Version := 1; PrevBlockHash := replicate 32 zero;
                  MerkleRoot := replicate 32 zero; Timestamp := 1700000000;
                  Bits := 0x207fffff; Nonce := 0 |};
     ShareVersion := 1; PrevShareHash := replicate 32 zero;
     ShareTarget := Some MaxShareTarget; MinerAddress := "tb1qtest1";
     CoinbaseTx := []; ShareChainNonce := 0; hash := None |}.

Lemma NextTarget_bounds_witness :
  exists v,
    NextTarget {| targetTimeSeconds := 30 |} [coldShare; coldShare]
    = CompactToTarget (TargetToCompact v)
    /\ MaxShareTarget / 4 <= v <= MaxShareTarget * 4 /\ v <= MaxShareTarget
    /\ 0 <= NextTarget {| targetTimeSeconds := 30 |} [coldShare; coldShare] <= v
    /\ (2 ^ 18 <= MaxShareTarget ->
        (2 ^ 15 - 1) * (MaxShareTarget / 4)
        < 2 ^ 15 * NextTarget {| targetTimeSeconds := 30 |} [coldShare; coldShare]).
Proof.
  apply (proj2 (proj2 (NextTarget_bounds {| targetTimeSeconds := 30 |}
                         [coldShare; coldShare])) coldShare [coldShare] MaxShareTarget).
  - reflexivity.
  - discriminate.
  - reflexivity.
  - split; [reflexivity|]. apply Z.le_refl.
Defined.

(** Two shares mined at the same second at [MaxShareTarget]: the next
    target is clamped to [MaxShareTarget / 4] and then normalised to a
    smaller value, below the claimed lower bound. *)
Lemma NextTarget_below_quarter :
  ShareTarget coldShare = Some MaxShareTarget
  /\ ~ (MaxShareTarget / 4
        <= NextTarget {| targetTimeSeconds := 30 |} [coldShare; coldShare]
        <= MaxShareTarget * 4).
Proof.
  split; [reflexivity|]. intros [Hlo _]. revert Hlo. vm_compute. intros H. now apply H.
Qed.

(** Why the bound on the newest target: when no other share is comparable
    the newest target is returned as it is, also above [MaxShareTarget]. *)
Example NextTarget_above_max :
  NextTarget {| targetTimeSeconds := 30 |}
    [pplns_tests.makeShare "tb1qtest1" (2 ^ 255); pplns_tests.makeShare "tb1qtest1" 1]
  = 2 ^ 255
  /\ MaxShareTarget < 2 ^ 255.
Proof. split; reflexivity. Qed.

End difficulty_facts.


(** ** Share hash caching *)
Module types_facts.
Import types.

Lemma runOps_cached Sum256 ops s c :
  hash s = Some c -> Forall (eq c) (runOps Sum256 ops s).1.
Proof.
  revert s. induction ops as [|[|h] ops IH]; intros s Hc; cbn [runOps].
  - constructor.
  - unfold Hash. rewrite Hc.
    specialize (IH s Hc). destruct (runOps Sum256 ops s) as [hs s2].
    constructor; auto.
  - apply IH. exact Hc.
Qed.

(** C9. The first call of [Hash] on a share whose cache is empty returns
    the double SHA-256 of the header as it is serialized at that moment, and
    every later call returns that same value, whatever is assigned to the
    header in between. *)
Theorem Hash_cached_after_first_call Sum256 (s : Share) (ops : list ShareOp) :
  hash s = None ->
  (Hash Sum256 s).1 = util.DoubleSHA256 Sum256 (Serialize (Header s))
  /\ Forall (eq (Hash Sum256 s).1) (runOps Sum256 ops (Hash Sum256 s).2).1.
Proof.
  intros Hnone. unfold Hash. rewrite Hnone. cbn [fst snd]. split.
  - reflexivity.
  - apply runOps_cached. reflexivity.
Qed.

Definition sampleHeader (nonce : Z) : ShareHeader :=
  {| Version := 1; PrevBlockHash := replicate 32 zero; MerkleRoot := replicate 32 zero;
     Timestamp := 1700000000; Bits := 0x1d00ffff; Nonce := nonce |}.

Definition sampleShare : Share :=
  {| Header := sampleHeader 0; ShareVersion := 1; PrevShareHash := replicate 32 zero;
     ShareTarget := Some (util.CompactToTarget 0x207fffff); MinerAddress := "tb1qtest1";
     CoinbaseTx := []; ShareChainNonce := 0; hash := None |}.

Lemma Hash_cached_witness :
  hash sampleShare = None
  /\ Forall (eq (take 32 (take 32 (Serialize (sampleHeader 0)))))
       (runOps (fun b => take 32 b) [AssignHeader (sampleHeader 1); CallHash; CallHash]
          (Hash (fun b => take 32 b) sampleShare).2).1.
Proof.
  split; [reflexivity|].
  apply (Hash_cached_after_first_call (fun b => take 32 b) sampleShare
           [AssignHeader (sampleHeader 1); CallHash; CallHash]).
  reflexivity.
Defined.

End types_facts.

(** ** Wire messages and locator sync *)
Module p2p_facts.
Import p2p.

(** C10. [DecodeShareMsg] fails whenever the decoded message carries a
    coinbase longer than 100 KiB or a miner address longer than 128 bytes,
    and every message it returns respects both caps. *)
Theorem DecodeShareMsg_size_caps (Unmarshal : list byte -> result ShareMsg)
    (data : list byte) :
  (forall msg, Unmarshal data = Ok msg ->
     100 * 1024 < Z.of_nat (length (CoinbaseTx msg))
     \/ 128 < Z.of_nat (String.length (MinerAddress msg)) ->
     exists e, DecodeShareMsg Unmarshal data = Err e)
  /\ (forall msg, DecodeShareMsg Unmarshal data = Ok msg ->
        Unmarshal data = Ok msg
        /\ Z.of_nat (length (CoinbaseTx msg)) <= 100 * 1024
        /\ Z.of_nat (String.length (MinerAddress msg)) <= 128).
Proof.
  unfold DecodeShareMsg, maxP2PCoinbaseTxSize, maxP2PMinerAddressLen.
  unfold sharechain.len, sharechain.strlen. split.
  - intros msg -> Hbig.
    destruct (Z.ltb_spec (100 * 1024) (Z.of_nat (length (CoinbaseTx msg)))); [eauto|].
    destruct (Z.ltb_spec 128 (Z.of_nat (String.length (MinerAddress msg)))); [eauto|].
    lia.
  - intros msg. destruct (Unmarshal data) as [m|e]; [|discriminate].
    destruct (Z.ltb_spec (100 * 1024) (Z.of_nat (length (CoinbaseTx m)))); [discriminate|].
    destruct (Z.ltb_spec 128 (Z.of_nat (String.length (MinerAddress m)))); [discriminate|].
    intros [= <-]. auto.
Qed.

Definition oversizedMsg : ShareMsg :=
  {| Type_ := 1; Version := 1; PrevBlockHash := []; MerkleRoot := []; Timestamp := 0;
     Bits := 0; Nonce := 0; ShareVersion := 1; PrevShareHash := []; ShareTargetBits := 0;
     MinerAddress := string_of_list_ascii (replicate 129 "a"%char); CoinbaseTx := [] |}.

Lemma DecodeShareMsg_witness :
  exists e, DecodeShareMsg (fun _ => Ok oversizedMsg) [] = Err e.
Proof.
  apply (proj1 (DecodeShareMsg_size_caps (fun _ => Ok oversizedMsg) []) oversizedMsg).
  - reflexivity.
  - right. reflexivity.
Defined.

Lemma clampedRequest_bounds req :
  MaxCount (clampedRequest req) <= 100
  /\ (length (Locators (clampedRequest req)) <= 64)%nat.
Proof.
  unfold clampedRequest. cbn. rewrite length_take. lia.
Qed.

(** The two clamping assignments of [handleStream], as one value. *)
Lemma handleStream_request (req : ShareLocatorReq) :
  (let req :=
     if maxSyncBatchSize <? MaxCount req
     then {| ReqType := ReqType req; Locators := Locators req; MaxCount := maxSyncBatchSize |}
     else req in
   if (maxLocatorCount <? length (Locators req))%nat
   then {| ReqType := ReqType req; Locators := take maxLocatorCount (Locators req);
           MaxCount := MaxCount req |}
   else req)
  = clampedRequest req.
Proof.
  unfold maxSyncBatchSize, maxLocatorCount, clampedRequest. cbv zeta.
  assert (forall r : ShareLocatorReq,
    (if (64 <? length (Locators r))%nat
     then {| ReqType := ReqType r; Locators := take 64 (Locators r); MaxCount := MaxCount r |}
     else r)
    = {| ReqType := ReqType r; Locators := take 64 (Locators r); MaxCount := MaxCount r |}) as Hloc.
  { intros [t l m]. cbn [ReqType Locators MaxCount].
    destruct (Nat.ltb_spec 64 (length l)); [reflexivity|].
    now rewrite take_ge by lia. }
  rewrite Hloc.
  destruct (Z.ltb_spec 100 (MaxCount req)); cbn [ReqType Locators MaxCount].
  - now rewrite Z.min_r by lia.
  - now rewrite Z.min_l by lia.
Qed.

(** The response [handleStream] encodes when the handler answers [answer]. *)
Definition responseOf (answer : option ShareLocatorResp) : ShareLocatorResp :=
  match answer with
  | Some r => r
  | None => {| RespType := MsgTypeLocatorResp; Shares := []; More := false |}
  end.

(** What is written to the stream for an encoded response. *)
Definition writtenOf (encoded : result (list byte)) : option (list byte) :=
  match encoded with
  | Ok data => Some data
  | Err _ => None
  end.

Lemma handleStream_served Unmarshal Marshal (handler : SyncHandler) data req :
  Unmarshal data = Ok req ->
  handleStream Unmarshal Marshal handler (Ok data)
  = {| observed := Some (clampedRequest req);
       written := writtenOf (Marshal (responseOf (handler (clampedRequest req)))) |}.
Proof.
  intros Hreq. unfold handleStream, DecodeShareLocatorReq. rewrite Hreq.
  pose proof (handleStream_request req) as Hclamp.
  cbv zeta in Hclamp |- *. rewrite Hclamp.
  unfold Encode, responseOf, writtenOf. now destruct (Marshal _).
Qed.

(** C6. For a sync request that decodes, the installed handler is applied
    to the request with [MaxCount] replaced by 100 when it was larger and
    [Locators] cut to its first 64 entries, and to nothing else: what is
    written to the stream is the encoding of the handler's answer to that
    request, whatever the handler is.  That request has [MaxCount <= 100]
    and at most 64 locators. *)
Theorem handleStream_clamps Unmarshal Marshal (handler : SyncHandler)
    (readAll : result (list byte)) (data : list byte) (req : ShareLocatorReq) :
  readAll = Ok data ->
  Unmarshal data = Ok req ->
  let served :=
    {| ReqType := ReqType req;
       Locators := take 64 (Locators req);
       MaxCount := if 100 <? MaxCount req then 100 else MaxCount req |} in
  written (handleStream Unmarshal Marshal handler readAll)
  = match Marshal match handler served with
                  | Some resp => resp
                  | None => {| RespType := MsgTypeLocatorResp; Shares := []; More := false |}
                  end with
    | Ok out => Some out
    | Err _ => None
    end
  /\ observed (handleStream Unmarshal Marshal handler readAll) = Some served
  /\ MaxCount served <= 100
  /\ (length (Locators served) <= 64)%nat
  /\ (100 < MaxCount req -> MaxCount served = 100)
  /\ (MaxCount req <= 100 -> MaxCount served = MaxCount req)
  /\ ((length (Locators req) <= 64)%nat -> Locators served = Locators req).
Proof.
  intros -> Hreq served.
  assert (clampedRequest req = served) as Hserved.
  { unfold clampedRequest, served. do 2 f_equal.
    destruct (Z.ltb_spec 100 (MaxCount req)); lia. }
  rewrite (handleStream_served _ _ _ _ _ Hreq), Hserved. cbn [written observed].
  split; [reflexivity|]. split; [reflexivity|].
  rewrite <- Hserved.
  destruct (clampedRequest_bounds req) as [Hm Hl].
  split; [exact Hm|]. split; [exact Hl|].
  unfold clampedRequest. cbn [MaxCount Locators].
  repeat split; intros; try lia. now apply take_ge.
Qed.

Definition request500 : ShareLocatorReq :=
  {| ReqType := 5; Locators := replicate 70 (replicate 32 zero); MaxCount := 500 |}.

(** A handler that answers with what it was asked: [More] tells whether it
    was called with [MaxCount = 100] and 64 locators, and the encoder used
    with it writes that flag as one byte. *)
Definition echoHandler : SyncHandler :=
  fun req =>
    Some {| RespType := MsgTypeLocatorResp; Shares := [];
            More := (MaxCount req =? 100) && (length (Locators req) =? 64)%nat |}.

Definition flagEncoder (resp : ShareLocatorResp) : result (list byte) :=
  Ok [if More resp then byte_of_Z 1 else zero].

Lemma handleStream_clamps_witness :
  written (handleStream (fun _ => Ok request500) flagEncoder echoHandler (Ok []))
  = Some [byte_of_Z 1].
Proof.
  exact (proj1 (handleStream_clamps (fun _ => Ok request500) flagEncoder echoHandler
                  (Ok []) [] request500 eq_refl eq_refl)).
Defined.

End p2p_facts.

(** ** Share validation *)
Module validation_facts.
Import types sharechain.

Section validator.
Variable Sum256 : list byte -> list byte.
Variable Outputs : Type.
Variable store_Get : list byte -> option Share.
Variable targetFunc : list byte -> Z.
Variable network : string.
Variable now : Z.
Variable ValidateAddress : string -> string -> option string.
Variable ExtractShareCommitment : list byte -> result (list byte).
Variable ParseCoinbaseOutputs : list byte -> result Outputs.
Variable ValidateMinerInOutputs : Outputs -> string -> string -> option string.

Local Abbreviation validate store_Has :=
  (ValidateShare Sum256 Outputs store_Has store_Get targetFunc network now
     ValidateAddress ExtractShareCommitment ParseCoinbaseOutputs ValidateMinerInOutputs).
Local Abbreviation checks store_Has :=
  (specChecks Sum256 Outputs store_Has store_Get targetFunc network now
     ValidateAddress ExtractShareCommitment ParseCoinbaseOutputs ValidateMinerInOutputs).

(** A failed check ends the comparison: both sides name it. *)
Ltac rejected := cbn; eauto.

(** Checks 6 to 9, which read nothing of the store. *)
Ltac work_and_coinbase_checks :=
  match goal with
  | |- context [Hash ?f ?s] => destruct (Hash f s) as [? ?]; cbn [fst]
  end;
  match goal with
  | |- context [util.HashMeetsTarget ?h ?t] =>
      destruct (util.HashMeetsTarget h t); cbn [negb]; [|rejected]
  end;
  match goal with
  | |- context [negb (?a =? ?b)] => destruct (a =? b); cbn [negb]; [|rejected]
  end;
  match goal with
  | |- context [len (CoinbaseTx ?s)] =>
      let c0 := fresh "c0" in
      let cb := fresh "cb" in
      destruct (CoinbaseTx s) as [|c0 cb]; [rejected|];
      replace (0 <? len (c0 :: cb)) with true
        by (symmetry; apply Z.ltb_lt; unfold len; cbn [length]; lia)
  end;
  match goal with
  | |- context [match ?e with Ok _ => _ | Err _ => _ end] =>
      destruct e as [?committed|?]; [|rejected]
  end;
  match goal with
  | |- context [negb (hashEq ?a ?b)] => destruct (hashEq a b); cbn [negb]; [|rejected]
  end;
  match goal with
  | |- context [match ?e with Ok _ => _ | Err _ => _ end] =>
      destruct e as [?outs|?]; [|rejected]
  end;
  match goal with
  | |- context [match ?e with Some _ => _ | None => _ end] =>
      destruct e;
      [rewrite bool_decide_eq_false_2 by discriminate; rejected
      |rewrite bool_decide_eq_true_2 by reflexivity; reflexivity]
  end.

Lemma ValidateShare_refines store_Has share t :
  ShareTarget share = Some t ->
  agrees (validate store_Has share) (firstViolated 1 (checks store_Has share)).
Proof.
  intros Ht. unfold ValidateShare, specChecks, parentKnown, MeetsTarget.
  rewrite Ht. cbn [firstViolated].
  destruct (ShareVersion share =? 1); cbn [negb]; [|cbn; eauto].
  unfold maxMinerAddressLen, maxCoinbaseTxSize.
  rewrite (Z.leb_antisym 128), (Z.leb_antisym (100 * 1024)).
  destruct (128 <? strlen (MinerAddress share)); cbn [negb andb]; [cbn; eauto|].
  destruct (100 * 1024 <? len (CoinbaseTx share)); cbn [negb andb]; [cbn; eauto|].
  destruct (String.eqb (MinerAddress share) ""); cbn [negb andb]; [cbn; eauto|].
  destruct (ValidateAddress (MinerAddress share) network) as [err|];
    [rewrite bool_decide_eq_false_2 by discriminate; cbn; eauto|].
  rewrite bool_decide_eq_true_2 by reflexivity.
  destruct (hashEq (PrevShareHash share) zeroHash) eqn:Hz; cbn [negb andb orb].
  - rewrite (Z.leb_antisym (now + MaxTimeFuture)).
    destruct (now + MaxTimeFuture <? Share_Time share); cbn [negb andb]; [cbn; eauto|].
    work_and_coinbase_checks.
  - destruct (store_Has (PrevShareHash share)); cbn [negb]; [|cbn; eauto].
    rewrite (Z.leb_antisym (now + MaxTimeFuture)).
    destruct (now + MaxTimeFuture <? Share_Time share); cbn [negb andb]; [cbn; eauto|].
    assert (match store_Get (PrevShareHash share) with
            | Some parent => Share_Time parent - MaxTimePast <=? Share_Time share
            | None => true
            end
            = negb match store_Get (PrevShareHash share) with
                   | Some parent => Share_Time share <? Share_Time parent - MaxTimePast
                   | None => false
                   end) as ->.
    { destruct (store_Get _); [|reflexivity]. now rewrite Z.leb_antisym. }
    destruct (match store_Get _ with Some _ => _ | None => _ end);
      cbn [negb]; [cbn; eauto|].
    work_and_coinbase_checks.
Qed.



Lemma firstViolated_None k l : firstViolated k l = None <-> Forall (eq true) l.
Proof.
  revert k. induction l as [|[] l IH]; intros k; cbn [firstViolated].
  - split; [constructor|reflexivity].
  - rewrite IH. split; [now constructor|now inversion 1].
  - split; [discriminate|]. inversion 1. discriminate.
Qed.




End validator.

Definition genesisShare : Share :=
  {| Header := {| Version := 1; PrevBlockHash := replicate 32 zero;
                  MerkleRoot := replicate 32 zero; Timestamp := 1700000000;
                  Bits := 0x207fffff; Nonce := 7 |};
     ShareVersion := 1; PrevShareHash := zeroHash;
     ShareTarget := Some MaxShareTarget; MinerAddress := "tb1qtest1";
     CoinbaseTx := [zero]; ShareChainNonce := 0; hash := None |}.






End validation_facts.

(** ** Merkle branches *)
Module work_facts.
Import work.

Lemma hex_byte_roundtrip (v : byte) :
  hex.fromHexChar (hex.hexDigit (Z_of_byte v ≫ 4)) = Some (Z_of_byte v ≫ 4)
  /\ hex.fromHexChar (hex.hexDigit (Z.land (Z_of_byte v) 0x0f)) = Some (Z.land (Z_of_byte v) 0x0f)
  /\ byte_of_Z (Z.lor ((Z_of_byte v ≫ 4) ≪ 4) (Z.land (Z_of_byte v) 0x0f)) = v.
Proof.
  destruct v as [[] [] [] [] [] [] [] []]; vm_compute; auto.
Qed.

Lemma DecodeString_EncodeToString (b : list byte) :
  hex.DecodeString (hex.EncodeToString b) = Ok b.
Proof.
  induction b as [|v b IH]; [reflexivity|].
  cbn [hex.EncodeToString hex.DecodeString].
  destruct (hex_byte_roundtrip v) as (-> & -> & Hv).
  rewrite IH, Hv. reflexivity.
Qed.

Section merkle.
Variable Sum256 : list byte -> list byte.

Local Abbreviation H := (util.DoubleSHA256 Sum256).

Lemma decodeHashes_encoded i (T : list (list byte)) :
  decodeHashes i (map hex.EncodeToString T) = Ok T.
Proof.
  revert i. induction T as [|t T IH]; intros i; [reflexivity|].
  cbn [map decodeHashes]. now rewrite DecodeString_EncodeToString, IH.
Qed.

Lemma branchLoop_acc hashes acc :
  branchLoop Sum256 hashes acc = acc ++ branchLoop Sum256 hashes [].
Proof.
  revert acc.
  induction hashes as [hashes IH] using (induction_ltof1 _ (@length _)).
  unfold ltof in IH. intros acc.
  destruct hashes as [|h [|r0 r]]; simp branchLoop.
  - now rewrite app_nil_r.
  - reflexivity.
  - pose proof (pairRemaining_length Sum256 (r0 :: r)) as Hlen.
    rewrite (IH (pairRemaining Sum256 (r0 :: r))) by (cbn [length] in *; lia).
    rewrite (IH (pairRemaining Sum256 (r0 :: r)) ltac:(cbn [length] in *; lia)
               ([] ++ [hex.EncodeToString h])).
    now rewrite app_assoc.
Qed.

Lemma dupLast_cons2 (a b : list byte) (r : list (list byte)) :
  dupLast (a :: b :: r) = a :: b :: dupLast r.
Proof.
  unfold dupLast. cbn [length Nat.even].
  destruct (Nat.even (length r)) eqn:He; [reflexivity|].
  destruct r as [|c r]; [discriminate|]. reflexivity.
Qed.

Lemma pairLevel_dupLast (l : list (list byte)) :
  pairLevel Sum256 (dupLast l) = pairRemaining Sum256 l.
Proof.
  induction l as [l IH] using (induction_ltof1 _ (@length _)). unfold ltof in IH.
  destruct l as [|a [|b r]]; [reflexivity|reflexivity|].
  rewrite dupLast_cons2. cbn [pairLevel pairRemaining].
  rewrite IH by (cbn [length]; lia). reflexivity.
Qed.

Lemma merkleFold_branches (T : list (list byte)) :
  forall c, merkleFold Sum256 c (branchLoop Sum256 T []) = Ok (fullLoop Sum256 (c :: T)).
Proof.
  induction T as [T IH] using (induction_ltof1 _ (@length _)). unfold ltof in IH.
  intros c. destruct T as [|t [|r0 r]].
  - simp branchLoop fullLoop. reflexivity.
  - simp branchLoop fullLoop. cbn [app merkleFold].
    rewrite DecodeString_EncodeToString. reflexivity.
  - simp branchLoop fullLoop. rewrite branchLoop_acc.
    cbn [app merkleFold]. rewrite DecodeString_EncodeToString.
    pose proof (pairRemaining_length Sum256 (r0 :: r)) as Hlen.
    rewrite IH by (cbn [length] in *; lia).
    unfold nextLevel. rewrite dupLast_cons2. cbn [pairLevel].
    now rewrite pairLevel_dupLast.
Qed.

(** C3. For every list [T] of transaction hashes and every coinbase hash
    [c], [ComputeMerkleBranches] succeeds on the hex forms of [T], and
    folding [c] through the branches it returns gives exactly
    [ComputeFullMerkleRoot] of the leaf list [c :: T]. *)
Theorem branches_root_is_full_root (T : list (list byte)) (c : list byte) :
  exists branches,
    ComputeMerkleBranches Sum256 (map hex.EncodeToString T) = Ok branches
    /\ ComputeMerkleRoot Sum256 c branches = Ok (ComputeFullMerkleRoot Sum256 (c :: T)).
Proof.
  unfold ComputeMerkleBranches, ComputeMerkleRoot, ComputeFullMerkleRoot.
  cbn [length Nat.eqb]. rewrite length_map.
  destruct T as [|t T'].
  - exists []. split; [reflexivity|]. simp fullLoop. reflexivity.
  - cbn [length Nat.eqb]. rewrite decodeHashes_encoded.
    eexists. split; [reflexivity|]. apply merkleFold_branches.
Qed.

End merkle.

End work_facts.

(** ** PPLNS payouts *)
Module pplns_facts.
Import types pplns.

Lemma int64_id x : MinInt64 <= x <= MaxInt64 -> int64 x = x.
Proof.
  unfold int64, MinInt64, MaxInt64. intros Hx.
  rewrite Z.mod_small by lia. lia.
Qed.

(** An [int64] operation whose exact result is in range does not wrap. *)
Ltac in_int64 := unfold MinInt64, MaxInt64 in *; lia.
Ltac no_wrap := rewrite ?int64_id by in_int64.
Tactic Notation "no_wrap" "at" constr(x) := rewrite (int64_id x) by in_int64.

Lemma mapTotal_empty : mapTotal ∅ = 0.
Proof. unfold mapTotal. apply map_fold_empty. Qed.

Lemma mapTotal_insert_fresh (m : gmap string Z) k v :
  m !! k = None -> mapTotal (<[k := v]> m) = v + mapTotal m.
Proof.
  intros Hk. unfold mapTotal. rewrite map_fold_insert_L; [reflexivity| |assumption].
  intros. lia.
Qed.

Lemma mapTotal_delete (m : gmap string Z) k v :
  m !! k = Some v -> mapTotal (delete k m) = mapTotal m - v.
Proof.
  intros Hk. unfold mapTotal.
  rewrite (map_fold_delete_L _ _ k v m); [lia| |assumption].
  intros. lia.
Qed.

Lemma mapTotal_insert (m : gmap string Z) k v :
  mapTotal (<[k := v]> m) = v + mapTotal m - default 0 (m !! k).
Proof.
  destruct (m !! k) as [old|] eqn:Hk; simpl.
  - rewrite <- insert_delete_eq.
    rewrite mapTotal_insert_fresh by apply lookup_delete_eq.
    rewrite (mapTotal_delete m k old Hk). lia.
  - rewrite mapTotal_insert_fresh by assumption. lia.
Qed.

Lemma positive_empty : positive ∅.
Proof. intros a v. rewrite lookup_empty. discriminate. Qed.

Lemma positive_insert m k v : positive m -> 0 < v -> positive (<[k := v]> m).
Proof.
  intros Hm Hv a x. rewrite lookup_insert. case_decide; [intros [= <-]; lia|apply Hm].
Qed.

Lemma positive_delete m k : positive m -> positive (delete k m).
Proof.
  intros Hm a x. rewrite lookup_delete. case_decide; [discriminate|apply Hm].
Qed.

Lemma mapTotal_nonneg m : positive m -> 0 <= mapTotal m.
Proof.
  induction m as [|k v m Hk IH] using map_ind; intros Hpos.
  - rewrite mapTotal_empty. lia.
  - rewrite mapTotal_insert_fresh by assumption.
    assert (0 < v) by (apply (Hpos k); apply lookup_insert_eq).
    assert (positive m).
    { intros a x Ha. apply (Hpos a). rewrite lookup_insert_ne; [assumption|].
      intros ->. congruence. }
    specialize (IH ltac:(assumption)). lia.
Qed.

Lemma lookup_le_mapTotal m a v : positive m -> m !! a = Some v -> v <= mapTotal m.
Proof.
  intros Hpos Ha.
  pose proof (mapTotal_delete m a v Ha).
  pose proof (mapTotal_nonneg (delete a m) (positive_delete m a Hpos)). lia.
Qed.

Lemma default_lookup_range m a : positive m -> 0 <= default 0 (m !! a) <= mapTotal m.
Proof.
  intros Hpos. pose proof (mapTotal_nonneg m Hpos).
  destruct (m !! a) as [v|] eqn:Ha; simpl; [|lia].
  pose proof (Hpos a v Ha). pose proof (lookup_le_mapTotal m a v Hpos Ha). lia.
Qed.

Lemma addTo_spec m a v :
  positive m -> 0 < v -> mapTotal m + v <= MaxInt64 ->
  addTo m a v = <[a := default 0 (m !! a) + v]> m
  /\ mapTotal (addTo m a v) = mapTotal m + v
  /\ positive (addTo m a v).
Proof.
  intros Hpos Hv Hmax. pose proof (default_lookup_range m a Hpos).
  unfold addTo. rewrite int64_id by in_int64.
  repeat split.
  - rewrite mapTotal_insert. lia.
  - apply positive_insert; [assumption|lia].
Qed.

(** *** Miner weights *)

Definition weightSum (wm : gmap string Z) (l : list string) : Z :=
  foldr (fun a acc => default 0 (wm !! a) + acc) 0 l.

Lemma weightSum_Permutation wm l1 l2 : l1 ≡ₚ l2 -> weightSum wm l1 = weightSum wm l2.
Proof.
  unfold weightSum.
  induction 1 as [|x l l' _ IH|x y l|l l' l'' _ IH1 _ IH2]; cbn [foldr]; lia.
Qed.

Lemma weightSum_keys (wm : gmap string Z) :
  weightSum wm (map_to_list wm).*1 = mapTotal wm.
Proof.
  unfold mapTotal. rewrite map_fold_foldr.
  assert (forall l : list (string * Z),
             (forall k v, (k, v) ∈ l -> wm !! k = Some v) ->
             weightSum wm l.*1 = foldr (uncurry (fun (_ : string) v acc => v + acc)) 0 l) as Hl.
  { induction l as [|[k v] l IH]; intros Hin; [reflexivity|].
    cbn [fmap list_fmap weightSum foldr uncurry fst]. fold (weightSum wm l.*1).
    rewrite (Hin k v) by (now left). simpl.
    rewrite IH; [reflexivity|]. intros k' v' H'. apply Hin. now right. }
  apply Hl. intros k v. apply elem_of_map_to_list.
Qed.

Lemma weightStep_total w m s :
  mapTotal (weightStep w m s) = mapTotal m + ShareWeight w s.
Proof.
  unfold weightStep. destruct (m !! MinerAddress s) as [e|] eqn:He.
  - rewrite mapTotal_insert, He. simpl. lia.
  - rewrite mapTotal_insert_fresh by assumption. lia.
Qed.

Lemma MinerWeights_total w : mapTotal (MinerWeights w) = TotalWeight w.
Proof.
  unfold MinerWeights, TotalWeight.
  assert (forall l m t, mapTotal m = t ->
            mapTotal (foldl (weightStep w) m l)
            = foldl (fun total share => total + ShareWeight w share) t l) as H.
  { induction l as [|s l IH]; intros m t Hm; [assumption|].
    cbn [foldl]. apply IH. rewrite weightStep_total. lia. }
  apply H, mapTotal_empty.
Qed.

Lemma MinerWeights_nonneg w :
  Forall (fun s => 0 <= ShareWeight w s) (shares w) ->
  forall a, 0 <= default 0 (MinerWeights w !! a).
Proof.
  intros Hall. unfold MinerWeights.
  assert (forall l m, Forall (fun s => 0 <= ShareWeight w s) l ->
            (forall a, 0 <= default 0 (m !! a)) ->
            forall a, 0 <= default 0 (foldl (weightStep w) m l !! a)) as H.
  { induction l as [|s l IH]; intros m Hl Hm; [assumption|].
    inversion Hl as [|? ? Hs Hl']; subst. cbn [foldl]. apply IH; [assumption|].
    intros a. unfold weightStep.
    destruct (m !! MinerAddress s) as [e|] eqn:He.
    - rewrite lookup_insert. case_decide; simpl; [|apply Hm].
      specialize (Hm (MinerAddress s)). rewrite He in Hm. simpl in Hm. lia.
    - rewrite lookup_insert. case_decide; simpl; [lia|apply Hm]. }
  apply H; [assumption|]. intros a. rewrite lookup_empty. simpl. lia.
Qed.

Lemma ShareWeight_nonneg w s :
  0 <= maxTarget w -> (forall t, ShareTarget s = Some t -> 0 <= t) ->
  0 <= ShareWeight w s.
Proof.
  intros Hmax Ht. unfold ShareWeight.
  destruct (ShareTarget s) as [t|]; [|lia].
  specialize (Ht t eq_refl).
  destruct (Z.eqb_spec t 0); [lia|].
  unfold util.big_Div. destruct (Z.ltb_spec 0 t); [|lia].
  apply Z.div_pos; lia.
Qed.

Lemma sortStrings_Permutation l : sortStrings l ≡ₚ l.
Proof. apply merge_sort_Permutation. Qed.

#[local] Instance string_le_total : Total string_le.
Proof. intros a b. apply String.leb_total. Qed.

(** [sort.Strings] leaves the addresses in ascending byte order. *)
Lemma sortStrings_Sorted l : Sorted string_le (sortStrings l).
Proof. apply Sorted_merge_sort, _. Qed.

Lemma weightSum_nonneg wm l :
  (forall a, 0 <= default 0 (wm !! a)) -> 0 <= weightSum wm l.
Proof.
  intros Hw. induction l as [|x l IH]; cbn [weightSum foldr]; [lia|].
  fold (weightSum wm l). specialize (Hw x). lia.
Qed.

(** *** The proportional loop *)

Lemma proportional_loop D W wm addrs :
  0 <= D <= MaxInt64 -> 0 < W -> (forall a, 0 <= default 0 (wm !! a)) ->
  NoDup addrs ->
  forall P0 d0,
    positive P0 -> d0 = mapTotal P0 ->
    (forall a, a ∈ addrs -> P0 !! a = None) ->
    W * d0 + D * weightSum wm addrs <= D * W ->
    positive (foldl (proportionalStep D W wm) (P0, d0) addrs).1
    /\ (foldl (proportionalStep D W wm) (P0, d0) addrs).2
       = mapTotal (foldl (proportionalStep D W wm) (P0, d0) addrs).1
    /\ (foldl (proportionalStep D W wm) (P0, d0) addrs).2 <= D
    /\ (forall a, is_Some ((foldl (proportionalStep D W wm) (P0, d0) addrs).1 !! a) ->
                  is_Some (P0 !! a) \/ a ∈ addrs).
Proof.
  intros HD HW Hw. induction 1 as [|a addrs Hnotin Hnodup IH];
    intros P0 d0 Hpos Hd Hfresh Hinv.
  - cbn [foldl fst snd]. cbn in Hinv. repeat split; auto.
    pose proof (mapTotal_nonneg P0 Hpos). nia.
  - cbn [foldl]. cbn [weightSum foldr] in Hinv. fold (weightSum wm addrs) in Hinv.
    pose proof (Hw a) as Hwa. set (wa := default 0 (wm !! a)) in *.
    pose proof (weightSum_nonneg wm addrs Hw) as Hrest.
    pose proof (mapTotal_nonneg P0 Hpos) as Hd0. rewrite <- Hd in Hd0.
    set (q := D * wa / W).
    assert (0 <= q /\ q * W <= D * wa) as [Hq0 HqW].
    { unfold q. split; [apply Z.div_pos; nia|].
      rewrite Z.mul_comm. apply Z.mul_div_le. lia. }
    assert (d0 + q <= D) as HqD by nia.
    assert (proportionalStep D W wm (P0, d0) a
            = if 0 <? q then (<[a := q]> P0, d0 + q) else (P0, d0)) as ->.
    { unfold proportionalStep. fold wa. unfold util.big_Div.
      destruct (Z.ltb_spec 0 W); [|lia]. fold q.
      assert (IsInt64 q = true) as ->.
      { unfold IsInt64, MinInt64, MaxInt64 in *.
        apply andb_true_iff. split; apply Z.leb_le; lia. }
      destruct (0 <? q); [|reflexivity].
      now rewrite int64_id by in_int64. }
    destruct (Z.ltb_spec 0 q) as [Hqpos|Hqz].
    + 
      assert (P0 !! a = None) as Ha by (apply Hfresh; now left).
      assert (positive (<[a := q]> P0)) as A1 by now apply positive_insert.
      assert (d0 + q = mapTotal (<[a := q]> P0)) as A2
        by (rewrite mapTotal_insert_fresh by assumption; lia).
      assert (forall a', a' ∈ addrs -> <[a := q]> P0 !! a' = None) as A3.
      { intros a' Ha'. rewrite lookup_insert_ne by (intros ->; contradiction).
        apply Hfresh. now right. }
      assert (W * (d0 + q) + D * weightSum wm addrs <= D * W) as A4 by nia.
      destruct (IH (<[a := q]> P0) (d0 + q) A1 A2 A3 A4) as (H1 & H2 & H3 & H4).
      split; [exact H1|split; [exact H2|split; [exact H3|]]].
      intros a' Ha'. destruct (H4 a' Ha') as [Hs|Hin].
      * rewrite lookup_insert in Hs. case_decide; [subst; right; now left|now left].
      * right. now right.
    + assert (forall a', a' ∈ addrs -> P0 !! a' = None) as A3
        by (intros a' Ha'; apply Hfresh; now right).
      assert (W * d0 + D * weightSum wm addrs <= D * W) as A4 by nia.
      destruct (IH P0 d0 Hpos Hd A3 A4) as (H1 & H2 & H3 & H4).
      split; [exact H1|split; [exact H2|split; [exact H3|]]].
      intros a' Ha'. destruct (H4 a' Ha'); [now left|right; now right].
Qed.

(** *** The payouts before dust consolidation *)

Lemma addresses_spec (w : Window) :
  let addrs := sortStrings (map_to_list (MinerWeights w)).*1 in
  NoDup addrs /\ weightSum (MinerWeights w) addrs = TotalWeight w
  /\ (TotalWeight w <> 0 -> addrs <> []).
Proof.
  intros addrs. pose proof (sortStrings_Permutation (map_to_list (MinerWeights w)).*1) as Hp.
  fold addrs in Hp. repeat split.
  - rewrite Hp. apply NoDup_fst_map_to_list.
  - rewrite (weightSum_Permutation _ _ _ Hp), weightSum_keys. apply MinerWeights_total.
  - intros HW Hnil. rewrite Hnil in Hp. symmetry in Hp. apply Permutation_nil_r in Hp.
    apply fmap_nil_inv in Hp. apply map_to_list_empty_iff in Hp.
    rewrite <- MinerWeights_total, Hp, mapTotal_empty in HW. lia.
Qed.

Lemma payoutsBeforeDust_spec c w totalReward finderAddress :
  0 < totalReward <= MaxInt64 -> feeInRange c totalReward -> weightsNonneg w ->
  TotalWeight w <> 0 ->
  positive (payoutsBeforeDust c w totalReward finderAddress).1
  /\ mapTotal (payoutsBeforeDust c w totalReward finderAddress).1 = totalReward
  /\ (finderAddress = "" ->
      forall a, is_Some ((payoutsBeforeDust c w totalReward finderAddress).1 !! a) ->
                a ∈ (payoutsBeforeDust c w totalReward finderAddress).2).
Proof.
  intros Htot Hfee Hw HW. unfold feeInRange in Hfee. unfold payoutsBeforeDust.
  set (fee := finderFeeOf c totalReward) in *.
  no_wrap at (totalReward - fee).
  set (D := totalReward - fee).
  set (mw := MinerWeights w).
  set (addrs := sortStrings (map_to_list mw).*1).
  destruct (addresses_spec w) as (Hnodup & Hsum & Hne). fold mw addrs in Hnodup, Hsum, Hne.
  pose proof (MinerWeights_nonneg w Hw) as Hmw. fold mw in Hmw.
  assert (0 < TotalWeight w) as HWpos.
  { pose proof (weightSum_nonneg mw addrs Hmw). lia. }
  destruct (proportional_loop D (TotalWeight w) mw addrs ltac:(lia) HWpos Hmw Hnodup
              ∅ 0 positive_empty) as (H1 & H2 & H3 & H4).
  { now rewrite mapTotal_empty. }
  { intros a _. apply lookup_empty. }
  { rewrite Hsum. lia. }
  destruct (foldl _ _ addrs) as [P1 d1]. cbn [fst snd] in H1, H2, H3, H4.
  assert (forall a, is_Some (P1 !! a) -> a ∈ addrs) as Hkeys.
  { intros a Ha. destruct (H4 a Ha) as [Hs|]; [|assumption].
    rewrite lookup_empty in Hs. now destruct Hs. }
  pose proof (mapTotal_nonneg P1 H1) as Hd1.
  destruct (String.eqb_spec finderAddress "") as [Hf|Hf]; cbn [negb andb].
  - (* no finder *)
    no_wrap at (totalReward - d1).
    destruct (Z.ltb_spec 0 (totalReward - d1)) as [Hrem|Hrem].
    + destruct addrs as [|a0 rest] eqn:Ea; [now contradiction Hne|].
      destruct (addTo_spec P1 a0 (totalReward - d1) H1 Hrem ltac:(lia)) as (He & Ht & Hp).
      cbn [fst snd]. repeat split; [assumption|lia|].
      intros _ a. rewrite He, lookup_insert. case_decide; [subst; now left|apply Hkeys].
    + cbn [fst snd]. repeat split; [assumption|lia|]. intros _. exact Hkeys.
  - (* a finder *)
    destruct (Z.ltb_spec 0 fee) as [Hfeepos|Hfeez].
    + destruct (addTo_spec P1 finderAddress fee H1 Hfeepos ltac:(lia)) as (He & Ht & Hp).
      no_wrap at (d1 + fee).
      no_wrap at (totalReward - (d1 + fee)).
      destruct (Z.ltb_spec 0 (totalReward - (d1 + fee))) as [Hrem|Hrem].
      * destruct (addTo_spec _ finderAddress _ Hp Hrem ltac:(lia)) as (He' & Ht' & Hp').
        cbn [fst snd]. repeat split; [assumption|lia|]. intros ->. contradiction.
      * cbn [fst snd]. repeat split; [assumption|lia|]. intros ->. contradiction.
    + no_wrap at (totalReward - d1).
      destruct (Z.ltb_spec 0 (totalReward - d1)) as [Hrem|Hrem].
      * destruct (addTo_spec P1 finderAddress _ H1 Hrem ltac:(lia)) as (He' & Ht' & Hp').
        cbn [fst snd]. repeat split; [assumption|lia|]. intros ->. contradiction.
      * cbn [fst snd]. repeat split; [assumption|lia|]. intros ->. contradiction.
Qed.

(** *** Dust consolidation *)

Definition sumZ (l : list Z) : Z := foldr Z.add 0 l.

Lemma sumZ_Permutation l1 l2 : l1 ≡ₚ l2 -> sumZ l1 = sumZ l2.
Proof.
  unfold sumZ.
  induction 1 as [|x l l' _ IH|x y l|l l' l'' _ IH1 _ IH2]; cbn [foldr]; lia.
Qed.

Lemma mapTotal_sumZ (m : gmap string Z) : mapTotal m = sumZ (map_to_list m).*2.
Proof.
  unfold mapTotal. rewrite map_fold_foldr.
  induction (map_to_list m) as [|[k v] l IH]; [reflexivity|].
  cbn [foldr fmap list_fmap uncurry snd sumZ]. fold (sumZ l.*2). now rewrite IH.
Qed.

Lemma map_to_list_filter (Q : string * Z -> Prop) `{!forall e, Decision (Q e)}
    (m : gmap string Z) :
  map_to_list (filter Q m) ≡ₚ filter Q (map_to_list m).
Proof.
  apply NoDup_Permutation.
  - apply NoDup_map_to_list.
  - apply NoDup_filter, NoDup_map_to_list.
  - intros [k v]. rewrite elem_of_map_to_list, map_lookup_filter_Some.
    rewrite list_elem_of_filter, elem_of_map_to_list. tauto.
Qed.

Lemma dustStep_test c finderAddress addr amount :
  (amount <? dustThresholdSats c) && negb (String.eqb addr finderAddress)
  = bool_decide (isDust c finderAddress (addr, amount)).
Proof.
  unfold isDust. cbn [fst snd].
  destruct (Z.ltb_spec amount (dustThresholdSats c));
    destruct (String.eqb_spec addr finderAddress); cbn [negb andb]; symmetry;
    (apply bool_decide_eq_true_2 || apply bool_decide_eq_false_2); tauto || lia.
Qed.

Lemma dustStep_foldl c finderAddress (l : list (string * Z)) :
  forall t0 d0,
    Forall (fun e => 0 < e.2) l -> 0 <= t0 -> t0 + sumZ l.*2 <= MaxInt64 ->
    foldl (dustStep (dustThresholdSats c) finderAddress) (t0, d0) l
    = (t0 + sumZ (filter (isDust c finderAddress) l).*2,
       d0 ++ (filter (isDust c finderAddress) l).*1).
Proof.
  induction l as [|[addr amount] l IH]; intros t0 d0 Hpos Ht0 Hmax.
  - cbn. now rewrite Z.add_0_r, app_nil_r.
  - inversion Hpos as [|? ? Ha Hl]; subst. cbn [fst snd] in Ha.
    cbn [fmap list_fmap sumZ foldr snd] in Hmax. fold (sumZ l.*2) in Hmax.
    assert (0 <= sumZ l.*2) as Hrest.
    { clear -Hl. induction Hl as [|[k v] l Hv _ IHl]; [cbn; lia|].
      cbn [fmap list_fmap sumZ foldr snd] in *. fold (sumZ l.*2). lia. }
    cbn [foldl]. unfold dustStep at 2. rewrite dustStep_test.
    rewrite filter_cons. destruct (decide (isDust c finderAddress (addr, amount))) as [Hd|Hd].
    + rewrite bool_decide_eq_true_2 by assumption.
      rewrite int64_id by in_int64.
      rewrite IH by (try assumption; lia).
      cbn [fmap list_fmap sumZ foldr fst snd]. fold (sumZ (filter (isDust c finderAddress) l).*2).
      f_equal; [lia|]. now rewrite <- app_assoc.
    + rewrite bool_decide_eq_false_2 by assumption.
      rewrite IH by (try assumption; lia). reflexivity.
Qed.

Lemma positive_Forall m : positive m -> Forall (fun e : string * Z => 0 < e.2) (map_to_list m).
Proof.
  intros Hpos. apply Forall_forall. intros [k v] Hin.
  apply elem_of_map_to_list in Hin. apply (Hpos k v Hin).
Qed.

Lemma dustScan_spec c finderAddress payouts :
  positive payouts -> mapTotal payouts <= MaxInt64 ->
  dustScan c payouts finderAddress
  = (mapTotal (dustOf c finderAddress payouts),
     (filter (isDust c finderAddress) (map_to_list payouts)).*1).
Proof.
  intros Hpos Hmax. unfold dustScan.
  rewrite dustStep_foldl.
  - cbn [app]. f_equal. rewrite Z.add_0_l. unfold dustOf.
    rewrite mapTotal_sumZ. apply sumZ_Permutation.
    now rewrite map_to_list_filter.
  - now apply positive_Forall.
  - lia.
  - rewrite <- mapTotal_sumZ. lia.
Qed.

Lemma dustAddresses_spec c finderAddress (payouts : gmap string Z) a :
  a ∈ (filter (isDust c finderAddress) (map_to_list payouts)).*1
  <-> exists v, payouts !! a = Some v /\ isDust c finderAddress (a, v).
Proof.
  rewrite list_elem_of_fmap. split.
  - intros ([k v] & -> & Hin). apply list_elem_of_filter in Hin as [Hd Hin].
    apply elem_of_map_to_list in Hin. eauto.
  - intros (v & Hv & Hd). exists (a, v). split; [reflexivity|].
    apply list_elem_of_filter. split; [assumption|]. now apply elem_of_map_to_list.
Qed.

Lemma dustAddresses_length c finderAddress (payouts : gmap string Z) :
  length (filter (isDust c finderAddress) (map_to_list payouts)).*1
  = size (dustOf c finderAddress payouts).
Proof.
  rewrite length_fmap. unfold dustOf.
  rewrite <- (length_map_to_list (filter _ payouts)).
  apply Permutation_length. symmetry. apply map_to_list_filter.
Qed.

Lemma lookup_foldl_delete (m : gmap string Z) (ds : list string) a :
  foldl (fun m addr => delete addr m) m ds !! a
  = if decide (a ∈ ds) then None else m !! a.
Proof.
  revert m. induction ds as [|d ds IH]; intros m; cbn [foldl].
  - case_decide as H; [now apply elem_of_nil in H|reflexivity].
  - rewrite IH. destruct (decide (a ∈ ds)) as [Hin|Hnin].
    + rewrite decide_True by (now right). reflexivity.
    + rewrite lookup_delete. destruct (decide (d = a)) as [->|Hne].
      * rewrite decide_True by (now left). reflexivity.
      * rewrite decide_False; [reflexivity|].
        intros Hin. apply elem_of_cons in Hin as [->|]; congruence.
Qed.

Lemma foldl_delete_kept c finderAddress (payouts : gmap string Z) :
  foldl (fun m addr => delete addr m) payouts
    (filter (isDust c finderAddress) (map_to_list payouts)).*1
  = keptOf c finderAddress payouts.
Proof.
  apply map_eq. intros a. rewrite lookup_foldl_delete. unfold keptOf.
  destruct (decide (a ∈ _)) as [Hin|Hnin].
  - apply dustAddresses_spec in Hin as (v & Hv & Hd).
    symmetry. apply map_lookup_filter_None. right. intros x Hx.
    assert (x = v) as -> by congruence. tauto.
  - destruct (payouts !! a) as [v|] eqn:Hv.
    + symmetry. apply map_lookup_filter_Some. split; [assumption|].
      intros Hd. apply Hnin. apply dustAddresses_spec. eauto.
    + symmetry. apply map_lookup_filter_None. now left.
Qed.

Lemma mapTotal_split c finderAddress (payouts : gmap string Z) :
  mapTotal (keptOf c finderAddress payouts) + mapTotal (dustOf c finderAddress payouts)
  = mapTotal payouts.
Proof.
  unfold keptOf, dustOf.
  rewrite <- (map_filter_union_complement (isDust c finderAddress) payouts) at 3.
  unfold mapTotal at 3.
  rewrite map_fold_disj_union;
    [|apply map_disjoint_filter_complement|intros; lia].
  rewrite <- (Z.add_0_r (map_fold _ 0 (filter (fun e => ~ isDust c finderAddress e) payouts))).
  rewrite (map_fold_comm_acc _ (fun y => map_fold (fun _ v acc => v + acc) 0
             (filter (fun e => ~ isDust c finderAddress e) payouts) + y))
    by (intros; lia).
  unfold mapTotal. lia.
Qed.

Lemma positive_filter (Q : string * Z -> Prop) `{!forall e, Decision (Q e)} m :
  positive m -> positive (filter Q m).
Proof. intros Hpos a v Hv. apply map_lookup_filter_Some in Hv as [Hv _]. eauto. Qed.

Lemma mapTotal_pos_iff m : positive m -> (0 < mapTotal m <-> m <> ∅).
Proof.
  intros Hpos. split.
  - intros Ht ->. rewrite mapTotal_empty in Ht. lia.
  - intros Hne. destruct (map_choose m Hne) as (k & v & Hkv).
    pose proof (Hpos k v Hkv). pose proof (lookup_le_mapTotal m k v Hpos Hkv). lia.
Qed.

Lemma consolidateDust_consolidated c addresses finderAddress payouts :
  positive payouts -> mapTotal payouts <= MaxInt64 ->
  consolidateDust c addresses finderAddress payouts
  = consolidated c addresses finderAddress payouts.
Proof.
  intros Hpos Hmax. unfold consolidateDust, consolidated.
  rewrite dustScan_spec by assumption.
  rewrite dustAddresses_length, foldl_delete_kept.
  set (dust := dustOf c finderAddress payouts).
  set (kept := keptOf c finderAddress payouts).
  pose proof (mapTotal_split c finderAddress payouts) as Hsplit. fold dust kept in Hsplit.
  assert (positive dust) as Hpd by (apply positive_filter; assumption).
  assert (positive kept) as Hpk by (apply positive_filter; assumption).
  pose proof (mapTotal_nonneg kept Hpk). pose proof (mapTotal_nonneg dust Hpd).
  pose proof (mapTotal_pos_iff dust Hpd) as Hiff.
  destruct (Nat.ltb_spec (size dust) (size payouts)) as [Hlt|Hge].
  - rewrite decide_True by assumption. unfold dustRecipient.
    destruct (Z.ltb_spec 0 (mapTotal dust)) as [Hdt|Hdt].
    + assert (dust <> ∅) as Hne by (apply Hiff; assumption).
      destruct (String.eqb_spec finderAddress "") as [Hf|Hf]; cbn [negb].
      * rewrite decide_True by assumption.
        destruct (List.find _ addresses) as [r|]; [|reflexivity].
        rewrite decide_False by assumption.
        apply (addTo_spec kept r (mapTotal dust) Hpk Hdt). lia.
      * rewrite decide_False by assumption. rewrite decide_False by assumption.
        apply (addTo_spec kept finderAddress (mapTotal dust) Hpk Hdt). lia.
    + assert (dust = ∅) as He.
      { destruct (decide (dust = ∅)); [assumption|]. apply Hiff in n. lia. }
      destruct (decide (finderAddress = "")).
      * destruct (List.find _ addresses); [|reflexivity]. now rewrite decide_True.
      * now rewrite decide_True.
  - rewrite decide_False by lia. reflexivity.
Qed.

Lemma find_is_Some {A} (f : A -> bool) (l : list A) x :
  x ∈ l -> f x = true -> is_Some (List.find f l).
Proof.
  intros Hin Hfx. induction Hin as [x l|x y l _ IH]; cbn [List.find].
  - rewrite Hfx. eauto.
  - destruct (f y); eauto.
Qed.

Lemma consolidated_total c addresses finderAddress payouts :
  positive payouts ->
  (finderAddress = "" -> forall a, is_Some (payouts !! a) -> a ∈ addresses) ->
  mapTotal (consolidated c addresses finderAddress payouts) = mapTotal payouts.
Proof.
  intros Hpos Hkeys. unfold consolidated.
  set (dust := dustOf c finderAddress payouts).
  set (kept := keptOf c finderAddress payouts).
  pose proof (mapTotal_split c finderAddress payouts) as Hsplit. fold dust kept in Hsplit.
  assert (positive kept) as Hpk by (apply positive_filter; assumption).
  destruct (decide (size dust < size payouts)%nat) as [Hlt|]; [|reflexivity].
  destruct (decide (dust = ∅)) as [He|Hne].
  { assert (mapTotal kept = mapTotal payouts)
      by (rewrite He, mapTotal_empty in Hsplit; lia).
    destruct (dustRecipient _ _ _); assumption. }
  assert (is_Some (dustRecipient addresses finderAddress kept)) as [r ->].
  { unfold dustRecipient. destruct (decide (finderAddress = "")) as [Hf|]; [|eauto].
    assert (kept <> ∅) as Hkne.
    { intros Hk. apply map_size_empty_iff in Hk.
      assert (size kept + size dust = size payouts)%nat as Hsz; [|lia].
      unfold kept, dust, keptOf, dustOf.
      rewrite <- (map_filter_union_complement (isDust c finderAddress) payouts) at 3.
      rewrite map_size_disj_union by apply map_disjoint_filter_complement. lia. }
    destruct (map_choose kept Hkne) as (a & v & Hav).
    apply (find_is_Some _ _ a).
    - apply Hkeys; [assumption|]. apply map_lookup_filter_Some in Hav as [Hav _]. eauto.
    - apply bool_decide_eq_true_2. eauto. }
  rewrite mapTotal_insert. lia.
Qed.

Lemma totalAmount_Permutation l1 l2 : l1 ≡ₚ l2 -> totalAmount l1 = totalAmount l2.
Proof.
  unfold totalAmount.
  induction 1 as [|x l l' _ IH|x y l|l l' l'' _ IH1 _ IH2]; cbn [map foldr]; lia.
Qed.

Lemma sortedResult_total payouts : totalAmount (sortedResult payouts) = mapTotal payouts.
Proof.
  unfold sortedResult. rewrite (totalAmount_Permutation _ _ (merge_sort_Permutation _ _)).
  rewrite mapTotal_sumZ. unfold totalAmount.
  induction (map_to_list payouts) as [|[k v] l IH]; [reflexivity|].
  cbn [map foldr fmap list_fmap Amount fst snd sumZ]. fold (sumZ l.*2). now rewrite IH.
Qed.

Lemma payoutLess_asym x y : payoutLess x y = true -> payoutLess y x = false.
Proof.
  unfold payoutLess. rewrite (Z.eqb_sym (Amount y)).
  destruct (Z.eqb_spec (Amount x) (Amount y)) as [He|Hne]; cbn [negb].
  - unfold String.ltb. rewrite (String.compare_antisym (Address y)).
    destruct (String.compare (Address x) (Address y)); cbn; congruence.
  - intros H. apply Z.ltb_lt in H. apply Z.ltb_ge. lia.
Qed.

#[local] Instance payoutOrder_total : Total payoutOrder.
Proof.
  intros x y. unfold payoutOrder.
  destruct (payoutLess y x) eqn:E; [right; now apply payoutLess_asym|now left].
Qed.

(** The result is in the order of the comparison given to [sort.Slice]: no
    entry is followed by one that is less than it (a larger amount, or an
    equal amount and a smaller address). *)
Lemma sortedResult_Sorted payouts : Sorted payoutOrder (sortedResult payouts).
Proof. apply Sorted_merge_sort, _. Qed.

Lemma CalculatePayouts_Sorted c w totalReward finderAddress :
  Sorted payoutOrder (CalculatePayouts c w totalReward finderAddress).
Proof.
  unfold CalculatePayouts.
  destruct ((ShareCount w =? 0)%nat || (totalReward <=? 0)); [constructor|].
  destruct (TotalWeight w =? 0); [constructor|].
  destruct (payoutsBeforeDust c w totalReward finderAddress) as [payouts addresses].
  apply sortedResult_Sorted.
Qed.

Lemma targetsNonneg_weights w : targetsNonneg w -> weightsNonneg w.
Proof.
  intros [Hmax Hall]. unfold weightsNonneg.
  eapply Forall_impl; [exact Hall|]. intros s Hs. now apply ShareWeight_nonneg.
Qed.

Lemma TotalWeight_empty w : shares w = [] -> TotalWeight w = 0.
Proof. unfold TotalWeight. now intros ->. Qed.

(** The dust scan and the consolidation on any payouts map with positive
    amounts that sum to at most [MaxInt64]. *)
Lemma consolidateDust_spec c addresses finderAddress (payouts : gmap string Z) :
  positive payouts -> mapTotal payouts <= MaxInt64 ->
  (forall a, a ∈ (dustScan c payouts finderAddress).2
             <-> exists v, payouts !! a = Some v
                           /\ v < dustThresholdSats c /\ a <> finderAddress)
  /\ (dustScan c payouts finderAddress).1 = mapTotal (dustOf c finderAddress payouts)
  /\ length (dustScan c payouts finderAddress).2 = size (dustOf c finderAddress payouts)
  /\ consolidateDust c addresses finderAddress payouts
     = consolidated c addresses finderAddress payouts.
Proof.
  intros Hpos Hmax.
  pose proof (consolidateDust_consolidated c addresses finderAddress payouts Hpos Hmax) as Hc.
  rewrite dustScan_spec by assumption. cbn [fst snd].
  split; [|split; [reflexivity|split; [apply dustAddresses_length|exact Hc]]].
  intros a. rewrite dustAddresses_spec. unfold isDust. cbn [fst snd]. reflexivity.
Qed.

Lemma keptOf_no_dust c finderAddress (payouts : gmap string Z) :
  dustOf c finderAddress payouts = ∅ -> keptOf c finderAddress payouts = payouts.
Proof.
  intros He. unfold keptOf, dustOf in *.
  rewrite <- (map_filter_union_complement (isDust c finderAddress) payouts) at 2.
  rewrite He. now rewrite (left_id_L ∅ (∪)).
Qed.

Lemma size_kept_dust c finderAddress (payouts : gmap string Z) :
  (size (keptOf c finderAddress payouts) + size (dustOf c finderAddress payouts)
   = size payouts)%nat.
Proof.
  unfold keptOf, dustOf.
  rewrite <- (map_filter_union_complement (isDust c finderAddress) payouts) at 3.
  rewrite map_size_disj_union by apply map_disjoint_filter_complement. lia.
Qed.

Lemma dustRecipient_is_Some c addresses finderAddress (payouts : gmap string Z) :
  (finderAddress = "" -> forall a, is_Some (payouts !! a) -> a ∈ addresses) ->
  (size (dustOf c finderAddress payouts) < size payouts)%nat ->
  is_Some (dustRecipient addresses finderAddress (keptOf c finderAddress payouts)).
Proof.
  intros Hkeys Hlt. unfold dustRecipient.
  destruct (decide (finderAddress = "")) as [Hf|]; [|eauto].
  pose proof (size_kept_dust c finderAddress payouts) as Hsz.
  assert (keptOf c finderAddress payouts <> ∅) as Hkne.
  { intros Hk. apply map_size_empty_iff in Hk. lia. }
  destruct (map_choose _ Hkne) as (a & v & Hav).
  apply (find_is_Some _ _ a).
  - apply Hkeys; [assumption|]. apply map_lookup_filter_Some in Hav as [Hav _]. eauto.
  - apply bool_decide_eq_true_2. eauto.
Qed.

Lemma CalculatePayouts_unfold c w totalReward finderAddress :
  0 < totalReward -> TotalWeight w <> 0 ->
  CalculatePayouts c w totalReward finderAddress
  = sortedResult
      (consolidateDust c (payoutsBeforeDust c w totalReward finderAddress).2 finderAddress
         (payoutsBeforeDust c w totalReward finderAddress).1).
Proof.
  intros Htot HW. unfold CalculatePayouts, ShareCount.
  destruct (shares w) as [|s l] eqn:Es; [now rewrite TotalWeight_empty in HW|].
  cbn [length Nat.eqb orb].
  destruct (Z.leb_spec totalReward 0); [lia|].
  destruct (Z.eqb_spec (TotalWeight w) 0); [contradiction|].
  now destruct (payoutsBeforeDust c w totalReward finderAddress).
Qed.

(** C4. In a run of [CalculatePayouts] that reaches the dust step (positive
    reward, non-zero total weight; finder fee within the reward and no
    negative target), the scan collects exactly the addresses whose amount
    is below the threshold and that are not the finder, together with the
    sum of their amounts.  When there are fewer dust entries than payouts,
    the dust entries are deleted and their sum is added to the finder's
    payout, or without a finder to the first address of the sorted list that
    is still paid; when every payout is dust, the payouts stay as they are.
    The function returns the payouts so consolidated, sorted. *)
Theorem CalculatePayouts_dust_consolidation c w totalReward finderAddress :
  0 < totalReward <= MaxInt64 -> TotalWeight w <> 0 ->
  feeInRange c totalReward -> targetsNonneg w ->
  let payouts := (payoutsBeforeDust c w totalReward finderAddress).1 in
  let addresses := (payoutsBeforeDust c w totalReward finderAddress).2 in
  let dust := dustOf c finderAddress payouts in
  let kept := keptOf c finderAddress payouts in
  let after := consolidateDust c addresses finderAddress payouts in
  CalculatePayouts c w totalReward finderAddress = sortedResult after
  /\ (forall a, a ∈ (dustScan c payouts finderAddress).2
                <-> exists v, payouts !! a = Some v
                              /\ v < dustThresholdSats c /\ a <> finderAddress)
  /\ (dustScan c payouts finderAddress).1 = mapTotal dust
  /\ length (dustScan c payouts finderAddress).2 = size dust
  /\ ((size dust < size payouts)%nat ->
      exists r, dustRecipient addresses finderAddress kept = Some r
                /\ after = if decide (dust = ∅) then payouts
                           else <[r := default 0 (kept !! r) + mapTotal dust]> kept)
  /\ (size dust = size payouts -> after = payouts).
Proof.
  intros Htot HW Hfee Hw payouts addresses dust kept after.
  destruct (payoutsBeforeDust_spec c w totalReward finderAddress Htot Hfee
              (targetsNonneg_weights w Hw) HW) as (Hpos & Hsum & Hkeys).
  fold payouts addresses in Hpos, Hsum, Hkeys.
  destruct (consolidateDust_spec c addresses finderAddress payouts Hpos ltac:(lia))
    as (Hscan & Htotal & Hcount & Hcons).
  fold dust after in Htotal, Hcount, Hcons.
  split; [apply CalculatePayouts_unfold; lia|].
  split; [exact Hscan|]. split; [exact Htotal|]. split; [exact Hcount|]. split.
  - intros Hlt.
    destruct (dustRecipient_is_Some c addresses finderAddress payouts Hkeys Hlt) as [r Hr].
    fold kept in Hr. exists r. split; [exact Hr|].
    rewrite Hcons. unfold consolidated. fold dust kept.
    rewrite decide_True by assumption. rewrite Hr.
    destruct (decide (dust = ∅)) as [He|]; [|reflexivity].
    now apply keptOf_no_dust.
  - intros Heq. rewrite Hcons. unfold consolidated. fold dust.
    rewrite decide_False by lia. reflexivity.
Qed.

Definition dustWindow : Window :=
  NewWindow (replicate 999 (pplns_tests.makeShare "bigminer" pplns_tests.easyTarget)
             ++ [pplns_tests.makeShare "tinyminer" pplns_tests.easyTarget])
    pplns_tests.easyTarget.

Lemma dustWindow_reward : 0 < 1000 <= MaxInt64.
Proof. split; [reflexivity|discriminate]. Qed.

Lemma dustWindow_weight : TotalWeight dustWindow <> 0.
Proof. vm_compute. discriminate. Qed.

Lemma noFee_in_range dust totalReward :
  0 <= totalReward -> feeInRange (pplns_tests.noFee dust) totalReward.
Proof. intros H. split; cbn; lia. Qed.

Lemma dustWindow_targets : targetsNonneg dustWindow.
Proof.
  split; [vm_compute; discriminate|].
  apply Forall_forall. intros s Hs t.
  unfold dustWindow, NewWindow in Hs. cbn [shares] in Hs.
  apply elem_of_app in Hs as [Hs|Hs].
  - apply elem_of_replicate in Hs as [-> _]. intros [= <-]. vm_compute. discriminate.
  - apply list_elem_of_singleton in Hs as ->. intros [= <-]. vm_compute. discriminate.
Qed.

Lemma CalculatePayouts_dust_witness :
  CalculatePayouts (pplns_tests.noFee 546) dustWindow 1000 "bigminer"
  = sortedResult
      (consolidateDust (pplns_tests.noFee 546)
         (payoutsBeforeDust (pplns_tests.noFee 546) dustWindow 1000 "bigminer").2 "bigminer"
         (payoutsBeforeDust (pplns_tests.noFee 546) dustWindow 1000 "bigminer").1).
Proof.
  exact (proj1 (CalculatePayouts_dust_consolidation (pplns_tests.noFee 546) dustWindow
                  1000 "bigminer" dustWindow_reward dustWindow_weight
                  (noFee_in_range 546 1000 ltac:(lia)) dustWindow_targets)).
Defined.

(** C1. [CalculatePayouts] returns no payout when the window
    is empty, when the reward is not positive, and also when the total
    weight of the window is zero.  In every other case, when the finder fee
    lies between 0 and the reward and no target is negative, the amounts of
    the payouts it returns add up to the reward exactly, whether or not the
    dust was consolidated. *)
Theorem CalculatePayouts_total c w totalReward finderAddress :
  (ShareCount w = 0%nat \/ totalReward <= 0 \/ TotalWeight w = 0 ->
   CalculatePayouts c w totalReward finderAddress = [])
  /\ (0 < totalReward <= MaxInt64 -> TotalWeight w <> 0 ->
      feeInRange c totalReward -> targetsNonneg w ->
      totalAmount (CalculatePayouts c w totalReward finderAddress) = totalReward).
Proof.
  split.
  - unfold CalculatePayouts. intros [H|[H|H]].
    + rewrite H. reflexivity.
    + destruct (ShareCount w =? 0)%nat; [reflexivity|].
      destruct (Z.leb_spec totalReward 0); [reflexivity|lia].
    + rewrite H. now destruct (_ || _).
  - intros Htot HW Hfee Hw.
    rewrite CalculatePayouts_unfold by lia.
    destruct (payoutsBeforeDust_spec c w totalReward finderAddress Htot Hfee
                (targetsNonneg_weights w Hw) HW) as (Hpos & Hsum & Hkeys).
    rewrite consolidateDust_consolidated by (try assumption; lia).
    rewrite sortedResult_total, consolidated_total by assumption. exact Hsum.
Qed.

Lemma CalculatePayouts_total_witness :
  totalAmount (CalculatePayouts (pplns_tests.noFee 546) dustWindow 1000 "bigminer") = 1000.
Proof.
  exact (proj2 (CalculatePayouts_total (pplns_tests.noFee 546) dustWindow 1000 "bigminer")
           dustWindow_reward dustWindow_weight
           (noFee_in_range 546 1000 ltac:(lia)) dustWindow_targets).
Defined.

(** Why the conditions: a fee above the reward (a percentage of 200) pays
    the finder twice the reward, and a negative target lets one miner's
    proportional payout exceed the reward. *)
Example CalculatePayouts_fee_above_reward :
  totalAmount
    (CalculatePayouts {| finderFeeOf := fun t => 2 * t; dustThresholdSats := 546 |}
       (NewWindow [pplns_tests.makeShare "miner1" pplns_tests.easyTarget]
          pplns_tests.easyTarget) 1000 "miner1")
  = 2000.
Proof. vm_compute. reflexivity. Qed.

Example CalculatePayouts_negative_target :
  totalAmount
    (CalculatePayouts (pplns_tests.noFee 546)
       (NewWindow [pplns_tests.makeShare "miner1" 2; pplns_tests.makeShare "miner2" (-3)] 6)
       1000 "miner1")
  = 3000.
Proof. vm_compute. reflexivity. Qed.

(** A share whose declared target is one above the maximum target has the
    compact encoding of the maximum target, and weighs nothing in a window
    with that maximum: the reward is positive and the window is not empty,
    yet nothing is paid out. *)
Lemma CalculatePayouts_zero_weight :
  let w := NewWindow [pplns_tests.makeShare "miner1" (DefaultMaxTarget + 1)]
             DefaultMaxTarget in
  util.TargetToCompact (DefaultMaxTarget + 1) = util.TargetToCompact DefaultMaxTarget
  /\ ShareCount w = 1%nat
  /\ CalculatePayouts (pplns_tests.noFee 546) w 1000 "miner1" = []
  /\ totalAmount (CalculatePayouts (pplns_tests.noFee 546) w 1000 "miner1") <> 1000.
Proof. vm_compute. repeat split. discriminate. Qed.

End pplns_facts.

(** * Further properties of the code *)

(** ** Variable-length integers on a stream *)
Module varint_facts.
Import binary binary_facts util.

Lemma le_value_range (b : list byte) : 0 <= le_value b < 2 ^ (8 * Z.of_nat (length b)).
Proof.
  induction b as [|b0 r IH].
  - cbn. lia.
  - cbn [le_value length]. pose proof (Z_of_byte_range b0) as Hb.
    rewrite Z.shiftl_mul_pow2 by lia.
    rewrite Z.lor_comm, (compact_facts.lor_disjoint _ _ 8); [| lia | | lia ].
    + replace (8 * Z.of_nat (S (length r))) with (8 * Z.of_nat (length r) + 8) by lia.
      rewrite Z.pow_add_r by lia. change (2 ^ 8) with 256. nia.
    + change (2 ^ 8) with 256. now rewrite Z.mod_mul by lia.
Qed.

Lemma le_value_take_le_bytes n v rest :
  le_value (take n (le_bytes n v ++ rest)) = v mod 2 ^ (8 * Z.of_nat n).
Proof.
  rewrite take_app_length' by (symmetry; apply le_bytes_length). apply le_value_le_bytes.
Qed.

Lemma ReadVarInt_app (v : Z) (rest : list byte) :
  0 <= v < 2 ^ 64 ->
  ReadVarInt (WriteVarInt v ++ rest)
  = Ok (v, Z.of_nat (length (WriteVarInt v))).
Proof.
  intros Hv. unfold WriteVarInt.
  destruct (Z.ltb_spec v 0xfd) as [H1|H1].
  { cbn [ReadVarInt length app]. rewrite Z_of_byte_of_Z, (Z.mod_small v 256) by lia.
    destruct (Z.ltb_spec v 0xfd); [|lia].
    unfold uint64. now rewrite Z.mod_small by lia. }
  destruct (Z.leb_spec v 0xffff) as [H2|H2].
  { unfold ReadVarInt, Uint16, PutUint16, slice, uint16, uint64.
    cbn [app]. rewrite Z_of_byte_of_Z.
    change (0xfd mod 256 <? 0xfd) with false. change (0xfd mod 256 =? 0xfd) with true.
    cbv iota. cbn [length]. rewrite length_app, le_bytes_length.
    cbn [Nat.add Nat.ltb Nat.leb Nat.sub skipn]. rewrite take_take, drop_0.
    change (2 `min` 2)%nat with 2%nat.
    rewrite le_value_take_le_bytes. change (8 * Z.of_nat 2) with 16.
    rewrite Z.mod_mod by lia. rewrite (Z.mod_small v (2 ^ 16)) by lia.
    now rewrite Z.mod_small by lia. }
  destruct (Z.leb_spec v 0xffffffff) as [H3|H3].
  { unfold ReadVarInt, Uint32, PutUint32, slice, uint32, uint64.
    cbn [app]. rewrite Z_of_byte_of_Z.
    change (0xfe mod 256 <? 0xfd) with false. change (0xfe mod 256 =? 0xfd) with false.
    change (0xfe mod 256 =? 0xfe) with true. cbv iota.
    cbn [length]. rewrite length_app, le_bytes_length.
    cbn [Nat.add Nat.ltb Nat.leb Nat.sub skipn]. rewrite take_take, drop_0.
    change (4 `min` 4)%nat with 4%nat.
    rewrite le_value_take_le_bytes. change (8 * Z.of_nat 4) with 32.
    rewrite Z.mod_mod by lia. rewrite (Z.mod_small v (2 ^ 32)) by lia.
    now rewrite Z.mod_small by lia. }
  unfold ReadVarInt, Uint64, PutUint64, slice.
  cbn [app]. rewrite Z_of_byte_of_Z.
  change (0xff mod 256 <? 0xfd) with false. change (0xff mod 256 =? 0xfd) with false.
  change (0xff mod 256 =? 0xfe) with false. cbv iota.
  cbn [length]. rewrite length_app, le_bytes_length.
  cbn [Nat.add Nat.ltb Nat.leb Nat.sub skipn]. rewrite take_take, drop_0.
  change (8 `min` 8)%nat with 8%nat.
  rewrite le_value_take_le_bytes. change (8 * Z.of_nat 8) with 64.
  now rewrite Z.mod_small by lia.
Qed.


(** X1. A varint is read back from the head of any stream it was written to:
    the bytes after it are left alone and the count returned is the number
    of bytes written. *)
Theorem ReadVarInt_stream (v : Z) (rest : list byte) :
  0 <= v < 2 ^ 64 ->
  ReadVarInt (WriteVarInt v ++ rest)
  = Ok (v, Z.of_nat (length (WriteVarInt v))).
Proof. apply ReadVarInt_app. Qed.

Lemma WriteVarInt_length v :
  length (WriteVarInt v)
  = if v <? 0xfd then 1%nat else if v <=? 0xffff then 3%nat
    else if v <=? 0xffffffff then 5%nat else 9%nat.
Proof.
  unfold WriteVarInt.
  destruct (v <? 0xfd); [reflexivity|].
  destruct (v <=? 0xffff); [reflexivity|].
  destruct (v <=? 0xffffffff); reflexivity.
Qed.

(** X2. Whatever [ReadVarInt] accepts, it returns a [uint64], consumes at least
    one byte and never more than the slice holds, and [WriteVarInt] encodes
    the value in no more bytes than were consumed: the writer is minimal
    among the encodings the reader accepts. *)
Theorem ReadVarInt_sound (data : list byte) (v n : Z) :
  ReadVarInt data = Ok (v, n) ->
  0 <= v < 2 ^ 64
  /\ 1 <= n <= Z.of_nat (length data)
  /\ Z.of_nat (length (WriteVarInt v)) <= n.
Proof.
  unfold ReadVarInt. destruct data as [|d0 r]; [discriminate|].
  pose proof (Z_of_byte_range d0) as Hd. rewrite WriteVarInt_length.
  destruct (Z.ltb_spec (Z_of_byte d0) 0xfd) as [H1|H1].
  { intros [= <- <-]. unfold uint64. rewrite Z.mod_small by lia.
    destruct (Z.ltb_spec (Z_of_byte d0) 0xfd); [|lia]. cbn [length]. lia. }
  destruct (Z.eqb_spec (Z_of_byte d0) 0xfd) as [H2|H2].
  { destruct (Nat.ltb_spec (length (d0 :: r)) 3) as [Hl|Hl]; [discriminate|].
    intros [= <- <-]. unfold Uint16, uint64.
    match goal with |- context [le_value ?l] =>
      pose proof (le_value_range l) as Hr;
      assert (length l <= 2)%nat as Hlen by (rewrite length_take; lia);
      assert (2 ^ (8 * Z.of_nat (length l)) <= 2 ^ 16) as Hp
        by (apply Z.pow_le_mono_r; lia);
      generalize dependent (le_value l) end.
    intros x Hx. rewrite Z.mod_small by lia.
    repeat split; try lia.
    destruct (x <? 253); [lia|]. destruct (Z.leb_spec x 65535); lia. }
  destruct (Z.eqb_spec (Z_of_byte d0) 0xfe) as [H3|H3].
  { destruct (Nat.ltb_spec (length (d0 :: r)) 5) as [Hl|Hl]; [discriminate|].
    intros [= <- <-]. unfold Uint32, uint64.
    match goal with |- context [le_value ?l] =>
      pose proof (le_value_range l) as Hr;
      assert (length l <= 4)%nat as Hlen by (rewrite length_take; lia);
      assert (2 ^ (8 * Z.of_nat (length l)) <= 2 ^ 32) as Hp
        by (apply Z.pow_le_mono_r; lia);
      generalize dependent (le_value l) end.
    intros x Hx. rewrite Z.mod_small by lia.
    repeat split; try lia.
    destruct (x <? 253); [lia|]. destruct (x <=? 65535); [lia|].
    destruct (Z.leb_spec x 4294967295); lia. }
  destruct (Nat.ltb_spec (length (d0 :: r)) 9) as [Hl|Hl]; [discriminate|].
  intros [= <- <-]. unfold Uint64.
  match goal with |- context [le_value ?l] =>
    pose proof (le_value_range l) as Hr;
    assert (length l <= 8)%nat as Hlen by (rewrite length_take; lia);
    assert (2 ^ (8 * Z.of_nat (length l)) <= 2 ^ 64) as Hp
      by (apply Z.pow_le_mono_r; lia);
    generalize dependent (le_value l) end.
  intros x Hx.
  repeat split; try lia.
  destruct (x <? 253); [lia|]. destruct (x <=? 65535); [lia|].
  destruct (x <=? 4294967295); lia.
Qed.

Lemma ReadVarInt_sound_witness :
  ReadVarInt (map byte_of_Z [0xfd; 0x01; 0x00; 0x99]) = Ok (1, 3)
  /\ 0 <= 1 < 2 ^ 64
  /\ 1 <= 3 <= Z.of_nat (length (map byte_of_Z [0xfd; 0x01; 0x00; 0x99]))
  /\ Z.of_nat (length (WriteVarInt 1)) <= 3.
Proof.
  split; [reflexivity|].
  apply (ReadVarInt_sound (map byte_of_Z [0xfd; 0x01; 0x00; 0x99]) 1 3). reflexivity.
Defined.

(** X3. A varint cut short is never read as a value: [ReadVarInt] returns an
    error on every proper prefix of what [WriteVarInt] wrote. *)
Theorem ReadVarInt_truncated (v : Z) (k : nat) :
  (k < length (WriteVarInt v))%nat ->
  exists e, ReadVarInt (take k (WriteVarInt v)) = Err e.
Proof.
  rewrite WriteVarInt_length. unfold WriteVarInt.
  destruct (v <? 0xfd).
  { intros Hk. replace k with O by lia. eexists. reflexivity. }
  destruct k as [|k]; [intros _; eexists; reflexivity|].
  destruct (v <=? 0xffff).
  { intros Hk. unfold ReadVarInt. cbn [take firstn]. rewrite Z_of_byte_of_Z.
    change (0xfd mod 256 <? 0xfd) with false. change (0xfd mod 256 =? 0xfd) with true.
    cbv iota. cbn [length]. rewrite length_take.
    destruct (Nat.ltb_spec (S (k `min` length (PutUint16 (uint16 v)))) 3) as [|Hl];
      [eexists; reflexivity|lia]. }
  destruct (v <=? 0xffffffff).
  { intros Hk. unfold ReadVarInt. cbn [take firstn]. rewrite Z_of_byte_of_Z.
    change (0xfe mod 256 <? 0xfd) with false. change (0xfe mod 256 =? 0xfd) with false.
    change (0xfe mod 256 =? 0xfe) with true.
    cbv iota. cbn [length]. rewrite length_take.
    destruct (Nat.ltb_spec (S (k `min` length (PutUint32 (uint32 v)))) 5) as [|Hl];
      [eexists; reflexivity|lia]. }
  intros Hk. unfold ReadVarInt. cbn [take firstn]. rewrite Z_of_byte_of_Z.
  change (0xff mod 256 <? 0xfd) with false. change (0xff mod 256 =? 0xfd) with false.
  change (0xff mod 256 =? 0xfe) with false.
  cbv iota. cbn [length]. rewrite length_take.
  destruct (Nat.ltb_spec (S (k `min` length (PutUint64 v))) 9) as [|Hl];
    [eexists; reflexivity|lia].
Qed.

Lemma ReadVarInt_truncated_witness :
  exists e, ReadVarInt (take 4 (WriteVarInt 0x12345678)) = Err e.
Proof. apply (ReadVarInt_truncated 0x12345678 4). vm_compute. lia. Defined.

Lemma ReadVarInt_stream_witness :
  ReadVarInt (WriteVarInt 0x10000 ++ map byte_of_Z [1; 2; 3]) = Ok (0x10000, 5).
Proof. apply (ReadVarInt_stream 0x10000 (map byte_of_Z [1; 2; 3])). lia. Defined.

End varint_facts.

(** ** Script length prefixes *)
Module scriptlen_facts.
Import binary binary_facts util.

Lemma byte_of_Z_inj x y :
  0 <= x < 256 -> 0 <= y < 256 -> byte_of_Z x = byte_of_Z y -> x = y.
Proof.
  intros Hx Hy H. apply (f_equal Z_of_byte) in H.
  rewrite !Z_of_byte_of_Z, !Z.mod_small in H by lia. exact H.
Qed.

Lemma le_bytes_app_inj n a b (x y : list byte) :
  le_bytes n a ++ x = le_bytes n b ++ y ->
  a mod 2 ^ (8 * Z.of_nat n) = b mod 2 ^ (8 * Z.of_nat n) /\ x = y.
Proof.
  intros H. apply app_inj_1 in H as [H1 ->]; [|now rewrite !le_bytes_length].
  split; [|reflexivity]. now rewrite <- !le_value_le_bytes, H1.
Qed.

Lemma cons_byte_eq (b1 b2 : byte) (l1 l2 : list byte) :
  b1 :: l1 = b2 :: l2 -> Z_of_byte b1 = Z_of_byte b2 /\ l1 = l2.
Proof. intros [= -> ->]. now split. Qed.

(** X4. For a length that fits 32 bits the prefix written by [WriteScriptLen]
    can be told apart from whatever follows it: two prefixes followed by
    any bytes give the same stream only for the same length and the same
    bytes. *)
Theorem WriteScriptLen_prefix_free (a b : Z) (x y : list byte) :
  0 <= a < 2 ^ 32 -> 0 <= b < 2 ^ 32 ->
  WriteScriptLen a ++ x = WriteScriptLen b ++ y -> a = b /\ x = y.
Proof.
  intros Ha Hb. unfold WriteScriptLen, PutUint16, PutUint32, uint16, uint32.
  destruct (Z.ltb_spec a 0x4c); [|destruct (Z.leb_spec a 0xff); [|destruct (Z.leb_spec a 0xffff)]];
  (destruct (Z.ltb_spec b 0x4c); [|destruct (Z.leb_spec b 0xff); [|destruct (Z.leb_spec b 0xffff)]]);
  cbn [app]; intros Heq; apply cons_byte_eq in Heq as [E0 E1];
  rewrite !Z_of_byte_of_Z, !Z.mod_small in E0 by lia; try lia.
  - now split.
  - apply cons_byte_eq in E1 as [E2 E3].
    rewrite !Z_of_byte_of_Z, !Z.mod_small in E2 by lia. now split.
  - apply le_bytes_app_inj in E1 as [E2 ->].
    change (8 * Z.of_nat 2) with 16 in E2. rewrite !Z.mod_mod in E2 by lia.
    rewrite !Z.mod_small in E2 by lia. now split.
  - apply le_bytes_app_inj in E1 as [E2 ->].
    change (8 * Z.of_nat 4) with 32 in E2. rewrite !Z.mod_mod in E2 by lia.
    rewrite !Z.mod_small in E2 by lia. now split.
Qed.

Lemma WriteScriptLen_prefix_free_witness :
  WriteScriptLen 300 ++ map byte_of_Z [7] = WriteScriptLen 300 ++ map byte_of_Z [7]
  /\ 300 = 300 /\ map byte_of_Z [7] = map byte_of_Z [7].
Proof.
  split; [reflexivity|].
  apply (WriteScriptLen_prefix_free 300 300 (map byte_of_Z [7]) (map byte_of_Z [7]));
    [lia|lia|reflexivity].
Defined.

(** Outside that range the prefix wraps: a negative length is written as
    its low byte, a length of [2 ^ 32] or more as its low 32 bits. *)
Example WriteScriptLen_wraps :
  WriteScriptLen (-1) = [byte_of_Z 0xff]
  /\ WriteScriptLen (2 ^ 32 + 0x10000) = WriteScriptLen 0x10000.
Proof. split; reflexivity. Qed.

End scriptlen_facts.

(** ** Hex strings and display-order hashes *)
Module hex_facts.
Import util util_hex.

Lemma string_pair_ind (P : string -> Prop) :
  P EmptyString -> (forall p, P (String p EmptyString)) ->
  (forall p q r, P r -> P (String p (String q r))) -> forall s, P s.
Proof.
  intros H0 H1 H2. fix IH 1.
  intros [|p [|q r]]; [apply H0|apply H1|apply H2, IH].
Qed.

Lemma EncodeToString_length (b : list byte) :
  String.length (hex.EncodeToString b) = (2 * length b)%nat.
Proof.
  induction b as [|v b IH]; [reflexivity|].
  cbn [hex.EncodeToString String.length length]. rewrite IH. lia.
Qed.

Lemma EncodeToString_app (a b : list byte) :
  hex.EncodeToString (a ++ b) = hex.EncodeToString a +:+ hex.EncodeToString b.
Proof.
  induction a as [|v a IH]; [reflexivity|].
  cbn [app hex.EncodeToString]. rewrite IH. reflexivity.
Qed.

Lemma DecodeString_length (s : string) (b : list byte) :
  hex.DecodeString s = Ok b -> String.length s = (2 * length b)%nat.
Proof.
  revert b. induction s as [|p|p q r IH] using string_pair_ind; intros b.
  - intros [= <-]. reflexivity.
  - cbn [hex.DecodeString]. destruct (hex.fromHexChar p); discriminate.
  - cbn [hex.DecodeString].
    destruct (hex.fromHexChar p); [|discriminate].
    destruct (hex.fromHexChar q); [|discriminate].
    destruct (hex.DecodeString r) as [tl|] eqn:Hr; [|discriminate].
    intros [= <-]. cbn [String.length length].
    rewrite (IH tl eq_refl). lia.
Qed.

Lemma decodedPrefix_Ok (s : string) (b : list byte) :
  hex.DecodeString s = Ok b -> hex.decodedPrefix s = b.
Proof.
  revert b. induction s as [|p|p q r IH] using string_pair_ind; intros b.
  - intros [= <-]. reflexivity.
  - cbn [hex.DecodeString]. destruct (hex.fromHexChar p); discriminate.
  - cbn [hex.DecodeString hex.decodedPrefix].
    destruct (hex.fromHexChar p); [|discriminate].
    destruct (hex.fromHexChar q); [|discriminate].
    destruct (hex.DecodeString r) as [tl|] eqn:Hr; [|discriminate].
    intros [= <-]. f_equal. now apply IH.
Qed.

Lemma DecodeString_app (s1 s2 : string) (b1 : list byte) :
  hex.DecodeString s1 = Ok b1 ->
  hex.DecodeString (s1 +:+ s2)
  = match hex.DecodeString s2 with Ok b2 => Ok (b1 ++ b2) | Err e => Err e end.
Proof.
  revert b1. induction s1 as [|p|p q r IH] using string_pair_ind; intros b1.
  - intros [= <-]. change (EmptyString +:+ s2) with s2. cbn [app].
    now destruct (hex.DecodeString s2).
  - cbn [hex.DecodeString]. destruct (hex.fromHexChar p); discriminate.
  - change (String p (String q r) +:+ s2) with (String p (String q (r +:+ s2))).
    cbn [hex.DecodeString].
    destruct (hex.fromHexChar p); [|discriminate].
    destruct (hex.fromHexChar q); [|discriminate].
    destruct (hex.DecodeString r) as [tl|] eqn:Hr; [|discriminate].
    intros [= <-]. rewrite (IH tl eq_refl).
    now destruct (hex.DecodeString s2).
Qed.

(** X5. A hash survives the trip through its display-order hex form. *)
Theorem HexToHash_HashToHex (h : list byte) :
  length h = 32%nat -> HexToHash (HashToHex h) = Ok h.
Proof.
  intros Hh. unfold HexToHash, HashToHex, ReverseBytes.
  rewrite work_facts.DecodeString_EncodeToString, length_rev, Hh.
  cbn [Nat.eqb negb]. now rewrite rev_involutive.
Qed.

Lemma HexToHash_HashToHex_witness :
  HexToHash (HashToHex (map byte_of_Z (seqZ 1 32))) = Ok (map byte_of_Z (seqZ 1 32)).
Proof. apply (HexToHash_HashToHex (map byte_of_Z (seqZ 1 32))). reflexivity. Defined.

(** X6. [HexToHash] accepts exactly the texts of 64 hex digits: what it returns
    has 32 bytes and is the byte-reversed decoding of the text, and a text
    that decodes to another length is answered with [hex.ErrLength]. *)
Theorem HexToHash_sound (s : string) :
  match HexToHash s with
  | Ok h =>
      length h = 32%nat /\ String.length s = 64%nat
      /\ hex.DecodeString s = Ok (ReverseBytes h)
  | Err e =>
      forall b, hex.DecodeString s = Ok b -> length b <> 32%nat /\ e = hex.ErrLength
  end.
Proof.
  unfold HexToHash, ReverseBytes.
  destruct (hex.DecodeString s) as [b|e] eqn:Hs; [|discriminate].
  destruct (Nat.eqb_spec (length b) 32) as [Hb|Hb]; cbn [negb].
  - rewrite length_rev, rev_involutive. repeat split; [assumption|].
    rewrite (DecodeString_length _ _ Hs), Hb. reflexivity.
  - intros b' [= <-]. now split.
Qed.

End hex_facts.

(** ** Hashes against targets *)
Module target_facts.
Import binary binary_facts util compact_facts varint_facts.

Lemma le_value_zero (b : list byte) : le_value b = 0 <-> b = replicate (length b) zero.
Proof.
  induction b as [|b0 r IH]; [cbn; tauto|].
  cbn [le_value length replicate]. rewrite Z.lor_eq_0_iff, Z.shiftl_eq_0_iff by lia.
  rewrite IH. split.
  - intros [H0 <-]. f_equal.
    rewrite <- (byte_of_Z_of_byte b0), H0. reflexivity.
  - intros [= -> Hr]. split; [reflexivity|exact Hr].
Qed.

(** X7. The 32 bytes of a hash are compared with the target as one number,
    least significant byte first: every hash meets a target of
    [2 ^ 256 - 1] or more, none meets a negative target, only the all-zero
    hash meets the target 0, and a hash that meets a target meets every
    larger one. *)
Theorem HashMeetsTarget_extremes (hash : list byte) :
  length hash = 32%nat ->
  (forall target, 2 ^ 256 - 1 <= target -> HashMeetsTarget hash target = true)
  /\ (forall target, target < 0 -> HashMeetsTarget hash target = false)
  /\ (HashMeetsTarget hash 0 = true <-> hash = replicate 32 zero)
  /\ (forall t1 t2, t1 <= t2 ->
        HashMeetsTarget hash t1 = true -> HashMeetsTarget hash t2 = true).
Proof.
  intros Hlen. unfold HashMeetsTarget, big_SetBytes, ReverseBytes.
  rewrite rev_involutive. pose proof (le_value_range hash) as Hr.
  rewrite Hlen in Hr. change (2 ^ (8 * Z.of_nat 32)) with (2 ^ 256) in Hr.
  repeat split.
  - intros target Ht. apply Z.leb_le. lia.
  - intros target Ht. apply Z.leb_gt. lia.
  - intros H0. apply Z.leb_le in H0.
    rewrite <- Hlen. apply le_value_zero. lia.
  - intros ->. reflexivity.
  - intros t1 t2 Ht H1. apply Z.leb_le in H1. apply Z.leb_le. lia.
Qed.

Lemma HashMeetsTarget_extremes_witness :
  HashMeetsTarget (replicate 32 (byte_of_Z 0xff)) (2 ^ 256 - 1) = true.
Proof.
  apply (HashMeetsTarget_extremes (replicate 32 (byte_of_Z 0xff)) eq_refl). lia.
Defined.


(** *** Compact targets *)

Lemma split_compact c :
  0 <= c -> Z.land c 0x00800000 = 0 ->
  c = (c ≫ 24) * 2 ^ 24 + Z.land c 0x007fffff.
Proof.
  intros Hc Hs.
  change 0x00800000 with (2 ^ 23) in Hs. rewrite land_pow2 in Hs by lia.
  destruct (Z.testbit c 23) eqn:Hb; [discriminate|].
  change 0x007fffff with (Z.ones 23). rewrite Z.land_ones by lia.
  rewrite Z.shiftr_div_pow2 by lia.
  rewrite Z.testbit_odd, Z.shiftr_div_pow2 in Hb by lia.
  assert (Z.even (c / 2 ^ 23) = true) as He by (rewrite <- Z.negb_odd, Hb; reflexivity).
  apply Z.even_spec in He as [k Hk].
  assert (c / 2 ^ 24 = k) as ->.
  { change (2 ^ 24) with (2 ^ 23 * 2). rewrite <- Z.div_div by lia. rewrite Hk.
    rewrite Z.mul_comm, Z.div_mul by lia. reflexivity. }
  pose proof (Z.div_mod c (2 ^ 23) ltac:(lia)). lia.
Qed.

(** X8. The round trip the wire format relies on: a compact value with the
    sign bit clear, an exponent from 3 to 254 and a mantissa that is in
    normal form (at least [0x008000], and at least [0x010000] when the
    exponent is 3) is what [TargetToCompact] returns for the target it
    denotes. *)
Theorem compact_round_trip_canonical (c : Z) :
  0 <= c < 2 ^ 32 ->
  Z.land c 0x00800000 = 0 ->
  3 <= c ≫ 24 <= 254 ->
  2 ^ 15 <= Z.land c 0x007fffff ->
  (c ≫ 24 = 3 -> 2 ^ 16 <= Z.land c 0x007fffff) ->
  TargetToCompact (CompactToTarget c) = c.
Proof.
  intros Hc Hs He Hm H3.
  assert (0 <= Z.land c 0x007fffff < 2 ^ 23) as Hr.
  { change 0x007fffff with (Z.ones 23). rewrite Z.land_ones by lia.
    apply Z.mod_pos_bound. lia. }
  pose proof (compact_round_trip_wide (c ≫ 24) (Z.land c 0x007fffff) ltac:(lia)) as H.
  rewrite <- split_compact in H by lia. exact H.
Qed.

Lemma compact_round_trip_canonical_witness :
  TargetToCompact (CompactToTarget 0x1b0404cb) = 0x1b0404cb.
Proof.
  apply (compact_round_trip_canonical 0x1b0404cb);
    [lia|reflexivity|vm_compute; split; discriminate|vm_compute; discriminate|].
  vm_compute. discriminate.
Defined.

Lemma leading_big v :
  2 ^ 16 <= v -> 3 <= Z.of_nat (byte_len v) /\ 2 ^ 16 <= leading v.
Proof.
  intros Hv. destruct (byte_len_spec v ltac:(lia)) as [H1 [Hlo Hhi]].
  set (L := Z.of_nat (byte_len v)) in *.
  assert (3 <= L) as HL.
  { destruct (Z.lt_ge_cases L 3) as [Hlt|]; [|assumption].
    assert (2 ^ (8 * L) <= 2 ^ 16) by (apply Z.pow_le_mono_r; lia). lia. }
  split; [assumption|]. unfold leading. fold L.
  destruct (Z.leb_spec L 3); [assumption|].
  apply Z.div_le_lower_bound; [apply Z.pow_pos_nonneg; lia|].
  rewrite Z.mul_comm, <- Z.pow_add_r by lia.
  replace (16 + 8 * (L - 3)) with (8 * (L - 1)) by lia. assumption.
Qed.

Lemma TargetToCompact_normalize (v : Z) :
  2 ^ 16 <= v < 2 ^ (8 * 253) ->
  TargetToCompact (CompactToTarget (TargetToCompact v)) = TargetToCompact v.
Proof.
  intros Hv.
  pose proof (byte_len_le v 253 ltac:(lia)) as HL.
  destruct (leading_big v ltac:(lia)) as [HL3 Hlead].
  pose proof (leading_range v ltac:(lia)) as Hlr.
  rewrite (TargetToCompact_pos v) by lia.
  destruct (Z.ltb_spec (leading v) (2 ^ 23)) as [Hlt|Hge].
  - apply compact_round_trip_wide. lia.
  - apply compact_round_trip_wide. left.
    split; [lia|]. split.
    + apply Z.div_le_lower_bound; lia.
    + apply Z.div_lt_upper_bound; lia.
Qed.

(** X9. What [TargetToCompact] returns for a target of at least [2 ^ 16] is
    stable: decoding it and encoding again gives the same bits, so the
    normalised target [CompactToTarget (TargetToCompact v)] is a fixed point
    of the normalisation and never exceeds [v]. *)
Theorem TargetToCompact_stable (v : Z) :
  2 ^ 16 <= v < 2 ^ (8 * 253) ->
  let n := CompactToTarget (TargetToCompact v) in
  TargetToCompact n = TargetToCompact v
  /\ CompactToTarget (TargetToCompact n) = n
  /\ 0 <= n <= v.
Proof.
  intros Hv n.
  pose proof (TargetToCompact_normalize v Hv) as Hstable.
  split; [assumption|]. split.
  - unfold n. rewrite Hstable. reflexivity.
  - apply normalize_le; [lia|]. apply (byte_len_le v 254). 
    split; [lia|]. apply Z.lt_le_trans with (2 ^ (8 * 253)); [lia|].
    apply Z.pow_le_mono_r; lia.
Qed.

Lemma TargetToCompact_stable_witness :
  let n := CompactToTarget (TargetToCompact (2 ^ 200 + 12345)) in
  TargetToCompact n = TargetToCompact (2 ^ 200 + 12345)
  /\ CompactToTarget (TargetToCompact n) = n
  /\ 0 <= n <= 2 ^ 200 + 12345.
Proof.
  apply (TargetToCompact_stable (2 ^ 200 + 12345)).
  split; [vm_compute; discriminate|reflexivity].
Defined.


Lemma TargetToCompact_sign_clear v : 0 < v -> Z.land (TargetToCompact v) 0x00800000 = 0.
Proof.
  intros Hv. unfold TargetToCompact.
  destruct (Z.eqb_spec v 0); [lia|]. destruct (Z.ltb_spec v 0); [lia|].
  cbv zeta.
  match goal with |- context [if ?c then (?a, ?b) else (?x, ?y)] =>
    destruct c; generalize a b x y; intros a' b' x' y' end.
  all: rewrite Z.land_lor_distr_l.
  all: change 0x00800000 with (2 ^ 23); rewrite !land_pow2 by lia.
  all: unfold uint32; rewrite Z.mod_pow2_bits_low, Z.shiftl_spec_low by lia.
  all: change 0x007fffff with (Z.ones 23).
  all: rewrite Z.land_ones, Z.mod_pow2_bits_high by lia; reflexivity.
Qed.

(** X10. The sign bit is handled the same way in both directions: the compact
    form of a negative target is that of its absolute value with bit
    [0x00800000] set, and it decodes to the negated normalised target. *)
Theorem compact_sign_symmetry (v : Z) :
  0 < v ->
  TargetToCompact (- v) = Z.lor (TargetToCompact v) 0x00800000
  /\ CompactToTarget (TargetToCompact (- v)) = - CompactToTarget (TargetToCompact v).
Proof.
  intros Hv.
  assert (TargetToCompact (- v) = Z.lor (TargetToCompact v) 0x00800000) as Hneg.
  { unfold TargetToCompact.
    destruct (Z.eqb_spec (- v) 0); [lia|]. destruct (Z.eqb_spec v 0); [lia|].
    destruct (Z.ltb_spec (- v) 0); [|lia]. destruct (Z.ltb_spec v 0); [lia|].
    rewrite Z.abs_opp. cbv zeta.
    match goal with |- context [if ?c then (_, _) else _] => destruct c end; reflexivity. }
  split; [assumption|]. rewrite Hneg.
  pose proof (TargetToCompact_sign_clear v Hv) as Hclear.
  generalize dependent (TargetToCompact v). intros c _ Hclear.
  unfold CompactToTarget.
  rewrite Z.shiftr_lor, Z.lor_0_r.
  rewrite !Z.land_lor_distr_l, Hclear.
  change (Z.land 0x00800000 0x007fffff) with 0.
  change (Z.land 0x00800000 0x00800000) with 0x00800000.
  rewrite Z.lor_0_r, Z.lor_0_l. reflexivity.
Qed.

Lemma compact_sign_symmetry_witness :
  TargetToCompact (- 0x123456) = Z.lor (TargetToCompact 0x123456) 0x00800000
  /\ CompactToTarget (TargetToCompact (- 0x123456))
     = - CompactToTarget (TargetToCompact 0x123456).
Proof. apply (compact_sign_symmetry 0x123456). lia. Defined.

End target_facts.

(** ** Stratum jobs *)
Module job_facts.
Import binary binary_facts util util_hex work hex_facts varint_facts.

(** X11. The two halves [SplitCoinbase] returns fit around any extranonce: the
    hex text [coinbase1 + extranonce + coinbase2] decodes to the coinbase
    transaction with the bytes at the extranonce position replaced. *)
Theorem SplitCoinbase_reassemble (coinbaseTx spare : list byte) (off size : Z) :
  Z.of_nat (length coinbaseTx) <= MaxInt64 ->
  0 <= off -> 0 <= size -> off + size <= Z.of_nat (length coinbaseTx) ->
  exists coinbase1 coinbase2,
    SplitCoinbase coinbaseTx spare off size = Some (coinbase1, coinbase2)
    /\ forall extranonce : list byte,
         hex.DecodeString (coinbase1 +:+ hex.EncodeToString extranonce +:+ coinbase2)
         = Ok (take (Z.to_nat off) coinbaseTx ++ extranonce
               ++ drop (Z.to_nat (off + size)) coinbaseTx).
Proof.
  intros Hint Hoff Hsize Hlen. unfold SplitCoinbase.
  rewrite pplns_facts.int64_id by (unfold MinInt64, MaxInt64 in *; lia).
  rewrite length_app.
  destruct (Z.leb_spec 0 off); [|lia].
  destruct (Z.leb_spec off (Z.of_nat (length coinbaseTx + length spare))); [|lia].
  destruct (Z.leb_spec 0 (off + size)); [|lia].
  destruct (Z.leb_spec (off + size) (Z.of_nat (length coinbaseTx))); [|lia].
  cbn [andb]. eexists _, _. split; [reflexivity|].
  intros extranonce.
  rewrite take_app_le by lia.
  rewrite (DecodeString_app _ _ _ (work_facts.DecodeString_EncodeToString _)).
  rewrite (DecodeString_app _ _ _ (work_facts.DecodeString_EncodeToString _)).
  now rewrite work_facts.DecodeString_EncodeToString.
Qed.

Lemma SplitCoinbase_reassemble_witness :
  exists coinbase1 coinbase2,
    SplitCoinbase (map byte_of_Z [1; 2; 3; 4; 5; 6]) [] 2 2 = Some (coinbase1, coinbase2)
    /\ forall extranonce : list byte,
         hex.DecodeString (coinbase1 +:+ hex.EncodeToString extranonce +:+ coinbase2)
         = Ok (take (Z.to_nat 2) (map byte_of_Z [1; 2; 3; 4; 5; 6]) ++ extranonce
               ++ drop (Z.to_nat (2 + 2)) (map byte_of_Z [1; 2; 3; 4; 5; 6])).
Proof.
  apply (SplitCoinbase_reassemble (map byte_of_Z [1; 2; 3; 4; 5; 6]) [] 2 2);
    [vm_compute; discriminate|lia|lia|vm_compute; discriminate].
Defined.

(** Outside the slice the call panics: an offset beyond the capacity, or
    an end beyond the length. *)
Example SplitCoinbase_out_of_range :
  SplitCoinbase (map byte_of_Z [1; 2; 3]) [] 2 2 = None
  /\ SplitCoinbase (map byte_of_Z [1; 2; 3]) [] (-1) 2 = None.
Proof. split; reflexivity. Qed.

Lemma swapWords4_length (b : list byte) : length (swapWords4 b) = length b.
Proof.
  induction b as [b IH] using (induction_ltof1 _ (@length _)). unfold ltof in IH.
  destruct b as [|b0 [|b1 [|b2 [|b3 r]]]]; try reflexivity.
  cbn [swapWords4 length]. rewrite IH by (cbn [length]; lia). reflexivity.
Qed.

Lemma swapWords4_involutive (b : list byte) : swapWords4 (swapWords4 b) = b.
Proof.
  induction b as [b IH] using (induction_ltof1 _ (@length _)). unfold ltof in IH.
  destruct b as [|b0 [|b1 [|b2 [|b3 r]]]]; try reflexivity.
  cbn [swapWords4]. rewrite IH by (cbn [length]; lia). reflexivity.
Qed.

(** X12. The previous-block hash goes from the display order of the block
    template to the Stratum form and from there into the header: what
    [stratumPrevHashToInternal] returns for the text
    [displayToStratumPrevHash] produced is the hash in internal byte order,
    the reverse of the display order. *)
Theorem stratumPrevHash_round_trip (h : list byte) :
  length h = 32%nat ->
  exists stratumHex,
    displayToStratumPrevHash (HashToHex h) = Good stratumHex
    /\ stratumPrevHashToInternal stratumHex = Good h.
Proof.
  intros Hh. unfold displayToStratumPrevHash, stratumPrevHashToInternal, HashToHex, ReverseBytes.
  rewrite work_facts.DecodeString_EncodeToString, length_rev, Hh. cbn [Nat.eqb negb].
  eexists. split; [reflexivity|].
  rewrite work_facts.DecodeString_EncodeToString, swapWords4_length, rev_involutive, Hh.
  cbn [Nat.eqb negb]. now rewrite swapWords4_involutive.
Qed.

Lemma stratumPrevHash_round_trip_witness :
  exists stratumHex,
    displayToStratumPrevHash (HashToHex (map byte_of_Z (seqZ 1 32))) = Good stratumHex
    /\ stratumPrevHashToInternal stratumHex = Good (map byte_of_Z (seqZ 1 32)).
Proof. apply (stratumPrevHash_round_trip (map byte_of_Z (seqZ 1 32))). reflexivity. Defined.


(** *** The header a submission reconstructs *)

Lemma le_bytes_le_value (l : list byte) : le_bytes (length l) (le_value l) = l.
Proof.
  induction l as [|b0 r IH]; [reflexivity|].
  cbn [length le_bytes le_value]. pose proof (Z_of_byte_range b0) as Hb.
  pose proof (le_value_range r) as Hr.
  rewrite Z.shiftl_mul_pow2, Z.lor_comm by lia.
  rewrite (compact_facts.lor_disjoint _ _ 8);
    [|lia|change (2 ^ 8) with 256; now rewrite Z.mod_mul by lia|lia].
  change (2 ^ 8) with 256. f_equal.
  - unfold byte_of_Z. rewrite Z.add_comm, Z.mod_add, Z.mod_small by lia.
    fold (byte_of_Z (Z_of_byte b0)). unfold byte_of_Z.
    rewrite <- (Z.mod_small (Z_of_byte b0) 256) at 1 by lia.
    apply byte_of_Z_of_byte.
  - rewrite Z.shiftr_div_pow2 by lia. change (2 ^ 8) with 256.
    rewrite Z.add_comm, Z.div_add, Z.div_small by lia. exact IH.
Qed.

Lemma PutUint32_big_SetBytes (b : list byte) :
  length b = 4%nat -> PutUint32 (uint32 (big_SetBytes b)) = ReverseBytes b.
Proof.
  intros Hb. unfold PutUint32, uint32, big_SetBytes, ReverseBytes.
  pose proof (le_value_range (rev b)) as Hr. rewrite length_rev, Hb in Hr.
  change (2 ^ (8 * Z.of_nat 4)) with (2 ^ 32) in Hr.
  rewrite Z.mod_small by lia.
  replace 4%nat with (length (rev b)) by (now rewrite length_rev).
  apply le_bytes_le_value.
Qed.

Lemma copyAt_app (pre old post src : list byte) (lo hi : nat) :
  lo = length pre -> hi = (lo + length old)%nat -> length src = length old ->
  copyAt (pre ++ old ++ post) lo hi src = pre ++ src ++ post.
Proof.
  intros -> -> Hsrc. unfold copyAt.
  replace (length pre + length old - length pre)%nat with (length old) by lia.
  rewrite Hsrc, Nat.min_id. rewrite take_app_length.
  rewrite (take_ge src) by lia.
  assert (drop (length pre + length old) (pre ++ old ++ post) = post) as ->.
  { rewrite app_assoc. apply drop_app_length'. now rewrite length_app. }
  reflexivity.
Qed.

Section header.
Variable Sum256 : list byte -> list byte.
Variable AddCoinbaseWitness : list byte -> list byte.
(** [sha256.Sum256] returns a [[32]byte]. *)
Hypothesis Sum256_length : forall data, length (Sum256 data) = 32%nat.

Lemma merkleFold_length (branches : list string) :
  forall c root, length c = 32%nat ->
    merkleFold Sum256 c branches = Ok root -> length root = 32%nat.
Proof.
  induction branches as [|b r IH]; intros c root Hc.
  - intros [= <-]. exact Hc.
  - cbn [merkleFold]. destruct (hex.DecodeString b); [|discriminate].
    apply IH. unfold DoubleSHA256. apply Sum256_length.
Qed.

Lemma hexBEToLE_Good (hexStr : string) (n : Z) (out : list byte) :
  hexBEToLE hexStr n = Good out ->
  exists b, hex.DecodeString hexStr = Ok b /\ Z.of_nat (length b) = n
            /\ out = ReverseBytes b.
Proof.
  unfold hexBEToLE. destruct (hex.DecodeString hexStr) as [b|]; [|discriminate].
  destruct (Z.eqb_spec (Z.of_nat (length b)) n); [|discriminate].
  intros [= <-]. eauto.
Qed.

Lemma stratumPrevHashToInternal_Good (stratumHex : string) (out : list byte) :
  stratumPrevHashToInternal stratumHex = Good out ->
  exists b, hex.DecodeString stratumHex = Ok b /\ length b = 32%nat
            /\ out = swapWords4 b.
Proof.
  unfold stratumPrevHashToInternal.
  destruct (hex.DecodeString stratumHex) as [b|]; [|discriminate].
  destruct (Nat.eqb_spec (length b) 32); [|discriminate].
  intros [= <-]. eauto.
Qed.

(** The six fields of the header a successful [ReconstructHeader] returns. *)
Lemma ReconstructHeader_layout (job : JobData)
    (version extranonce1 extranonce2 ntime nonce : string) (header coinbase : list byte) :
  ReconstructHeader Sum256 job version extranonce1 extranonce2 ntime nonce
  = Good (header, coinbase) ->
  exists versionBE prevStratum root ntimeBE nbitsBE nonceBE,
    hex.DecodeString (Coinbase1 job +:+ extranonce1 +:+ extranonce2 +:+ Coinbase2 job)
    = Ok coinbase
    /\ (hex.DecodeString version = Ok versionBE /\ length versionBE = 4%nat)
    /\ (hex.DecodeString (PrevBlockHash job) = Ok prevStratum
        /\ length prevStratum = 32%nat)
    /\ (ComputeMerkleRoot Sum256 (DoubleSHA256 Sum256 coinbase) (MerkleBranches job)
        = Ok root /\ length root = 32%nat)
    /\ (hex.DecodeString ntime = Ok ntimeBE /\ length ntimeBE = 4%nat)
    /\ (hex.DecodeString (NBits job) = Ok nbitsBE /\ length nbitsBE = 4%nat)
    /\ (hex.DecodeString nonce = Ok nonceBE /\ length nonceBE = 4%nat)
    /\ header = ReverseBytes versionBE ++ swapWords4 prevStratum ++ root
                ++ ReverseBytes ntimeBE ++ ReverseBytes nbitsBE ++ ReverseBytes nonceBE.
Proof.
  unfold ReconstructHeader.
  destruct (hex.DecodeString _) as [cb|] eqn:Hcb; [|discriminate].
  destruct (ComputeMerkleRoot _ _ _) as [root|] eqn:Hroot; [|discriminate].
  destruct (hexBEToLE version 4) as [vb|] eqn:Hv; [|discriminate].
  destruct (stratumPrevHashToInternal _) as [pb|] eqn:Hp; [|discriminate].
  destruct (hexBEToLE ntime 4) as [tb|] eqn:Ht; [|discriminate].
  destruct (hexBEToLE (NBits job) 4) as [bb|] eqn:Hb; [|discriminate].
  destruct (hexBEToLE nonce 4) as [nb|] eqn:Hn; [|discriminate].
  intros [= <- <-].
  apply hexBEToLE_Good in Hv as (v & Hv & Hvl & ->).
  apply hexBEToLE_Good in Ht as (t & Ht & Htl & ->).
  apply hexBEToLE_Good in Hb as (b & Hb & Hbl & ->).
  apply hexBEToLE_Good in Hn as (n & Hn & Hnl & ->).
  apply stratumPrevHashToInternal_Good in Hp as (p & Hp & Hpl & ->).
  assert (length root = 32%nat) as Hrl.
  { eapply merkleFold_length; [|exact Hroot]. unfold DoubleSHA256. apply Sum256_length. }
  exists v, p, root, t, b, n.
  split; [reflexivity|].
  repeat (split; [split; [assumption|lia]|]).
  unfold ReverseBytes.
  pose (z4 := replicate 4 zero). pose (z32 := replicate 32 zero).
  match goal with |- context [copyAt ?l 0 4 (rev v)] =>
    change l with ([] ++ z4 ++ (z32 ++ z32 ++ z4 ++ z4 ++ z4)) end.
  rewrite (copyAt_app [] z4) by (rewrite ?length_rev; cbn [length]; unfold z4; rewrite ?length_replicate; lia).
  cbn [app].
  rewrite (copyAt_app (rev v) z32)
    by (rewrite ?length_rev, ?swapWords4_length; unfold z32; rewrite ?length_replicate; lia).
  rewrite (app_assoc (rev v)).
  rewrite (copyAt_app (rev v ++ swapWords4 p) z32)
    by (rewrite ?length_app, ?length_rev, ?swapWords4_length; unfold z32;
        rewrite ?length_replicate; lia).
  rewrite (app_assoc (rev v ++ swapWords4 p)).
  rewrite (copyAt_app ((rev v ++ swapWords4 p) ++ root) z4)
    by (rewrite ?length_app, ?length_rev, ?swapWords4_length; unfold z4;
        rewrite ?length_replicate; lia).
  rewrite (app_assoc ((rev v ++ swapWords4 p) ++ root)).
  rewrite (copyAt_app (((rev v ++ swapWords4 p) ++ root) ++ rev t) z4)
    by (rewrite ?length_app, ?length_rev, ?swapWords4_length; unfold z4;
        rewrite ?length_replicate; lia).
  rewrite (app_assoc (((rev v ++ swapWords4 p) ++ root) ++ rev t)).
  rewrite <- (app_nil_r z4) at 1.
  rewrite (copyAt_app ((((rev v ++ swapWords4 p) ++ root) ++ rev t) ++ rev b) z4 [])
    by (rewrite ?length_app, ?length_rev, ?swapWords4_length; unfold z4;
        rewrite ?length_replicate; lia).
  rewrite app_nil_r, <- !app_assoc. reflexivity.
Qed.


Lemma PutUint32_BE (b : list byte) :
  length b = 4%nat -> PutUint32 (big_SetBytes b) = ReverseBytes b.
Proof.
  intros Hb. rewrite <- (PutUint32_big_SetBytes b Hb). f_equal.
  unfold uint32, big_SetBytes.
  pose proof (le_value_range (rev b)) as Hr. rewrite length_rev, Hb in Hr.
  change (2 ^ (8 * Z.of_nat 4)) with (2 ^ 32) in Hr.
  now rewrite Z.mod_small by lia.
Qed.

(** X13. The 80 bytes a successful [ReconstructHeader] returns are the
    serialization of a share header: its version, time, bits and nonce are
    the numbers the four hex texts denote, most significant digit first,
    its previous-block hash is the Stratum text with every 4-byte word
    swapped back, and its merkle root is the root folded from the hash of
    the reconstructed coinbase through the branches of the job. *)
Theorem ReconstructHeader_serializes (job : JobData)
    (version extranonce1 extranonce2 ntime nonce : string) (header coinbase : list byte) :
  ReconstructHeader Sum256 job version extranonce1 extranonce2 ntime nonce
  = Good (header, coinbase) ->
  exists versionBE prevStratum root ntimeBE nbitsBE nonceBE,
    hex.DecodeString version = Ok versionBE
    /\ hex.DecodeString (PrevBlockHash job) = Ok prevStratum
    /\ ComputeMerkleRoot Sum256 (DoubleSHA256 Sum256 coinbase) (MerkleBranches job)
       = Ok root
    /\ hex.DecodeString ntime = Ok ntimeBE
    /\ hex.DecodeString (NBits job) = Ok nbitsBE
    /\ hex.DecodeString nonce = Ok nonceBE
    /\ header
       = types.Serialize
           {| types.Version := big_SetBytes versionBE;
              types.PrevBlockHash := swapWords4 prevStratum;
              types.MerkleRoot := root;
              types.Timestamp := big_SetBytes ntimeBE;
              types.Bits := big_SetBytes nbitsBE;
              types.Nonce := big_SetBytes nonceBE |}
    /\ length header = 80%nat.
Proof.
  intros H.
  apply ReconstructHeader_layout in H
    as (v & p & root & t & b & n & _ & [Hv Hvl] & [Hp Hpl] & [Hr Hrl] & [Ht Htl]
        & [Hb Hbl] & [Hn Hnl] & ->).
  exists v, p, root, t, b, n. repeat (split; [assumption|]).
  unfold types.Serialize.
  cbn [types.Version types.PrevBlockHash types.MerkleRoot types.Timestamp types.Bits
       types.Nonce].
  rewrite PutUint32_big_SetBytes, !PutUint32_BE by assumption.
  split; [reflexivity|].
  unfold ReverseBytes. rewrite !length_app, !length_rev, swapWords4_length. lia.
Qed.

Lemma decodeTxIDs_extract (txs : list bitcoin.TemplateTransaction) :
  forall i txids, decodeTxIDs i txs = Good txids ->
    map (fun tx => hex.EncodeToString
                     (ReverseBytes (hex.decodedPrefix (bitcoin.TxID tx)))) txs
    = map hex.EncodeToString txids.
Proof.
  induction txs as [|tx r IH]; intros i txids.
  - intros [= <-]. reflexivity.
  - cbn [decodeTxIDs]. destruct (hex.DecodeString (bitcoin.TxID tx)) as [b|] eqn:Hb;
      [|discriminate].
    destruct (decodeTxIDs (S i) r) as [tl|] eqn:Hr; [|discriminate].
    intros [= <-]. cbn [map]. rewrite (decodedPrefix_Ok _ _ Hb), (IH _ _ Hr).
    reflexivity.
Qed.

(** X14. A header reconstructed from a job passes the merkle check against the
    template the job was built from: when the txids of the template are
    valid hex and the branches of the job are those computed from
    [extractTxHashes] of the template, [VerifyMerkleRoot] accepts whatever
    [ReconstructHeader] returns, for every extranonce and every header
    field the miner submits. *)
Theorem VerifyMerkleRoot_ReconstructHeader (job : JobData) (tmpl : bitcoin.BlockTemplate)
    (version extranonce1 extranonce2 ntime nonce : string)
    (header coinbase : list byte) (txids : list (list byte)) :
  decodeTxIDs 0 (bitcoin.Transactions tmpl) = Good txids ->
  ComputeMerkleBranches Sum256 (extractTxHashes tmpl) = Ok (MerkleBranches job) ->
  ReconstructHeader Sum256 job version extranonce1 extranonce2 ntime nonce
  = Good (header, coinbase) ->
  VerifyMerkleRoot Sum256 header coinbase tmpl = None.
Proof.
  intros Htx Hbr H.
  apply ReconstructHeader_layout in H
    as (v & p & root & t & b & n & _ & [Hv Hvl] & [Hp Hpl] & [Hr Hrl] & [Ht Htl]
        & [Hb Hbl] & [Hn Hnl] & ->).
  unfold VerifyMerkleRoot. rewrite Htx.
  assert (root = ComputeFullMerkleRoot Sum256 (DoubleSHA256 Sum256 coinbase :: txids))
    as Hroot.
  { unfold extractTxHashes in Hbr. rewrite (decodeTxIDs_extract _ _ _ Htx) in Hbr.
    unfold ComputeMerkleBranches in Hbr. rewrite length_map in Hbr.
    unfold ComputeMerkleRoot in Hr. unfold ComputeFullMerkleRoot. cbn [length Nat.eqb].
    destruct txids as [|t0 txids'].
    - cbn [length Nat.eqb] in Hbr. injection Hbr as Hbr'. rewrite <- Hbr' in Hr.
      cbn [merkleFold] in Hr. injection Hr as <-. now simp fullLoop.
    - cbn [length Nat.eqb] in Hbr.
      rewrite work_facts.decodeHashes_encoded in Hbr. injection Hbr as Hbr'.
      rewrite <- Hbr', work_facts.merkleFold_branches in Hr. now injection Hr as <-. }
  unfold ReverseBytes.
  destruct (Nat.ltb_spec (length (rev v ++ swapWords4 p ++ root ++ rev t ++ rev b ++ rev n)) 68)
    as [Hshort|_].
  { rewrite !length_app, !length_rev, swapWords4_length in Hshort. lia. }
  assert (slice (rev v ++ swapWords4 p ++ root ++ rev t ++ rev b ++ rev n) 36 68 = root) as ->.
  { unfold slice. rewrite (app_assoc (rev v)).
    rewrite drop_app_length' by (rewrite length_app, length_rev, swapWords4_length; lia).
    change (68 - 36)%nat with 32%nat. rewrite <- Hrl. apply take_app_length. }
  rewrite bool_decide_eq_true_2 by exact Hroot. reflexivity.
Qed.

End header.


Definition sampleSum256 (data : list byte) : list byte :=
  take 32 (rev data ++ replicate 32 zero).

Lemma sampleSum256_length data : length (sampleSum256 data) = 32%nat.
Proof.
  unfold sampleSum256. rewrite length_take, length_app, length_replicate. lia.
Qed.

Definition sampleTemplate : bitcoin.BlockTemplate :=
  {| bitcoin.Version := 536870912;
     bitcoin.PreviousBlockHash :=
       "0000000000000003fa0d845513ea5014a7859d411f5f4a91eaab24eb47a18f39";
     bitcoin.Transactions :=
       [ {| bitcoin.Data := "0100aa"; bitcoin.TxID := HashToHex (map byte_of_Z (seqZ 1 32));
            bitcoin.Hash := ""; bitcoin.Fee := 10; bitcoin.SigOps := 1;
            bitcoin.Weight := 400 |};
         {| bitcoin.Data := "0200bbcc"; bitcoin.TxID := HashToHex (map byte_of_Z (seqZ 41 32));
            bitcoin.Hash := ""; bitcoin.Fee := 20; bitcoin.SigOps := 1;
            bitcoin.Weight := 500 |} ];
     bitcoin.CoinbaseAux := None;
     bitcoin.CoinbaseValue := 5000000000;
     bitcoin.Target := "00000000ffff0000000000000000000000000000000000000000000000000000";
     bitcoin.MinTime := 0;
     bitcoin.Mutable := [];
     bitcoin.NonceRange := "00000000ffffffff";
     bitcoin.SigOpLimit := 80000;
     bitcoin.SizeLimit := 4000000;
     bitcoin.WeightLimit := 4000000;
     bitcoin.CurTime := 1700000000;
     bitcoin.Bits := "1d00ffff";
     bitcoin.Height := 800000;
     bitcoin.DefaultWitnessCommitment := "" |}.

Definition sampleJob : JobData :=
  {| ID := "1"; Seq := 1;
     PrevBlockHash :=
       match displayToStratumPrevHash (bitcoin.PreviousBlockHash sampleTemplate) with
       | Good s => s
       | Bad _ => ""
       end;
     Coinbase1 := "01000000aa"; Coinbase2 := "bbcc";
     CoinbaseTx := []; ExtranonceOffset := 5;
     MerkleBranches :=
       match ComputeMerkleBranches sampleSum256 (extractTxHashes sampleTemplate) with
       | Ok b => b
       | Err _ => []
       end;
     Version := "20000000"; NBits := "1d00ffff"; NTime := "6553f100";
     Height := 800000; CleanJobs := true; Template := Some sampleTemplate |}.

Lemma ReconstructHeader_serializes_witness :
  exists header coinbase,
    ReconstructHeader sampleSum256 sampleJob "20000000" "0a0b" "0c0d" "6553f100" "0000002a"
    = Good (header, coinbase)
    /\ exists versionBE prevStratum root ntimeBE nbitsBE nonceBE,
         hex.DecodeString "20000000" = Ok versionBE
         /\ hex.DecodeString (PrevBlockHash sampleJob) = Ok prevStratum
         /\ ComputeMerkleRoot sampleSum256 (DoubleSHA256 sampleSum256 coinbase)
              (MerkleBranches sampleJob) = Ok root
         /\ hex.DecodeString "6553f100" = Ok ntimeBE
         /\ hex.DecodeString (NBits sampleJob) = Ok nbitsBE
         /\ hex.DecodeString "0000002a" = Ok nonceBE
         /\ header
            = types.Serialize
                {| types.Version := big_SetBytes versionBE;
                   types.PrevBlockHash := swapWords4 prevStratum;
                   types.MerkleRoot := root;
                   types.Timestamp := big_SetBytes ntimeBE;
                   types.Bits := big_SetBytes nbitsBE;
                   types.Nonce := big_SetBytes nonceBE |}
         /\ length header = 80%nat.
Proof.
  eexists _, _. split; [vm_compute; reflexivity|].
  apply (ReconstructHeader_serializes sampleSum256 sampleSum256_length sampleJob
           "20000000" "0a0b" "0c0d" "6553f100" "0000002a").
  vm_compute. reflexivity.
Defined.

Lemma VerifyMerkleRoot_ReconstructHeader_witness :
  exists header coinbase,
    ReconstructHeader sampleSum256 sampleJob "20000000" "0a0b" "0c0d" "6553f100" "0000002a"
    = Good (header, coinbase)
    /\ VerifyMerkleRoot sampleSum256 header coinbase sampleTemplate = None.
Proof.
  eexists _, _. split; [vm_compute; reflexivity|].
  eapply (VerifyMerkleRoot_ReconstructHeader sampleSum256 sampleSum256_length sampleJob
            sampleTemplate "20000000" "0a0b" "0c0d" "6553f100" "0000002a");
    vm_compute; reflexivity.
Defined.

End job_facts.

Module block_facts.
Import binary binary_facts util util_hex work hex_facts varint_facts job_facts.

Section block.
Variable AddCoinbaseWitness : list byte -> list byte.

(** X15. The block [ReconstructBlock] returns is hex text of the 80-byte header
    followed by the transaction count, the coinbase with its witness and
    the template transactions; reading a varint right after the header
    gives one more than the number of template transactions. *)
Theorem ReconstructBlock_layout (header coinbase : list byte)
    (tmpl : bitcoin.BlockTemplate) (blockHex : string) :
  length header = 80%nat ->
  Z.of_nat (length (bitcoin.Transactions tmpl)) < MaxInt64 ->
  ReconstructBlock AddCoinbaseWitness header coinbase tmpl = Good blockHex ->
  exists block txs,
    hex.DecodeString blockHex = Ok block
    /\ decodeTxData (bitcoin.Transactions tmpl) = Good txs
    /\ take 80 block = header
    /\ (exists n, ReadVarInt (drop 80 block)
                  = Ok (1 + Z.of_nat (length (bitcoin.Transactions tmpl)), n)
                  /\ drop (80 + Z.to_nat n) block = AddCoinbaseWitness coinbase ++ txs).
Proof.
  intros Hh Hn. unfold ReconstructBlock.
  destruct (decodeTxData (bitcoin.Transactions tmpl)) as [txs|] eqn:Htx; [|discriminate].
  intros [= <-]. eexists _, txs.
  split; [apply work_facts.DecodeString_EncodeToString|].
  split; [reflexivity|].
  set (count := 1 + Z.of_nat (length (bitcoin.Transactions tmpl))).
  assert (uint64 count = count) as ->.
  { unfold uint64, count, MaxInt64 in *. apply Z.mod_small. lia. }
  split; [rewrite <- Hh; apply take_app_length|].
  match goal with |- context [drop 80 (header ++ ?r)] =>
    assert (drop 80 (header ++ r) = r) as -> by (rewrite <- Hh; apply drop_app_length) end.
  eexists. split.
  - apply ReadVarInt_app. unfold count, MaxInt64 in *. lia.
  - rewrite Nat2Z.id, app_assoc. apply drop_app_length'.
    rewrite length_app, Hh. reflexivity.
Qed.

End block.

Lemma ReconstructBlock_layout_witness :
  exists block txs,
    hex.DecodeString
      (hex.EncodeToString
         (replicate 80 (byte_of_Z 7) ++ WriteVarInt 3
          ++ (byte_of_Z 0 :: map byte_of_Z [1; 2]) ++ map byte_of_Z [1; 0; 170; 2; 0; 187; 204]))
    = Ok block
    /\ decodeTxData (bitcoin.Transactions sampleTemplate) = Good txs
    /\ take 80 block = replicate 80 (byte_of_Z 7)
    /\ (exists n, ReadVarInt (drop 80 block)
                  = Ok (1 + Z.of_nat (length (bitcoin.Transactions sampleTemplate)), n)
                  /\ drop (80 + Z.to_nat n) block
                     = (byte_of_Z 0 :: map byte_of_Z [1; 2]) ++ txs).
Proof.
  apply (ReconstructBlock_layout (fun cb => byte_of_Z 0 :: cb)
           (replicate 80 (byte_of_Z 7)) (map byte_of_Z [1; 2]) sampleTemplate).
  - reflexivity.
  - vm_compute. reflexivity.
  - vm_compute. reflexivity.
Defined.

End block_facts.

(** ** The work generator *)
Module generator_facts.
Import work.

Lemma backoffLoop_closed (n : nat) (d : Z) :
  0 < d <= 60 * Second ->
  backoffLoop n d = Z.min (d * 2 ^ Z.of_nat n) (60 * Second).
Proof.
  revert d. induction n as [|n IH]; intros d Hd.
  - cbn [backoffLoop]. change (2 ^ Z.of_nat 0) with 1. lia.
  - cbn [backoffLoop].
    assert (int64 (d * 2) = d * 2) as ->.
    { apply pplns_facts.int64_id. unfold MinInt64, MaxInt64, Second in *. lia. }
    rewrite Nat2Z.inj_succ, Z.pow_succ_r by lia.
    assert (1 <= 2 ^ Z.of_nat n) by (apply (Z.pow_le_mono_r 2 0); lia).
    destruct (Z.ltb_spec (60 * Second) (d * 2)) as [Hbig|Hsmall].
    + nia.
    + rewrite IH by lia. f_equal. lia.
Qed.

(** X16. The retry delay doubles with every failure in a row, from the poll
    interval of 5 seconds up to a cap of 60 seconds: it is 5, 10, 20, 40
    and from the fifth failure on 60 seconds, and never outside
    [5 s, 60 s]. *)
Theorem backoffDuration_closed (failures : Z) :
  backoffDuration failures
  = (if failures <=? 0 then PollInterval
     else Z.min (PollInterval * 2 ^ (failures - 1)) (60 * Second))
  /\ PollInterval <= backoffDuration failures <= 60 * Second
  /\ (5 <= failures -> backoffDuration failures = 60 * Second).
Proof.
  assert (backoffDuration failures
          = if failures <=? 0 then PollInterval
            else Z.min (PollInterval * 2 ^ (failures - 1)) (60 * Second)) as Hc.
  { unfold backoffDuration. destruct (Z.leb_spec failures 0); [reflexivity|].
    rewrite backoffLoop_closed by (unfold PollInterval, Second; lia).
    now rewrite Z2Nat.id by lia. }
  split; [exact Hc|]. rewrite Hc.
  destruct (Z.leb_spec failures 0) as [Hf|Hf].
  - unfold PollInterval, Second. lia.
  - assert (1 <= 2 ^ (failures - 1)) by (apply (Z.pow_le_mono_r 2 0); lia).
    split; [unfold PollInterval, Second in *; nia|].
    intros H5.
    assert (2 ^ 4 <= 2 ^ (failures - 1)) by (apply Z.pow_le_mono_r; lia).
    unfold PollInterval, Second in *. lia.
Qed.


(** *** The stored jobs *)
Section jobs.
Variable order : gmap string JobData -> list (string * JobData).
(** A walk of [range] visits every entry of the map once. *)
Hypothesis order_perm : forall m, order m ≡ₚ map_to_list m.

Lemma order_lookup m id j : (id, j) ∈ order m <-> m !! id = Some j.
Proof. rewrite (order_perm m). apply elem_of_map_to_list. Qed.

Lemma order_nonempty m : (0 < size m)%nat -> order m <> [].
Proof.
  intros Hs Hnil. pose proof (order_perm m) as Hp. rewrite Hnil in Hp.
  apply Permutation_nil_l in Hp. symmetry in Hp. apply map_to_list_empty_iff in Hp. subst m.
  rewrite map_size_empty in Hs. lia.
Qed.

(** Whatever the scan returns was taken from the walk. *)
Lemma oldestStep_from l : forall st,
  foldl oldestStep st l = st
  \/ exists j, (fst (foldl oldestStep st l), j) ∈ l
               /\ snd (foldl oldestStep st l) = Seq j.
Proof.
  induction l as [|[id j] l IH]; intros st; [now left|].
  cbn [foldl]. destruct (IH (oldestStep st (id, j))) as [Heq|(j' & Hin & Hs)].
  - rewrite Heq. destruct st as [oid oseq]. unfold oldestStep.
    destruct (String.eqb oid "" || (Seq j <? oseq)); [|now left].
    right. exists j. split; [apply list_elem_of_here|reflexivity].
  - right. exists j'. split; [now apply list_elem_of_further|assumption].
Qed.

Lemma oldestScan_key m : (0 < size m)%nat -> is_Some (m !! oldestScan order m).
Proof.
  intros Hs. unfold oldestScan.
  destruct (order m) as [|[id j] l] eqn:Ho; [now apply order_nonempty in Ho|].
  cbn [foldl]. change (oldestStep ("", 0) (id, j)) with (id, Seq j).
  destruct (oldestStep_from l (id, Seq j)) as [Heq|(j' & Hin & _)].
  - rewrite Heq. exists j. apply order_lookup. rewrite Ho. apply list_elem_of_here.
  - exists j'. apply order_lookup. rewrite Ho. now apply list_elem_of_further.
Qed.

Lemma evictLoop_size fuel : forall m,
  (size m <= maxStoredJobs + fuel)%nat -> (size (evictLoop order fuel m) <= maxStoredJobs)%nat.
Proof.
  induction fuel as [|fuel IH]; intros m Hm; cbn [evictLoop]; [lia|].
  destruct (Nat.ltb_spec maxStoredJobs (size m)) as [Hbig|]; [|assumption].
  apply IH. pose proof (oldestScan_key m ltac:(lia)) as Hk.
  rewrite (map_size_delete_Some _ m Hk). lia.
Qed.

Lemma evictLoop_subseteq fuel : forall m, evictLoop order fuel m ⊆ m.
Proof.
  induction fuel as [|fuel IH]; intros m; cbn [evictLoop]; [reflexivity|].
  destruct (maxStoredJobs <? size m)%nat; [|reflexivity].
  etransitivity; [apply IH|apply delete_subseteq].
Qed.

(** X17. [storeJob] never leaves more than [maxStoredJobs] jobs in the map,
    whatever the map held before and in whatever order [range] walks it;
    it only ever removes entries, and removes none while there is room. *)
Theorem storeJob_bound (jobs : gmap string JobData) (job : JobData) :
  (size (storeJob order jobs job) <= maxStoredJobs)%nat
  /\ storeJob order jobs job ⊆ <[ID job := job]> jobs
  /\ ((size (<[ID job := job]> jobs) <= maxStoredJobs)%nat ->
      storeJob order jobs job = <[ID job := job]> jobs).
Proof.
  unfold storeJob. split; [apply evictLoop_size; lia|].
  split; [apply evictLoop_subseteq|].
  intros Hroom. generalize (size (<[ID job := job]> jobs)). intros [|fuel];
    [reflexivity|].
  cbn [evictLoop]. destruct (Nat.ltb_spec maxStoredJobs (size (<[ID job := job]> jobs)));
    [lia|reflexivity].
Qed.

(** With identifiers that are not empty, the scan finds an entry of least
    [Seq]. *)
Lemma oldestStep_min l : forall oid oseq,
  oid <> "" -> Forall (fun e => e.1 <> "") l ->
  fst (foldl oldestStep (oid, oseq) l) <> ""
  /\ snd (foldl oldestStep (oid, oseq) l) <= oseq
  /\ Forall (fun e => snd (foldl oldestStep (oid, oseq) l) <= Seq e.2) l.
Proof.
  induction l as [|[id j] l IH]; intros oid oseq Hoid Hl.
  - cbn [foldl fst snd]. repeat split; [assumption|lia|constructor].
  - apply Forall_cons in Hl as [Hid Hl]. cbn [fst] in Hid. cbn [foldl].
    unfold oldestStep at 2 4 6.
    destruct (String.eqb_spec oid ""); [contradiction|]. cbn [orb].
    destruct (Z.ltb_spec (Seq j) oseq) as [Hlt|Hge].
    + destruct (IH id (Seq j) Hid Hl) as (H1 & H2 & H3).
      repeat split; [assumption|lia|]. constructor; [cbn [snd]; lia|assumption].
    + destruct (IH oid oseq Hoid Hl) as (H1 & H2 & H3).
      repeat split; [assumption|lia|]. constructor; [cbn [snd]; lia|assumption].
Qed.

Lemma oldestScan_min m :
  (0 < size m)%nat -> map_Forall (fun id _ => id <> "") m ->
  exists j, m !! oldestScan order m = Some j
            /\ map_Forall (fun _ j' => Seq j <= Seq j') m.
Proof.
  intros Hs Hkeys. unfold oldestScan.
  assert (Forall (fun e => e.1 <> "") (order m)) as Hl.
  { apply Forall_forall. intros [id j] Hin. apply order_lookup in Hin.
    exact (Hkeys id j Hin). }
  assert (forall id' j', m !! id' = Some j' -> (id', j') ∈ order m) as Hall
    by (intros; now apply order_lookup).
  assert (forall id' j', (id', j') ∈ order m -> m !! id' = Some j') as Hback
    by (intros; now apply order_lookup).
  destruct (order m) as [|[id j] l] eqn:Ho; [now apply order_nonempty in Ho|].
  apply Forall_cons in Hl as [Hid Hl]. cbn [fst] in Hid.
  cbn [foldl]. change (oldestStep ("", 0) (id, j)) with (id, Seq j).
  destruct (oldestStep_min l id (Seq j) Hid Hl) as (_ & Hle & Hmin).
  assert (exists j0, (fst (foldl oldestStep (id, Seq j) l), j0) ∈ (id, j) :: l
                     /\ snd (foldl oldestStep (id, Seq j) l) = Seq j0) as (j0 & Hin & Hs0).
  { destruct (oldestStep_from l (id, Seq j)) as [Heq|(j' & Hin & Hs')].
    - rewrite Heq. exists j. split; [apply list_elem_of_here|reflexivity].
    - exists j'. split; [now apply list_elem_of_further|assumption]. }
  exists j0. split; [now apply Hback|].
  intros id' j' Hj'. apply Hall in Hj'. rewrite <- Hs0.
  apply elem_of_cons in Hj' as [[= -> ->]|Hj']; [assumption|].
  rewrite Forall_forall in Hmin. exact (Hmin _ Hj').
Qed.

Lemma evictLoop_oldest fuel : forall m,
  map_Forall (fun id _ => id <> "") m ->
  forall id j id' j',
    m !! id = Some j -> evictLoop order fuel m !! id = None ->
    evictLoop order fuel m !! id' = Some j' -> Seq j <= Seq j'.
Proof.
  induction fuel as [|fuel IH]; intros m Hkeys id j id' j' Hj Hgone Hkept.
  - cbn [evictLoop] in *. congruence.
  - cbn [evictLoop] in *.
    destruct (Nat.ltb_spec maxStoredJobs (size m)) as [Hbig|]; [|congruence].
    destruct (oldestScan_min m ltac:(lia) Hkeys) as (j0 & Hj0 & Hmin).
    assert (m !! id' = Some j') as Hm'.
    { eapply lookup_weaken; [exact Hkept|].
      etransitivity; [apply evictLoop_subseteq|apply delete_subseteq]. }
    destruct (decide (id = oldestScan order m)) as [->|Hne].
    + assert (j = j0) as -> by congruence. exact (Hmin id' j' Hm').
    + apply (IH (delete (oldestScan order m) m)) with id id'; try assumption.
      * intros k x Hk. apply lookup_delete_Some in Hk as [_ Hk]. exact (Hkeys k x Hk).
      * now rewrite lookup_delete_ne by congruence.
Qed.

Lemma evictLoop_keeps fuel (job : JobData) : forall m,
  map_Forall (fun id _ => id <> "") m ->
  m !! ID job = Some job ->
  map_Forall (fun id j => id <> ID job -> Seq j < Seq job) m ->
  evictLoop order fuel m !! ID job = Some job.
Proof.
  induction fuel as [|fuel IH]; intros m Hkeys Hjob Hnew; cbn [evictLoop]; [assumption|].
  destruct (Nat.ltb_spec maxStoredJobs (size m)) as [Hbig|]; [|assumption].
  destruct (oldestScan_min m ltac:(lia) Hkeys) as (j0 & Hj0 & Hmin).
  assert (oldestScan order m <> ID job) as Hne.
  { intros Heq. rewrite Heq in Hj0. assert (j0 = job) as -> by congruence.
    (* some other entry is in the map, and it is older *)
    assert (exists k x, m !! k = Some x /\ k <> ID job) as (k & x & Hk & Hkne).
    { destruct (map_choose (delete (ID job) m)) as (k & x & Hk).
      - intros Hempty. apply (f_equal size) in Hempty.
        rewrite map_size_empty in Hempty.
        rewrite (map_size_delete_Some _ m (mk_is_Some _ _ Hjob)) in Hempty.
        unfold maxStoredJobs in *. lia.
      - apply lookup_delete_Some in Hk as [Hkne Hk]. exists k, x. split; [assumption|congruence]. }
    pose proof (Hnew k x Hk Hkne). pose proof (Hmin k x Hk). cbn in *. lia. }
  apply IH.
  - intros k x Hk. apply lookup_delete_Some in Hk as [_ Hk]. exact (Hkeys k x Hk).
  - now rewrite lookup_delete_ne.
  - intros k x Hk. apply lookup_delete_Some in Hk as [_ Hk]. exact (Hnew k x Hk).
Qed.

(** X18. With job identifiers that are not empty (they are the sequence number
    in hex), [storeJob] evicts oldest first: no job it removed has a larger
    [Seq] than a job it kept, and a job whose [Seq] is larger than that of
    every stored job is still there afterwards, for [GetJob] to return. *)
Theorem storeJob_evicts_oldest (jobs : gmap string JobData) (job : JobData) :
  ID job <> "" ->
  map_Forall (fun id _ => id <> "") jobs ->
  (forall id j id' j',
     <[ID job := job]> jobs !! id = Some j ->
     GetJob (storeJob order jobs job) id = None ->
     GetJob (storeJob order jobs job) id' = Some j' ->
     Seq j <= Seq j')
  /\ (map_Forall (fun _ j => Seq j < Seq job) jobs ->
      GetJob (storeJob order jobs job) (ID job) = Some job).
Proof.
  intros Hid Hkeys.
  assert (map_Forall (fun id (_ : JobData) => id <> "") (<[ID job := job]> jobs)) as Hkeys'.
  { apply map_Forall_insert_2; assumption. }
  unfold GetJob, storeJob. split.
  - intros id j id' j'. apply evictLoop_oldest. exact Hkeys'.
  - intros Hnew. apply evictLoop_keeps; [exact Hkeys'|apply lookup_insert_eq|].
    intros k x Hk Hkne. rewrite lookup_insert_ne in Hk by congruence.
    exact (Hnew k x Hk).
Qed.

End jobs.


Definition sampleStored (seq : Z) : JobData :=
  {| ID := "job" +:+ pretty seq; Seq := seq; PrevBlockHash := ""; Coinbase1 := "";
     Coinbase2 := ""; CoinbaseTx := []; ExtranonceOffset := 0; MerkleBranches := [];
     Version := ""; NBits := ""; NTime := ""; Height := 0; CleanJobs := false;
     Template := None |}.

Definition sampleJobs : gmap string JobData :=
  foldr (fun seq m => <[ID (sampleStored seq) := sampleStored seq]> m) ∅ (seqZ 1 20).

Lemma storeJob_bound_witness :
  (size (storeJob map_to_list sampleJobs (sampleStored 21)) <= maxStoredJobs)%nat
  /\ storeJob map_to_list sampleJobs (sampleStored 21)
     ⊆ <[ID (sampleStored 21) := sampleStored 21]> sampleJobs
  /\ ((size (<[ID (sampleStored 21) := sampleStored 21]> sampleJobs) <= maxStoredJobs)%nat ->
      storeJob map_to_list sampleJobs (sampleStored 21)
      = <[ID (sampleStored 21) := sampleStored 21]> sampleJobs).
Proof.
  apply (storeJob_bound map_to_list (fun m => Permutation_refl (map_to_list m))).
Defined.

Lemma storeJob_evicts_oldest_witness :
  (forall id j id' j',
     <[ID (sampleStored 21) := sampleStored 21]> sampleJobs !! id = Some j ->
     GetJob (storeJob map_to_list sampleJobs (sampleStored 21)) id = None ->
     GetJob (storeJob map_to_list sampleJobs (sampleStored 21)) id' = Some j' ->
     Seq j <= Seq j')
  /\ (map_Forall (fun _ j => Seq j < Seq (sampleStored 21)) sampleJobs ->
      GetJob (storeJob map_to_list sampleJobs (sampleStored 21)) (ID (sampleStored 21))
      = Some (sampleStored 21)).
Proof.
  apply (storeJob_evicts_oldest map_to_list (fun m => Permutation_refl (map_to_list m))).
  - discriminate.
  - apply (bool_decide_unpack _). vm_compute. exact I.
Defined.

(** The twenty-first job pushes out the first. *)
Example storeJob_evicts_first :
  GetJob (storeJob map_to_list sampleJobs (sampleStored 21)) "job1" = None
  /\ GetJob (storeJob map_to_list sampleJobs (sampleStored 21)) "job21"
     = Some (sampleStored 21)
  /\ size (storeJob map_to_list sampleJobs (sampleStored 21)) = 20%nat.
Proof. vm_compute. repeat split. Qed.

End generator_facts.

(** ** The depth of the merkle branches *)
Module branch_facts.
Import util work work_facts.

Section depth.
Variable Sum256 : list byte -> list byte.

Lemma pairRemaining_half (l : list (list byte)) :
  Z.of_nat (length (pairRemaining Sum256 l)) = (Z.of_nat (length l) + 1) / 2.
Proof.
  induction l as [l IH] using (induction_ltof1 _ (@length _)). unfold ltof in IH.
  destruct l as [|a [|b r]]; [reflexivity|reflexivity|].
  cbn [pairRemaining length]. rewrite Nat2Z.inj_succ, IH by (cbn [length]; lia).
  rewrite !Nat2Z.inj_succ.
  replace (Z.succ (Z.succ (Z.of_nat (length r))) + 1) with (Z.of_nat (length r) + 1 + 1 * 2) by lia.
  rewrite Z.div_add by lia. lia.
Qed.

Lemma branchLoop_depth (T : list (list byte)) :
  T <> [] ->
  Z.of_nat (length (branchLoop Sum256 T [])) = Z.log2 (Z.of_nat (length T)) + 1.
Proof.
  induction T as [T IH] using (induction_ltof1 _ (@length _)). unfold ltof in IH.
  intros HT. destruct T as [|h [|r0 r]]; [contradiction| |].
  - simp branchLoop. reflexivity.
  - simp branchLoop. rewrite branchLoop_acc, length_app. cbn [app length].
    pose proof (pairRemaining_length Sum256 (r0 :: r)) as Hlen.
    pose proof (pairRemaining_half (r0 :: r)) as Hhalf.
    rewrite Nat2Z.inj_add, IH.
    + rewrite Hhalf. cbn [length]. rewrite !Nat2Z.inj_succ.
      set (n := Z.of_nat (length r)).
      replace (Z.succ (Z.succ n)) with (n + 2) by lia.
      replace (Z.succ n + 1) with (n + 2) by lia.
      change 2 with (2 ^ 1) at 2. rewrite <- Z.shiftr_div_pow2 by lia.
      rewrite Z.log2_shiftr by (unfold n; lia).
      assert (1 <= Z.log2 (n + 2)) by (apply Z.log2_le_pow2; unfold n; lia).
      change (Z.of_nat 1) with 1. lia.
    + cbn [length] in *. lia.
    + intros Hnil. rewrite Hnil in Hhalf. cbn [length] in Hhalf.
      rewrite !Nat2Z.inj_succ in Hhalf.
      assert (1 <= (Z.succ (Z.of_nat (length r)) + 1) / 2)
        by (apply Z.div_le_lower_bound; lia).
      lia.
Qed.

Lemma decodeHashes_length (txHashes : list string) :
  forall i hashes, decodeHashes i txHashes = Ok hashes -> length hashes = length txHashes.
Proof.
  induction txHashes as [|h r IH]; intros i hashes.
  - intros [= <-]. reflexivity.
  - cbn [decodeHashes]. destruct (hex.DecodeString h); [|discriminate].
    destruct (decodeHashes (S i) r) as [tl|] eqn:Hr; [|discriminate].
    intros [= <-]. cbn [length]. now rewrite (IH _ _ Hr).
Qed.

(** X19. The number of merkle branches is the depth of the tree: none for an
    empty list of transaction hashes, and for [n >= 1] hashes one more than
    the binary logarithm of [n], rounded down (1 branch for one hash, 2 for
    two or three, 3 for four to seven, ...). *)
Theorem ComputeMerkleBranches_depth (txHashes branches : list string) :
  ComputeMerkleBranches Sum256 txHashes = Ok branches ->
  Z.of_nat (length branches)
  = if (length txHashes =? 0)%nat then 0
    else Z.log2 (Z.of_nat (length txHashes)) + 1.
Proof.
  unfold ComputeMerkleBranches.
  destruct (Nat.eqb_spec (length txHashes) 0) as [Hz|Hnz].
  - intros [= <-]. reflexivity.
  - destruct (decodeHashes 0 txHashes) as [hashes|] eqn:Hd; [|discriminate].
    intros [= <-]. pose proof (decodeHashes_length _ _ _ Hd) as Hl.
    rewrite branchLoop_depth, Hl; [reflexivity|].
    intros ->. cbn [length] in Hl. lia.
Qed.

End depth.

Lemma ComputeMerkleBranches_depth_witness :
  Z.of_nat (length (branchLoop job_facts.sampleSum256
                      (map (fun k => map byte_of_Z (seqZ k 32)) (seqZ 1 5)) []))
  = if (length (map hex.EncodeToString
                  (map (fun k => map byte_of_Z (seqZ k 32)) (seqZ 1 5))) =? 0)%nat
    then 0
    else Z.log2 (Z.of_nat (length (map hex.EncodeToString
                  (map (fun k => map byte_of_Z (seqZ k 32)) (seqZ 1 5))))) + 1.
Proof.
  apply (ComputeMerkleBranches_depth job_facts.sampleSum256
           (map hex.EncodeToString (map (fun k => map byte_of_Z (seqZ k 32)) (seqZ 1 5)))).
  vm_compute. reflexivity.
Defined.

End branch_facts.

(** ** Share headers *)
Module header_facts.
Import binary binary_facts util types scriptlen_facts.

Lemma PutUint32_inj a b (x y : list byte) :
  PutUint32 a ++ x = PutUint32 b ++ y -> a mod 2 ^ 32 = b mod 2 ^ 32 /\ x = y.
Proof. apply le_bytes_app_inj. Qed.

(** X20. The 80 bytes of a header determine the header: [Serialize] is
    injective on headers whose fields are in the range of their Go types,
    so the block hash commits to every field. *)
Theorem Serialize_injective (h1 h2 : ShareHeader) :
  headerInRange h1 -> headerInRange h2 ->
  length (Serialize h1) = 80%nat
  /\ (Serialize h1 = Serialize h2 -> h1 = h2).
Proof.
  intros (HV1 & HP1 & HM1 & HT1 & HB1 & HN1) (HV2 & HP2 & HM2 & HT2 & HB2 & HN2).
  unfold Serialize. split.
  - rewrite !length_app. unfold PutUint32. rewrite !le_bytes_length. lia.
  - destruct h1 as [V1 P1 M1 T1 B1 N1], h2 as [V2 P2 M2 T2 B2 N2].
    cbn [Version PrevBlockHash MerkleRoot Timestamp Bits Nonce] in *.
    intros H. apply PutUint32_inj in H as [HV H].
    apply app_inj_1 in H as [-> H]; [|congruence].
    apply app_inj_1 in H as [-> H]; [|congruence].
    apply PutUint32_inj in H as [HT H].
    apply PutUint32_inj in H as [HB H].
    rewrite <- (app_nil_r (PutUint32 N1)), <- (app_nil_r (PutUint32 N2)) in H.
    apply PutUint32_inj in H as [HN _].
    unfold uint32 in HV. rewrite !Z.mod_mod in HV by lia.
    rewrite (Z.mod_small T1), (Z.mod_small T2) in HT by lia.
    rewrite (Z.mod_small B1), (Z.mod_small B2) in HB by lia.
    rewrite (Z.mod_small N1), (Z.mod_small N2) in HN by lia.
    assert (V1 = V2) by (revert HV; Z.div_mod_to_equations; lia).
    congruence.
Qed.

Definition sampleHeaderA : ShareHeader :=
  {| Version := 536870912; PrevBlockHash := replicate 32 zero;
     MerkleRoot := map byte_of_Z (seqZ 1 32); Timestamp := 1700000000;
     Bits := 0x1d00ffff; Nonce := 12345 |}.

Lemma sampleHeaderA_inRange : headerInRange sampleHeaderA.
Proof. unfold headerInRange. cbn. repeat split; lia. Qed.

Lemma Serialize_injective_witness :
  length (Serialize sampleHeaderA) = 80%nat
  /\ (Serialize sampleHeaderA = Serialize sampleHeaderA -> sampleHeaderA = sampleHeaderA).
Proof.
  apply (Serialize_injective sampleHeaderA sampleHeaderA);
    apply sampleHeaderA_inRange.
Defined.

End header_facts.

(** ** Big integers on the wire and the limiter table *)
Module wire_facts.
Import binary binary_facts util compact_facts varint_facts job_facts p2p.

Lemma le_value_app (a b : list byte) :
  le_value (a ++ b) = le_value a + le_value b * 2 ^ (8 * Z.of_nat (length a)).
Proof.
  induction a as [|a0 r IH].
  - cbn [app le_value length]. change (2 ^ (8 * Z.of_nat 0)) with 1. lia.
  - cbn [app le_value length]. rewrite IH.
    pose proof (Z_of_byte_range a0). pose proof (le_value_range r).
    pose proof (le_value_range b).
    assert (0 < 2 ^ (8 * Z.of_nat (length r))) by (apply Z.pow_pos_nonneg; lia).
    rewrite !Z.shiftl_mul_pow2 by lia.
    rewrite !(Z.lor_comm (Z_of_byte a0)).
    rewrite !(lor_disjoint _ _ 8);
      try lia; try (change (2 ^ 8) with 256; now rewrite Z.mod_mul by lia).
    replace (8 * Z.of_nat (S (length r))) with (8 * Z.of_nat (length r) + 8) by lia.
    rewrite Z.pow_add_r by lia. lia.
Qed.

Lemma big_SetBytes_big_Bytes (v : Z) : big_SetBytes (big_Bytes v) = Z.abs v.
Proof.
  unfold big_SetBytes, big_Bytes. rewrite rev_involutive, le_value_le_bytes.
  destruct (Z.eq_dec v 0) as [->|Hv]; [reflexivity|].
  destruct (byte_len_spec (Z.abs v) ltac:(lia)) as (_ & _ & Hhi).
  apply Z.mod_small. lia.
Qed.

(** X21. The total work of a tip travels as the bytes of a [big.Int]: the trip
    through [BigIntToBytes] and [BytesToBigInt] gives back a number that is
    not negative, turns nil into 0 and drops the sign of a negative number;
    the trip the other way drops leading zero bytes and nothing else. *)
Theorem BigInt_bytes_round_trip :
  (forall n, BytesToBigInt (BigIntToBytes n) = Z.abs (default 0 n))
  /\ (forall b, BytesToBigInt (zero :: b) = BytesToBigInt b)
  /\ (forall b0 b, b0 <> zero ->
        BigIntToBytes (Some (BytesToBigInt (b0 :: b))) = b0 :: b).
Proof.
  split; [|split].
  - intros [n|]; [|reflexivity]. unfold BigIntToBytes, BytesToBigInt.
    change (default 0 (Some n)) with n.
    destruct (Nat.eqb_spec (length (big_Bytes n)) 0) as [Hz|_].
    + rewrite <- (big_SetBytes_big_Bytes n).
      destruct (big_Bytes n); [reflexivity|discriminate].
    + apply big_SetBytes_big_Bytes.
  - intros b. unfold BytesToBigInt. cbn [length Nat.eqb].
    unfold big_SetBytes. cbn [rev]. rewrite le_value_app. cbn [le_value].
    change (Z_of_byte zero) with 0. rewrite Z.lor_0_l, Z.shiftl_0_l, Z.mul_0_l, Z.add_0_r.
    destruct b; reflexivity.
  - intros b0 b Hb0. unfold BigIntToBytes, BytesToBigInt. cbn [length Nat.eqb].
    unfold big_SetBytes, big_Bytes. cbn [rev].
    set (v := le_value (rev b ++ [b0])).
    assert (Z_of_byte b0 <> 0) as Hnz.
    { intros Hz. apply Hb0. rewrite <- (byte_of_Z_of_byte b0), Hz. reflexivity. }
    pose proof (Z_of_byte_range b0) as Hr0.
    pose proof (le_value_range (rev b)) as Hrb. rewrite length_rev in Hrb.
    assert (v = le_value (rev b) + Z_of_byte b0 * 2 ^ (8 * Z.of_nat (length b))) as Hv.
    { unfold v. rewrite le_value_app, length_rev. cbn [le_value].
      rewrite Z.shiftl_0_l, Z.lor_0_r. reflexivity. }
    assert (0 < 2 ^ (8 * Z.of_nat (length b))) by (apply Z.pow_pos_nonneg; lia).
    assert (0 < v) by nia.
    rewrite Z.abs_eq by lia.
    assert (Z.of_nat (byte_len v) = Z.of_nat (length (rev b ++ [b0]))) as HK.
    { apply byte_len_unique; [assumption|].
      rewrite length_app, length_rev. cbn [length].
      replace (8 * (Z.of_nat (length b + 1) - 1)) with (8 * Z.of_nat (length b)) by lia.
      replace (8 * Z.of_nat (length b + 1)) with (8 * Z.of_nat (length b) + 8) by lia.
      rewrite Z.pow_add_r by lia. change (2 ^ 8) with 256. nia. }
    apply Nat2Z.inj in HK. rewrite HK. unfold v.
    rewrite le_bytes_le_value, rev_app_distr, rev_involutive. reflexivity.
Qed.

(** *** The limiter table *)
Section limiters.
Variable Limiter : Type.
Variable firstKey : gmap string Limiter -> option string.
(** A walk over a map that is not empty starts at one of its keys. *)
Hypothesis firstKey_in :
  forall m, m <> ∅ -> exists k, firstKey m = Some k /\ is_Some (m !! k).

(** X22. The table of rate limiters never grows beyond 500 entries; the peer
    asked for is in the table afterwards with the limiter returned, and a
    peer that was already there keeps its limiter and leaves the table as
    it was. *)
Theorem getPeerLimiter_bound (peerLimiters : gmap string Limiter) (fresh : Limiter)
    (peerID : string) :
  (size peerLimiters <= maxPeerLimiters)%nat ->
  let '(lim, after) := getPeerLimiter Limiter firstKey peerLimiters fresh peerID in
  (size after <= maxPeerLimiters)%nat
  /\ after !! peerID = Some lim
  /\ (forall old, peerLimiters !! peerID = Some old -> lim = old /\ after = peerLimiters).
Proof.
  intros Hsize. unfold getPeerLimiter.
  destruct (peerLimiters !! peerID) as [lim|] eqn:Hl.
  - repeat split; [assumption|assumption|congruence].
  - split; [|split; [apply lookup_insert_eq|discriminate]].
    destruct (Nat.leb_spec maxPeerLimiters (size peerLimiters)) as [Hfull|Hroom].
    + destruct (firstKey_in peerLimiters) as (k & -> & Hk).
      { intros ->. rewrite map_size_empty in Hfull. unfold maxPeerLimiters in Hfull. lia. }
      rewrite map_size_insert. rewrite (map_size_delete_Some _ _ Hk).
      destruct (delete k peerLimiters !! peerID); unfold maxPeerLimiters, id in *; lia.
    + rewrite map_size_insert, Hl. unfold maxPeerLimiters in *. lia.
Qed.

End limiters.

Definition firstOf (m : gmap string nat) : option string := head (map_to_list m).*1.

Lemma firstOf_in (m : gmap string nat) :
  m <> ∅ -> exists k, firstOf m = Some k /\ is_Some (m !! k).
Proof.
  intros Hm. unfold firstOf.
  destruct (map_to_list m) as [|[k x] l] eqn:Hl.
  - apply map_to_list_empty_iff in Hl. contradiction.
  - exists k. split; [reflexivity|]. exists x.
    apply elem_of_map_to_list. rewrite Hl. apply list_elem_of_here.
Qed.

Lemma getPeerLimiter_bound_witness :
  let '(lim, after) :=
    getPeerLimiter nat firstOf (<["peerA" := 1%nat]> ∅) 2%nat "peerB" in
  (size after <= maxPeerLimiters)%nat
  /\ after !! "peerB" = Some lim
  /\ (forall old, (<["peerA" := 1%nat]> ∅ : gmap string nat) !! "peerB" = Some old ->
      lim = old /\ after = <["peerA" := 1%nat]> ∅).
Proof.
  apply (getPeerLimiter_bound nat firstOf firstOf_in (<["peerA" := 1%nat]> ∅) 2%nat "peerB").
  apply Nat.leb_le. vm_compute. reflexivity.
Defined.

End wire_facts.

(** ** More on retargeting *)
Module retarget_facts.
Import types util compact_facts difficulty_facts target_facts sharechain.

(** X23. Only the 72 most recent shares count: the rest of the list is never
    read. *)
Theorem NextTarget_window (dc : DifficultyCalculator) (shares : list Share) :
  NextTarget dc shares = NextTarget dc (take DifficultyAdjustmentWindow shares).
Proof.
  destruct (Nat.le_gt_cases (length shares) DifficultyAdjustmentWindow) as [Hle|Hgt].
  - now rewrite take_ge by exact Hle.
  - unfold NextTarget. rewrite length_take.
    rewrite (Nat.min_l DifficultyAdjustmentWindow) by lia.
    unfold DifficultyAdjustmentWindow in *.
    destruct (Nat.ltb_spec (length shares) 2); [lia|].
    destruct (Nat.ltb_spec 72 (length shares)); [|lia].
    change (72 <? 2)%nat with false. change (72 <? 72)%nat with false.
    cbv iota. reflexivity.
Qed.

(** A share is comparable with the newest when it has a target that is
    not zero and lies within a factor 4 of the newest target. *)
Definition comparable (T : Z) (s : Share) : Prop :=
  exists st, ShareTarget s = Some st /\ st <> 0 /\ T / 4 <= st <= T * 4.

Lemma comparableShares_all (T : Z) (rest : list Share) :
  0 < T -> Forall (comparable T) rest ->
  comparableShares (T * 4) (big_Div T 4) rest = rest.
Proof.
  intros HT. induction 1 as [|s r (st & Hs & Hnz & Hr) _ IH]; [reflexivity|].
  cbn [comparableShares]. rewrite Hs.
  change (big_Div T 4) with (T / 4) in *.
  destruct (Z.eqb_spec st 0); [contradiction|].
  destruct (Z.ltb_spec (T * 4) st); [lia|].
  destruct (Z.ltb_spec st (T / 4)); [lia|].
  cbn [orb]. now rewrite IH.
Qed.

(** X24. Shares that arrive exactly on schedule leave the difficulty where it
    is: when every share of the window is comparable with the newest and
    the time from the oldest to the newest is the target time for each
    share in between, the next target is the newest target, normalised. *)
Theorem NextTarget_on_schedule (dc : DifficultyCalculator)
    (newest : Share) (rest : list Share) (T : Z) :
  rest <> [] -> (length (newest :: rest) <= DifficultyAdjustmentWindow)%nat ->
  ShareTarget newest = Some T -> 0 < T <= MaxShareTarget ->
  Forall (comparable T) rest ->
  0 <= Timestamp (Header (List.last rest newest)) < 2 ^ 32 ->
  0 <= Timestamp (Header newest) < 2 ^ 32 ->
  0 < targetTimeSeconds dc ->
  targetTimeSeconds dc * Z.of_nat (length rest) <= MaxInt64 ->
  Timestamp (Header newest) - Timestamp (Header (List.last rest newest))
  = targetTimeSeconds dc * Z.of_nat (length rest) ->
  NextTarget dc (newest :: rest) = CompactToTarget (TargetToCompact T).
Proof.
  intros Hrest Hlen HT HTr Hcomp Hto Htn Htt Hfit Hsched.
  unfold NextTarget.
  destruct rest as [|r0 rest']; [contradiction|].
  change (length (newest :: r0 :: rest') <? 2)%nat with false. cbv iota.
  destruct (Nat.ltb_spec DifficultyAdjustmentWindow (length (newest :: r0 :: rest')));
    [lia|].
  rewrite HT. destruct (Z.eqb_spec T 0); [lia|]. cbv zeta.
  rewrite comparableShares_all by (assumption || lia).
  change (length (newest :: r0 :: rest') <? 2)%nat with false. cbv iota.
  change (List.last (newest :: r0 :: rest') newest) with (List.last (r0 :: rest') newest).
  set (oldest := List.last (r0 :: rest') newest) in *.
  set (cnt := Z.of_nat (length (r0 :: rest'))) in *.
  assert (Z.of_nat (length (newest :: r0 :: rest')) - 1 = cnt) as ->
    by (unfold cnt; cbn [length]; lia).
  assert (1 <= cnt) by (unfold cnt; cbn [length]; lia).
  assert (cnt <= targetTimeSeconds dc * cnt) by nia.
  rewrite (pplns_facts.int64_id cnt) by (unfold MinInt64, MaxInt64 in *; lia).
  rewrite !pplns_facts.int64_id by (unfold MinInt64, MaxInt64 in *; lia).
  rewrite Hsched.
  assert (0 < targetTimeSeconds dc * cnt) as Hpos by nia.
  destruct (Z.leb_spec (targetTimeSeconds dc * cnt) 0); [lia|].
  assert (big_Div (T * (targetTimeSeconds dc * cnt)) (targetTimeSeconds dc * cnt) = T) as ->.
  { unfold big_Div. destruct (Z.ltb_spec 0 (targetTimeSeconds dc * cnt)); [|lia].
    apply Z.div_mul. lia. }
  change (big_Div T 4) with (T / 4).
  assert (T / 4 <= T) by (Z.div_mod_to_equations; lia).
  destruct (Z.ltb_spec (T * 4) T); [lia|].
  destruct (Z.ltb_spec T (T / 4)); [lia|].
  destruct (Z.ltb_spec MaxShareTarget T); [lia|]. reflexivity.
Qed.


Definition scheduleShare (ts : Z) : Share :=
  {| Header := {| Version := 1; PrevBlockHash := replicate 32 zero;
                  MerkleRoot := replicate 32 zero; Timestamp := ts;
                  Bits := 0x1d00ffff; Nonce := 0 |};
     ShareVersion := 1; PrevShareHash := replicate 32 zero;
     ShareTarget := Some MinShareTarget; MinerAddress := "tb1qtest1";
     CoinbaseTx := []; ShareChainNonce := 0; hash := None |}.

Lemma NextTarget_on_schedule_witness :
  NextTarget {| targetTimeSeconds := 30 |}
    [scheduleShare 1700000060; scheduleShare 1700000030; scheduleShare 1700000000]
  = CompactToTarget (TargetToCompact MinShareTarget).
Proof.
  apply (NextTarget_on_schedule {| targetTimeSeconds := 30 |} (scheduleShare 1700000060)
           [scheduleShare 1700000030; scheduleShare 1700000000] MinShareTarget).
  - discriminate.
  - apply Nat.leb_le. reflexivity.
  - reflexivity.
  - split; [reflexivity|]. vm_compute. discriminate.
  - repeat constructor; exists MinShareTarget;
      (split; [reflexivity|]; split; [discriminate|]; split; vm_compute; discriminate).
  - cbn. lia.
  - cbn. lia.
  - cbn. lia.
  - cbn. unfold MaxInt64. lia.
  - reflexivity.
Defined.

Lemma MaxShareTarget_normal :
  CompactToTarget (TargetToCompact MaxShareTarget) = MaxShareTarget.
Proof. vm_compute. reflexivity. Qed.

(** X25. The value [NextTarget] returns is in normal form: sent as compact
    bits and decoded again it is the same number, so a node that computed
    the target and a node that received it agree.  This holds whenever the
    target of the newest share, when it has one that is not zero, is
    between [2 ^ 18] and [MaxShareTarget]. *)
Theorem NextTarget_normalized (dc : DifficultyCalculator) (shares : list Share) :
  (forall newest rest T,
     shares = newest :: rest -> ShareTarget newest = Some T ->
     T = 0 \/ 2 ^ 18 <= T <= MaxShareTarget) ->
  CompactToTarget (TargetToCompact (NextTarget dc shares)) = NextTarget dc shares.
Proof.
  intros Hnewest. pose proof MaxShareTarget_range as HM.
  assert (forall v, 2 ^ 16 <= v <= MaxShareTarget ->
            CompactToTarget (TargetToCompact (CompactToTarget (TargetToCompact v)))
            = CompactToTarget (TargetToCompact v)) as Hnorm.
  { intros v Hv. rewrite TargetToCompact_normalize; [reflexivity|].
    split; [lia|]. apply Z.le_lt_trans with MaxShareTarget; [lia|].
    apply Z.lt_le_trans with (2 ^ (8 * 32)); [lia|]. apply Z.pow_le_mono_r; lia. }
  unfold NextTarget.
  destruct (length shares <? 2)%nat; [apply MaxShareTarget_normal|].
  assert (exists w, (if (DifficultyAdjustmentWindow <? length shares)%nat
                     then take DifficultyAdjustmentWindow shares else shares) = w
                    /\ (forall newest rest, w = newest :: rest ->
                          exists rest0, shares = newest :: rest0)) as (w & -> & Hw).
  { eexists. split; [reflexivity|]. intros newest rest.
    destruct (_ <? _)%nat; [|eauto].
    destruct shares as [|s0 r0]; [discriminate|].
    cbn [take DifficultyAdjustmentWindow]. intros [= <- _]. eauto. }
  destruct w as [|newest rest]; [apply MaxShareTarget_normal|].
  destruct (Hw newest rest eq_refl) as [rest0 Hshares].
  destruct (ShareTarget newest) as [T|] eqn:HT; [|apply MaxShareTarget_normal].
  destruct (Z.eqb_spec T 0) as [|HT0]; [apply MaxShareTarget_normal|].
  destruct (Hnewest newest rest0 T Hshares HT) as [|HTr]; [contradiction|].
  cbv zeta. change (big_Div T 4) with (T / 4).
  assert (2 ^ 16 <= T / 4 <= T) by (Z.div_mod_to_equations; lia).
  destruct (length _ <? 2)%nat; [apply Hnorm; lia|].
  set (raw := big_Div _ _). clearbody raw.
  set (v1 := if T * 4 <? raw then T * 4 else raw). clearbody v1.
  set (v2 := if v1 <? T / 4 then T / 4 else v1).
  assert (T / 4 <= v2) by (unfold v2; destruct (Z.ltb_spec v1 (T / 4)); lia).
  clearbody v2.
  apply Hnorm. destruct (Z.ltb_spec MaxShareTarget v2); lia.
Qed.

Lemma NextTarget_normalized_witness :
  CompactToTarget
    (TargetToCompact
       (NextTarget {| targetTimeSeconds := 30 |}
          [scheduleShare 1700000100; scheduleShare 1700000030; scheduleShare 1700000000]))
  = NextTarget {| targetTimeSeconds := 30 |}
      [scheduleShare 1700000100; scheduleShare 1700000030; scheduleShare 1700000000].
Proof.
  apply NextTarget_normalized.
  intros newest rest T [= <- _] [= <-]. right. split; vm_compute; discriminate.
Defined.

End retarget_facts.

(** ** Accepted shares and their declared target *)
Module accepted_facts.
Import types util sharechain validation_facts.

Section validator.
Variable Sum256 : list byte -> list byte.
Variable Outputs : Type.
Variable store_Has : list byte -> bool.
Variable store_Get : list byte -> option Share.
Variable targetFunc : list byte -> Z.
Variable network : string.
Variable now : Z.
Variable ValidateAddress : string -> string -> option string.
Variable ExtractShareCommitment : list byte -> result (list byte).
Variable ParseCoinbaseOutputs : list byte -> result Outputs.
Variable ValidateMinerInOutputs : Outputs -> string -> string -> option string.

Local Abbreviation validate :=
  (ValidateShare Sum256 Outputs store_Has store_Get targetFunc network now
     ValidateAddress ExtractShareCommitment ParseCoinbaseOutputs ValidateMinerInOutputs).
Local Abbreviation checks :=
  (specChecks Sum256 Outputs store_Has store_Get targetFunc network now
     ValidateAddress ExtractShareCommitment ParseCoinbaseOutputs ValidateMinerInOutputs).

(** X26. The validator compares the declared target with the expected one
    through their compact bits, and checks the proof of work against the
    expected one.  When both targets are in normal form (as a target decoded
    from the wire and a target returned by [NextTarget] are), equal bits
    mean equal targets: an accepted share declares exactly the expected
    target, and its hash meets the target it declares. *)
Theorem ValidateShare_meets_declared (share : Share) (declared : Z) :
  validate share = Accepted ->
  ShareTarget share = Some declared ->
  CompactToTarget (TargetToCompact declared) = declared ->
  CompactToTarget (TargetToCompact (targetFunc (PrevShareHash share)))
  = targetFunc (PrevShareHash share) ->
  declared = targetFunc (PrevShareHash share)
  /\ fst (MeetsShareTarget Sum256 share) = true.
Proof.
  intros Hacc Hd Hnd Hne.
  pose proof (ValidateShare_refines Sum256 Outputs store_Get targetFunc network now
                ValidateAddress ExtractShareCommitment ParseCoinbaseOutputs
                ValidateMinerInOutputs store_Has share declared Hd) as Hagree.
  assert (Forall (eq true) (checks share)) as Hall.
  { apply (firstViolated_None 1).
    destruct (firstViolated 1 _) as [k|]; [|reflexivity].
    destruct Hagree as (e & He & _). congruence. }
  unfold specChecks in Hall. rewrite Hd in Hall.
  apply Forall_cons in Hall as [_ Hall]. apply Forall_cons in Hall as [_ Hall].
  apply Forall_cons in Hall as [_ Hall]. apply Forall_cons in Hall as [_ Hall].
  apply Forall_cons in Hall as [_ Hall]. apply Forall_cons in Hall as [H6 Hall].
  apply Forall_cons in Hall as [H7 _].
  symmetry in H7. apply Z.eqb_eq in H7.
  assert (declared = targetFunc (PrevShareHash share)) as Heq
    by (rewrite <- Hnd, H7, Hne; reflexivity).
  split; [exact Heq|].
  unfold MeetsShareTarget, MeetsTarget. rewrite Hd, Heq.
  destruct (Hash Sum256 share) as [h s']. cbn [fst] in *. now symmetry.
Qed.

End validator.

Lemma ValidateShare_meets_declared_witness :
  MaxShareTarget = (fun _ : list byte => MaxShareTarget) (PrevShareHash genesisShare)
  /\ fst (MeetsShareTarget (fun b => take 32 b) genesisShare) = true.
Proof.
  apply (ValidateShare_meets_declared (fun b => take 32 b) unit (fun _ => false)
           (fun _ => None) (fun _ => MaxShareTarget) "testnet" (Unix 1700000000)
           (fun _ _ => None) (fun _ => Ok zeroHash) (fun _ => Ok tt) (fun _ _ _ => None)
           genesisShare MaxShareTarget);
    vm_compute; reflexivity.
Defined.

End accepted_facts.

(** ** More on the payouts *)
Module payout_facts.
Import types pplns pplns_facts.

(** *** The order of the result *)

Lemma ascii_compare_lt_trans a b c :
  Ascii.compare a b = Lt -> Ascii.compare b c = Lt -> Ascii.compare a c = Lt.
Proof.
  unfold Ascii.compare. rewrite !N.compare_lt_iff. lia.
Qed.

Lemma string_compare_lt_trans (a : string) :
  forall b c, String.compare a b = Lt -> String.compare b c = Lt -> String.compare a c = Lt.
Proof.
  induction a as [|x a IH]; intros [|y b] [|z c]; cbn [String.compare];
    try discriminate; try reflexivity.
  destruct (Ascii.compare x y) eqn:Hxy; try discriminate;
    destruct (Ascii.compare y z) eqn:Hyz; try discriminate; intros H1 H2.
  - apply Ascii.compare_eq_iff in Hxy, Hyz. subst.
    assert (Ascii.compare z z = Eq) as -> by (unfold Ascii.compare; apply N.compare_refl).
    now apply (IH b c).
  - apply Ascii.compare_eq_iff in Hxy. subst. now rewrite Hyz.
  - apply Ascii.compare_eq_iff in Hyz. subst. now rewrite Hxy.
  - now rewrite (ascii_compare_lt_trans x y z).
Qed.

Lemma string_compare_refl (s : string) : String.compare s s = Eq.
Proof.
  pose proof (String.compare_antisym s s) as H.
  destruct (String.compare s s); [reflexivity|discriminate|discriminate].
Qed.

Lemma string_leb_trans a b c :
  String.leb a b = true -> String.leb b c = true -> String.leb a c = true.
Proof.
  unfold String.leb.
  destruct (String.compare a b) eqn:Hab; try discriminate;
    destruct (String.compare b c) eqn:Hbc; try discriminate; intros _ _.
  - apply String.compare_eq_iff in Hab. apply String.compare_eq_iff in Hbc.
    subst. now rewrite string_compare_refl.
  - apply String.compare_eq_iff in Hab. subst a. now rewrite Hbc.
  - apply String.compare_eq_iff in Hbc. subst c. now rewrite Hab.
  - now rewrite (string_compare_lt_trans a b c).
Qed.

(** Larger amount first; among equal amounts, the address that is not
    larger first. *)
Definition descending (x y : PayoutEntry) : Prop :=
  Amount y < Amount x
  \/ (Amount x = Amount y /\ String.leb (Address x) (Address y) = true).

Lemma payoutOrder_descending x y : payoutOrder x y <-> descending x y.
Proof.
  unfold payoutOrder, payoutLess, descending, String.ltb, String.leb.
  rewrite (String.compare_antisym (Address x)).
  destruct (Z.eqb_spec (Amount y) (Amount x)) as [He|Hne]; cbn [negb].
  - destruct (String.compare (Address y) (Address x)); cbn [CompOpp];
      split; intros H; try discriminate; try (right; split; [lia|reflexivity]);
      try reflexivity; destruct H as [H|[_ H]]; try lia; discriminate.
  - rewrite Z.ltb_ge. split; [intros H; left; lia|]. intros [H|[H _]]; lia.
Qed.

#[local] Instance descending_trans : Transitive descending.
Proof.
  intros x y z [Hxy|[Hxy Lxy]] [Hyz|[Hyz Lyz]]; unfold descending.
  - left. lia.
  - left. lia.
  - left. lia.
  - right. split; [lia|]. now apply (string_leb_trans _ (Address y)).
Qed.

Lemma Sorted_weaken {A} (R S : A -> A -> Prop) (l : list A) :
  (forall x y, R x y -> S x y) -> Sorted R l -> Sorted S l.
Proof.
  intros HRS. induction 1 as [|x l _ IH Hhd]; constructor; [assumption|].
  destruct Hhd; constructor. now apply HRS.
Qed.

Lemma sortedResult_descending payouts : StronglySorted descending (sortedResult payouts).
Proof.
  apply Sorted_StronglySorted; [apply _|].
  eapply Sorted_weaken; [|apply sortedResult_Sorted].
  intros x y. apply payoutOrder_descending.
Qed.

(** X27. The payouts come out in one fixed order: every entry has a larger
    amount than each entry after it, or the same amount and an address that
    is not larger. *)
Theorem CalculatePayouts_descending c w totalReward finderAddress :
  StronglySorted descending (CalculatePayouts c w totalReward finderAddress).
Proof.
  unfold CalculatePayouts.
  destruct ((ShareCount w =? 0)%nat || (totalReward <=? 0)); [constructor|].
  destruct (TotalWeight w =? 0); [constructor|].
  destruct (payoutsBeforeDust c w totalReward finderAddress) as [payouts addresses].
  apply sortedResult_descending.
Qed.


(** *** Who is paid *)

Lemma weightStep_keys w m s a :
  is_Some (weightStep w m s !! a) <-> a = MinerAddress s \/ is_Some (m !! a).
Proof.
  assert (forall v, is_Some (<[MinerAddress s := v]> m !! a)
                    <-> a = MinerAddress s \/ is_Some (m !! a)) as Hins.
  { intros v. rewrite lookup_insert. case_decide as Hc.
    - subst. split; [now left|eauto].
    - split; [now right|]. intros [E|E]; [congruence|assumption]. }
  unfold weightStep. destruct (m !! MinerAddress s); apply Hins.
Qed.

Lemma MinerWeights_keys w a :
  is_Some (MinerWeights w !! a) <-> exists s, s ∈ shares w /\ MinerAddress s = a.
Proof.
  unfold MinerWeights.
  assert (forall l m, is_Some (foldl (weightStep w) m l !! a)
                      <-> is_Some (m !! a) \/ exists s, s ∈ l /\ MinerAddress s = a) as H.
  { induction l as [|s l IH]; intros m; cbn [foldl].
    - split; [now left|]. intros [H|(s & Hs & _)]; [assumption|]. now apply elem_of_nil in Hs.
    - rewrite IH, weightStep_keys. split.
      + intros [[->|H]|(s' & Hs' & Ha)]; [right; exists s; split; [left|reflexivity]
                                         |now left|right; exists s'; split; [now right|assumption]].
      + intros [H|(s' & Hs' & Ha)]; [left; now right|].
        apply elem_of_cons in Hs' as [->|Hs']; [left; left; now symmetry|].
        right. eauto. }
  rewrite H, lookup_empty. split; [intros [[? Hx]|Hx]; [discriminate|assumption]|now right].
Qed.

Lemma addTo_keys m k v a : is_Some (addTo m k v !! a) <-> a = k \/ is_Some (m !! a).
Proof.
  unfold addTo. rewrite lookup_insert. case_decide as Hc.
  - subst. split; [now left|eauto].
  - split; [now right|]. intros [E|E]; [congruence|assumption].
Qed.

Lemma proportional_keys D W wm addrs : forall st a,
  is_Some ((foldl (proportionalStep D W wm) st addrs).1 !! a) ->
  is_Some (st.1 !! a) \/ a ∈ addrs.
Proof.
  induction addrs as [|x addrs IH]; intros st a; cbn [foldl]; [now left|].
  intros H. apply IH in H as [H|H]; [|right; now right].
  destruct st as [P d]. unfold proportionalStep in H.
  match type of H with context [if ?c then _ else _] => destruct c end;
    cbn [fst] in *; [|now left].
  rewrite lookup_insert in H. case_decide; [subst; right; now left|now left].
Qed.

Lemma payoutsBeforeDust_keys c w totalReward finderAddress a :
  is_Some ((payoutsBeforeDust c w totalReward finderAddress).1 !! a) ->
  a = finderAddress \/ a ∈ (payoutsBeforeDust c w totalReward finderAddress).2.
Proof.
  unfold payoutsBeforeDust.
  set (addrs := sortStrings _).
  pose proof (proportional_keys (int64 (totalReward - finderFeeOf c totalReward))
                (TotalWeight w) (MinerWeights w) addrs (∅, 0)) as Hk.
  destruct (foldl _ _ addrs) as [P1 d1]. cbn [fst snd] in Hk.
  assert (forall a, is_Some (P1 !! a) -> a ∈ addrs) as Hkeys.
  { intros a' Ha'. destruct (Hk a' Ha') as [Hs|]; [|assumption].
    rewrite lookup_empty in Hs. now destruct Hs. }
  destruct (negb (String.eqb finderAddress "") && (0 <? finderFeeOf c totalReward));
    destruct (0 <? _); destruct (negb (String.eqb finderAddress ""));
    try destruct addrs as [|a0 rest] eqn:Ea;
    cbn [fst snd]; rewrite ?addTo_keys;
    intuition (subst; eauto using list_elem_of_here).
Qed.

Lemma payoutsBeforeDust_addresses c w totalReward finderAddress :
  (payoutsBeforeDust c w totalReward finderAddress).2
  = sortStrings (map_to_list (MinerWeights w)).*1.
Proof.
  unfold payoutsBeforeDust. cbv zeta.
  destruct (foldl _ _ _) as [P1 d1].
  destruct (negb (String.eqb finderAddress "") && (0 <? finderFeeOf c totalReward));
    reflexivity.
Qed.

Lemma consolidateDust_keys c addresses finderAddress payouts a :
  is_Some (consolidateDust c addresses finderAddress payouts !! a) ->
  a = finderAddress \/ is_Some (payouts !! a).
Proof.
  unfold consolidateDust. destruct (dustScan c payouts finderAddress) as [t ds].
  assert (forall x, is_Some (foldl (fun m addr => delete addr m) payouts ds !! x) ->
                    is_Some (payouts !! x)) as Hdel.
  { intros x. rewrite lookup_foldl_delete. case_decide; [intros [? ?]; discriminate|auto]. }
  destruct (_ <? _)%nat; [|now right].
  destruct (0 <? t); [|intros H; right; now apply Hdel].
  destruct (negb (String.eqb finderAddress "")).
  - rewrite addTo_keys. intros [->|H]; [now left|right; now apply Hdel].
  - destruct (List.find _ addresses) as [r|] eqn:Hfind;
      [|intros H; right; now apply Hdel].
    apply find_some in Hfind as [_ Hr]. apply bool_decide_eq_true_1 in Hr.
    rewrite addTo_keys. intros [->|H]; right; now apply Hdel.
Qed.

Lemma consolidated_positive c addresses finderAddress payouts :
  positive payouts -> positive (consolidated c addresses finderAddress payouts).
Proof.
  intros Hpos. unfold consolidated.
  assert (positive (keptOf c finderAddress payouts)) as Hk by now apply positive_filter.
  assert (positive (dustOf c finderAddress payouts)) as Hd by now apply positive_filter.
  case_decide; [|assumption].
  destruct (dustRecipient _ _ _) as [r|]; [|assumption].
  case_decide; [assumption|].
  apply positive_insert; [assumption|].
  pose proof (default_lookup_range _ r Hk).
  pose proof (proj2 (mapTotal_pos_iff _ Hd) ltac:(assumption)). lia.
Qed.

Lemma sortedResult_elem payouts (x : PayoutEntry) :
  x ∈ sortedResult payouts <-> payouts !! Address x = Some (Amount x).
Proof.
  unfold sortedResult. rewrite merge_sort_Permutation.
  rewrite list_elem_of_In, in_map_iff. setoid_rewrite <- list_elem_of_In.
  split.
  - intros ([k v] & <- & Hin). now apply elem_of_map_to_list in Hin.
  - intros H. exists (Address x, Amount x). split; [now destruct x|].
    now apply elem_of_map_to_list.
Qed.

Lemma sortedResult_NoDup payouts : NoDup (map Address (sortedResult payouts)).
Proof.
  unfold sortedResult.
  assert (map Address (merge_sort payoutOrder
            (map (fun e : string * Z => {| Address := e.1; Amount := e.2 |})
                 (map_to_list payouts)))
          ≡ₚ (map_to_list payouts).*1) as ->.
  { rewrite merge_sort_Permutation, map_map. cbn [Address].
    reflexivity. }
  apply NoDup_fst_map_to_list.
Qed.

Lemma CalculatePayouts_paid c w totalReward finderAddress :
  totalReward <= MaxInt64 -> feeInRange c totalReward -> targetsNonneg w ->
  NoDup (map Address (CalculatePayouts c w totalReward finderAddress))
  /\ Forall (fun e => 0 < Amount e <= totalReward)
       (CalculatePayouts c w totalReward finderAddress)
  /\ Forall (fun e => Address e = finderAddress
                      \/ exists s, s ∈ shares w /\ MinerAddress s = Address e)
       (CalculatePayouts c w totalReward finderAddress).
Proof.
  intros Hmax Hfee Ht.
  destruct (Z.leb_spec totalReward 0) as [Hz|Hpos].
  { unfold CalculatePayouts. destruct (Z.leb_spec totalReward 0); [|lia].
    rewrite orb_true_r. repeat split; constructor. }
  destruct (Z.eq_dec (TotalWeight w) 0) as [HW|HW].
  { unfold CalculatePayouts. rewrite HW. destruct (_ || _); repeat split; constructor. }
  rewrite CalculatePayouts_unfold by assumption.
  pose proof (targetsNonneg_weights w Ht) as Hw.
  destruct (payoutsBeforeDust_spec c w totalReward finderAddress ltac:(lia) Hfee Hw HW)
    as (Hp & Htot & Hkeys).
  pose proof (payoutsBeforeDust_keys c w totalReward finderAddress) as Hk.
  pose proof (consolidateDust_keys c (payoutsBeforeDust c w totalReward finderAddress).2
                finderAddress (payoutsBeforeDust c w totalReward finderAddress).1) as Hck.
  pose proof (consolidateDust_consolidated c (payoutsBeforeDust c w totalReward finderAddress).2
                finderAddress _ Hp ltac:(lia)) as Hc.
  pose proof (consolidated_positive c (payoutsBeforeDust c w totalReward finderAddress).2
                finderAddress _ Hp) as Hcp.
  pose proof (consolidated_total c (payoutsBeforeDust c w totalReward finderAddress).2
                finderAddress _ Hp Hkeys) as Hct.
  rewrite <- Hc in Hcp, Hct.
  set (after := consolidateDust _ _ _ _) in *.
  split; [apply sortedResult_NoDup|]. split.
  - apply Forall_forall. intros x Hx. apply sortedResult_elem in Hx.
    split; [exact (Hcp _ _ Hx)|].
    pose proof (lookup_le_mapTotal after _ _ Hcp Hx). lia.
  - apply Forall_forall. intros x Hx. apply sortedResult_elem in Hx.
    destruct (Hck (Address x) (mk_is_Some _ _ Hx)) as [->|Hin]; [now left|].
    destruct (Hk _ Hin) as [->|Ha]; [now left|]. right.
    apply MinerWeights_keys. rewrite payoutsBeforeDust_addresses in Ha.
    rewrite sortStrings_Permutation in Ha.
    apply list_elem_of_fmap in Ha as ([k v] & -> & Hin').
    apply elem_of_map_to_list in Hin'. eauto.
Qed.

(** X28. Who is paid, and how much: no address is listed twice, every amount is
    positive and at most the total reward, and every address paid is the
    finder or the miner of some share of the window. *)
Theorem CalculatePayouts_entries c w totalReward finderAddress :
  totalReward <= MaxInt64 -> feeInRange c totalReward -> targetsNonneg w ->
  NoDup (map Address (CalculatePayouts c w totalReward finderAddress))
  /\ Forall (fun e => 0 < Amount e <= totalReward)
       (CalculatePayouts c w totalReward finderAddress)
  /\ Forall (fun e => Address e = finderAddress
                      \/ exists s, s ∈ shares w /\ MinerAddress s = Address e)
       (CalculatePayouts c w totalReward finderAddress).
Proof. apply CalculatePayouts_paid. Qed.

Lemma CalculatePayouts_entries_witness :
  NoDup (map Address (CalculatePayouts (pplns_tests.noFee 546) dustWindow 1000 "bigminer"))
  /\ Forall (fun e => 0 < Amount e <= 1000)
       (CalculatePayouts (pplns_tests.noFee 546) dustWindow 1000 "bigminer")
  /\ Forall (fun e => Address e = "bigminer"
                      \/ exists s, s ∈ shares dustWindow /\ MinerAddress s = Address e)
       (CalculatePayouts (pplns_tests.noFee 546) dustWindow 1000 "bigminer").
Proof.
  apply (CalculatePayouts_entries (pplns_tests.noFee 546) dustWindow 1000 "bigminer").
  - unfold MaxInt64. lia.
  - apply noFee_in_range. lia.
  - apply dustWindow_targets.
Defined.


(** *** Weights and the single miner *)

(** The total of [ShareWeight] over the shares of a miner. *)
Definition weightOf (w : Window) (a : string) (l : list Share) : Z :=
  sumZ (map (ShareWeight w) (filter (fun s => MinerAddress s = a) l)).

Lemma weightStep_lookup w m s a :
  weightStep w m s !! a
  = if decide (MinerAddress s = a)
    then Some (default 0 (m !! a) + ShareWeight w s)
    else m !! a.
Proof.
  unfold weightStep. case_decide as Hc.
  - subst a. destruct (m !! MinerAddress s); now rewrite lookup_insert_eq.
  - destruct (m !! MinerAddress s); now rewrite lookup_insert_ne.
Qed.

Lemma MinerWeights_lookup_aux w a (l : list Share) : forall m,
  foldl (weightStep w) m l !! a
  = if decide (filter (fun s => MinerAddress s = a) l = [])
    then m !! a
    else Some (default 0 (m !! a) + weightOf w a l).
Proof.
  unfold weightOf. induction l as [|s l IH]; intros m; cbn [foldl]; [reflexivity|].
  rewrite IH, weightStep_lookup. rewrite filter_cons.
  destruct (decide (MinerAddress s = a)) as [Hs|Hs].
  - destruct (decide (filter _ l = [])) as [Hl|Hl].
    + rewrite Hl. rewrite decide_False by discriminate. f_equal.
      cbn [map sumZ foldr]. simpl default.
      generalize (default 0 (m !! a)). intros. lia.
    + rewrite decide_False by discriminate. f_equal.
      cbn [map sumZ foldr]. simpl default. fold (sumZ (map (ShareWeight w) (filter (fun s0 => MinerAddress s0 = a) l))).
      generalize (default 0 (m !! a)). intros. lia.
  - reflexivity.
Qed.

(** X29. [MinerWeights] gives every miner of the window the sum of the weights
    of its shares and knows no other address, so the weights of the miners
    add up to [TotalWeight]. *)
Theorem MinerWeights_per_miner (w : Window) :
  (forall a,
     MinerWeights w !! a
     = if decide (filter (fun s => MinerAddress s = a) (shares w) = [])
       then None else Some (weightOf w a (shares w)))
  /\ mapTotal (MinerWeights w) = TotalWeight w.
Proof.
  split; [|apply MinerWeights_total].
  intros a. unfold MinerWeights. rewrite MinerWeights_lookup_aux, lookup_empty.
  destruct (decide _); reflexivity.
Qed.

(** X30. A window mined by one address alone, with that address as the finder,
    pays the whole reward to it in a single entry. *)
Theorem CalculatePayouts_single_miner c w totalReward (a : string) :
  0 < totalReward <= MaxInt64 -> TotalWeight w <> 0 ->
  feeInRange c totalReward -> targetsNonneg w ->
  Forall (fun s => MinerAddress s = a) (shares w) ->
  CalculatePayouts c w totalReward a = [ {| Address := a; Amount := totalReward |} ].
Proof.
  intros Hr HW Hfee Ht Hall.
  destruct (CalculatePayouts_paid c w totalReward a ltac:(lia) Hfee Ht)
    as (Hnd & _ & Hwho).
  assert (totalAmount (CalculatePayouts c w totalReward a) = totalReward) as Htot.
  { rewrite CalculatePayouts_unfold by (assumption || lia).
    pose proof (targetsNonneg_weights w Ht) as Hw.
    destruct (payoutsBeforeDust_spec c w totalReward a Hr Hfee Hw HW) as (Hp & Hsum & Hkeys).
    rewrite sortedResult_total, consolidateDust_consolidated by (assumption || lia).
    rewrite consolidated_total by assumption. exact Hsum. }
  assert (Forall (fun e => Address e = a) (CalculatePayouts c w totalReward a)) as Haddr.
  { eapply Forall_impl; [exact Hwho|]. intros e [He|(s & Hs & He)]; [assumption|].
    rewrite <- He. rewrite Forall_forall in Hall. now apply Hall. }
  destruct (CalculatePayouts c w totalReward a) as [|x [|y r]].
  - cbn in Htot. lia.
  - apply Forall_cons in Haddr as [Hx _]. cbn in Htot.
    destruct x as [xa xv]. cbn in *. subst. f_equal. f_equal. lia.
  - apply Forall_cons in Haddr as [Hx Haddr]. apply Forall_cons in Haddr as [Hy _].
    cbn [map] in Hnd. apply NoDup_cons in Hnd as [Hnotin _].
    exfalso. apply Hnotin. rewrite Hx, Hy. left.
Qed.

Lemma CalculatePayouts_single_miner_witness :
  CalculatePayouts (pplns_tests.halfPercent 546)
    (NewWindow [pplns_tests.makeShare "solo" pplns_tests.easyTarget;
                pplns_tests.makeShare "solo" pplns_tests.easyTarget;
                pplns_tests.makeShare "solo" pplns_tests.easyTarget]
       pplns_tests.easyTarget) 5000000000 "solo"
  = [ {| Address := "solo"; Amount := 5000000000 |} ].
Proof.
  apply (CalculatePayouts_single_miner (pplns_tests.halfPercent 546)).
  - unfold MaxInt64. lia.
  - vm_compute. discriminate.
  - split; vm_compute; discriminate.
  - split; [vm_compute; discriminate|].
    repeat constructor; intros t [= <-]; vm_compute; discriminate.
  - repeat constructor.
Defined.

End payout_facts.
